(** * FlowDocument and Caret: a shallow embedding

    The rich-text document model ([FlowDocument]) and its selection
    controller ([Caret]) sit on top of a replicated sequence store
    (merge-tree / SharedString).  The document code is embedded from its
    TypeScript source; the store, the token-list helper and the layout are
    not part of the sources at hand and are modelled from the design
    document, each such definition saying so in its comment. *)

From Stdlib Require Import ZArith String Ascii List Lia Permutation.
From stdpp Require Import base option list sorting gmap strings.
Import ListNotations.

Local Open Scope string_scope.
Local Open Scope list_scope.
Local Open Scope Z_scope.

(** ** Exceptions *)

(** A JavaScript [throw] is an [Err]; a call that may throw returns a
    [result]. *)
Inductive Err : Type :=
  | InvalidPosition      (* the store rejects a position outside the sequence *)
  | AssertionError       (* node's [assert] failed *)
  | TypeError.           (* property access on [undefined] *)

Inductive result (A : Type) : Type :=
  | Ok (a : A)
  | Throw (e : Err).
Arguments Ok {A} a.
Arguments Throw {A} e.

#[global] Instance Err_eq_dec : EqDecision Err.
Proof. solve_decision. Defined.

#[global] Instance result_eq_dec {A : Type} `{EqDecision A} : EqDecision (result A).
Proof. solve_decision. Defined.

#[global] Instance result_ret : MRet result := fun _ a => Ok a.
#[global] Instance result_bind : MBind result := fun _ _ f m =>
  match m with
  | Ok a => f a
  | Throw e => Throw e
  end.
#[global] Instance result_fmap : FMap result := fun _ _ f m =>
  match m with
  | Ok a => Ok (f a)
  | Throw e => Throw e
  end.

Definition assert (b : bool) : result unit :=
  if b then Ok tt else Throw AssertionError.

(** ** Strings *)

(** [s.slice(n)] for [0 <= n]: the string without its first [n] units. *)
Fixpoint slice (n : nat) (s : string) : string :=
  match n, s with
  | O, _ => s
  | S n', String _ s' => slice n' s'
  | S _, EmptyString => EmptyString
  end.

(** [s.slice(0, n)]. *)
Fixpoint sliceTo (n : nat) (s : string) : string :=
  match n, s with
  | O, _ => EmptyString
  | S n', String c s' => String c (sliceTo n' s')
  | S _, EmptyString => EmptyString
  end.

(** ** Segments of the sequence store *)

Module ReferenceType.
  (** The flag values of merge-tree's [ReferenceType] enumeration. *)
Definition Simple : Z := 0.
Definition Tile : Z := 1.
Definition NestBegin : Z := 2.
Definition NestEnd : Z := 4.
Definition SlideOnRemove : Z := 64.
End ReferenceType.

Inductive DocSegmentKind : Type :=
  | text | paragraph | lineBreak | beginTags | inclusion | endTags | endOfText.

#[global] Instance DocSegmentKind_eq_dec : EqDecision DocSegmentKind.
Proof. solve_decision. Defined.

(** The string value of each member of the [const enum]. *)
Definition kindLabel (k : DocSegmentKind) : string :=
  match k with
  | text => "text"
  | paragraph => "<p>"
  | lineBreak => "<br>"
  | beginTags => "<t>"
  | inclusion => "<?>"
  | endTags => "</>"
  | endOfText => "eot"
  end.

Definition checkpoint : string := "*".

(** [tilesAndRanges.has(kind)], returning the member whose label it is. *)
Definition tilesAndRanges (label : string) : option DocSegmentKind :=
  if decide (label = kindLabel paragraph) then Some paragraph
  else if decide (label = kindLabel lineBreak) then Some lineBreak
  else if decide (label = kindLabel beginTags) then Some beginTags
  else if decide (label = kindLabel inclusion) then Some inclusion
  else None.

(** The recognised keys of a segment's property bag. *)
Record PropertySet : Type := mkProps {
  tileLabels : list string;     (* [reservedTileLabelsKey] *)
  rangeLabels : list string;    (* [reservedRangeLabelsKey] *)
  markerId : option string;     (* [reservedMarkerIdKey] *)
  tags : list string;
  tag : option string;
  classList : option string;
}.

Definition empty : PropertySet := mkProps [] [] None [] None None.

(** Object identity of a segment. *)
Definition SegId := nat.
Bind Scope nat_scope with SegId.

Inductive ISegment : Type :=
  | TextSegment (sid : SegId) (content : string) (properties : PropertySet)
  | Marker (sid : SegId) (refType : Z) (properties : PropertySet).

Definition segId (s : ISegment) : SegId :=
  match s with TextSegment i _ _ | Marker i _ _ => i end.

Definition properties (s : ISegment) : PropertySet :=
  match s with TextSegment _ _ p | Marker _ _ p => p end.

Definition cachedLength (s : ISegment) : Z :=
  match s with
  | TextSegment _ t _ => Z.of_nat (String.length t)
  | Marker _ _ _ => 1
  end.

(** [const endOfTextSegment = undefined]: a segment variable is an
    [option], and the end of the document is [None]. *)
Definition endOfTextSegment : option ISegment := None.

(** [a || b] on strings that may be [undefined]: the empty string is falsy. *)
Definition orElse (a b : option string) : option string :=
  match a with
  | Some s => if decide (s = EmptyString) then b else a
  | None => b
  end.

Definition getDocSegmentKind (segment : option ISegment) : result DocSegmentKind :=
  match segment with
  | None => Ok endOfText
  | Some (TextSegment _ _ _) => Ok text
  | Some (Marker _ markerType props) =>
      if decide (markerType = ReferenceType.Tile
                 ∨ markerType = Z.lor ReferenceType.Tile ReferenceType.NestBegin)
      then
        let rangeLabel := head (rangeLabels props) in
        match orElse rangeLabel (head (tileLabels props)) ≫= tilesAndRanges with
        | Some kind => Ok kind
        | None => Throw AssertionError
        end
      else
        _ ← assert (bool_decide
                      (markerType = Z.lor ReferenceType.Tile ReferenceType.NestEnd));
        _ ← assert (bool_decide
                      (head (rangeLabels props) = Some (kindLabel beginTags)));
        Ok endTags
  end.

(** ** The sequence store under one snapshot *)

(** Modelled from the spec: the store (merge-tree) is consumed only through
    its interface (section 6).  Under one (sequence-number, client-id)
    snapshot it is the ordered sequence of its segments; a text segment
    spans one position per unit and a marker spans one position. *)
Definition MergeTree := list ISegment.

(** Modelled from the spec: [length(snapshot)]. *)
Definition getLength (doc : MergeTree) : Z :=
  foldr (fun s n => cachedLength s + n) 0 doc.

(** Modelled from the spec: [containingSegmentAt(position)], the segment
    owning the position and the offset inside it; a position outside
    [[0, length)] is an [InvalidPosition]. *)
Fixpoint getContainingSegment (doc : MergeTree) (position : Z)
  : result (ISegment * Z) :=
  match doc with
  | [] => Throw InvalidPosition
  | s :: rest =>
      if position <? 0 then Throw InvalidPosition
      else if position <? cachedLength s then Ok (s, position)
      else getContainingSegment rest (position - cachedLength s)
  end.

(** Modelled from the spec: [positionOf(segment, snapshot)], the position
    at which the segment starts; [None] for a segment that is not in the
    snapshot. *)
Fixpoint positionOf (doc : MergeTree) (sid : SegId) : option Z :=
  match doc with
  | [] => None
  | s :: rest =>
      if decide (segId s = sid) then Some 0
      else (fun p => cachedLength s + p) <$> positionOf rest sid
  end.

(** [mergeTree.getPosition(segment, seq, clientId)]: the store's position
    lookup, which has no answer for a segment outside the snapshot. *)
Definition mergeTree_getPosition (doc : MergeTree) (s : ISegment) : result Z :=
  match positionOf doc (segId s) with
  | Some p => Ok p
  | None => Throw InvalidPosition
  end.

(** ** FlowDocument: positions *)

Definition getSegmentAndOffset (doc : MergeTree) (position : Z)
  : result (option ISegment * Z) :=
  if decide (position = getLength doc)
  then Ok (endOfTextSegment, 0)
  else '(s, offset) ← getContainingSegment doc position; Ok (Some s, offset).

Definition getPosition (doc : MergeTree) (segment : option ISegment) : result Z :=
  match segment with
  | None => Ok (getLength doc)
  | Some s => mergeTree_getPosition doc s
  end.

(** Segments are distinct objects. *)
Definition distinctSegments (doc : MergeTree) : Prop := NoDup (segId <$> doc).

(** ** FlowDocument: matched tag markers *)

Definition getId (marker : ISegment) : option string := markerId (properties marker).

(** Modelled from the spec: the store's index from marker id to marker
    ([mergeTree.idToSegment]), read in the snapshot: the marker that
    carries the id, [None] ([undefined]) when there is none. *)
Fixpoint idToSegment (doc : MergeTree) (id : string) : option ISegment :=
  match doc with
  | [] => None
  | TextSegment _ _ _ :: rest => idToSegment rest id
  | (Marker _ _ _ as s) :: rest =>
      if decide (getId s = Some id) then Some s else idToSegment rest id
  end.

(** [marker.getId()] is [undefined] for a marker without an id, and
    [.slice] on it throws. *)
Definition getOppositeMarker (doc : MergeTree) (marker : ISegment)
    (oldPrefixLength : nat) (newPrefix : string) : result (option ISegment) :=
  match getId marker with
  | None => Throw TypeError
  | Some id => Ok (idToSegment doc (newPrefix +:+ slice oldPrefixLength id))
  end.

Definition getStart (doc : MergeTree) (marker : ISegment) :=
  getOppositeMarker doc marker 3 "begin".

Definition getEnd (doc : MergeTree) (marker : ISegment) :=
  getOppositeMarker doc marker 5 "end".

(** ** Operations sent to the store *)

Inductive IMergeTreeOp : Type :=
  | RemoveRangeOp (pos1 pos2 : Z)                  (* [createRemoveRangeOp] *)
  | InsertSegmentOp (pos1 : Z) (seg : ISegment).   (* [createInsertSegmentOp] *)

Definition pos1 (op : IMergeTreeOp) : Z :=
  match op with RemoveRangeOp p _ | InsertSegmentOp p _ => p end.

(** The end of the range an operation removes (an insertion removes
    nothing). *)
Definition pos2 (op : IMergeTreeOp) : Z :=
  match op with RemoveRangeOp _ p => p | InsertSegmentOp p _ => p end.

(** The calls a [FlowDocument] method makes on its [SharedString]. *)
Inductive StoreCall : Type :=
  | GroupOperation (ops : list IMergeTreeOp)       (* [type: GROUP] *)
  | AnnotateRange (start end_ : Z) (props : option string).

(** ** FlowDocument: traversal *)

(** A leaf action sees the position of a segment, the segment and the part
    of it inside the range, and answers whether to go on; the state it
    closes over is passed along. *)
Definition LeafAction (S : Type) : Type :=
  Z → ISegment → Z → Z → S → result (bool * S).

(** Modelled from the spec: the store's range traversal ([mapRange]): the
    segments overlapping [[start, end)] in position order, each with the
    offsets of the overlap inside it, until the action answers [false]. *)
Fixpoint mapRange {S : Type} (leaf : LeafAction S) (accum : S)
    (pos start end_ : Z) (doc : MergeTree) : result S :=
  match doc with
  | [] => Ok accum
  | s :: rest =>
      let startOffset := Z.max 0 (start - pos) in
      let endOffset := Z.min (cachedLength s) (end_ - pos) in
      if startOffset <? endOffset then
        '(go, accum') ← leaf pos s startOffset endOffset accum;
        if go : bool
        then mapRange leaf accum' (pos + cachedLength s) start end_ rest
        else Ok accum'
      else mapRange leaf accum (pos + cachedLength s) start end_ rest
  end.

Definition visitRange {S : Type} (callback : LeafAction S) (accum : S)
    (start end_ : Z) (doc : MergeTree) : result S :=
  if negb (start <? end_) then Ok accum
  else mapRange callback accum 0 start end_ doc.

(** The visits a full traversal makes: position, segment and the offsets
    of the overlap, for each segment overlapping [[start, end)]. *)
Fixpoint overlapping (pos start end_ : Z) (doc : MergeTree)
  : list (Z * ISegment * Z * Z) :=
  match doc with
  | [] => []
  | s :: rest =>
      let startOffset := Z.max 0 (start - pos) in
      let endOffset := Z.min (cachedLength s) (end_ - pos) in
      (if startOffset <? endOffset then [(pos, s, startOffset, endOffset)] else [])
      ++ overlapping (pos + cachedLength s) start end_ rest
  end.

Definition visited (start end_ : Z) (doc : MergeTree) : list (Z * ISegment * Z * Z) :=
  if negb (start <? end_) then [] else overlapping 0 start end_ doc.

(** ** FlowDocument.remove *)

(** The callback of [remove]; its state is the [start] it assigns to and
    the [ops] it pushes on.  The message handed to [debug] is built before
    the call, so [endTag.properties] is read, and throws for a missing end
    tag. *)
Definition removeLeaf (doc : MergeTree) (end_ : Z) : LeafAction (Z * list IMergeTreeOp) :=
  fun position segment _ _ '(start, ops) =>
    kind ← getDocSegmentKind (Some segment);
    match kind with
    | beginTags =>
        endTag ← getEnd doc segment;
        endPos ← getPosition doc endTag;
        if negb (endPos <? end_) then
          match endTag with
          | None => Throw TypeError
          | Some _ => Ok (true, (start, ops ++ [RemoveRangeOp endPos (endPos + 1)]))
          end
        else Ok (true, (start, ops))
    | endTags =>
        startTag ← getStart doc segment;
        startPos ← getPosition doc startTag;
        if negb (start <=? startPos) then
          Ok (true, (position + 1, ops ++ [RemoveRangeOp start position]))
        else Ok (true, (start, ops))
    | _ => Ok (true, (start, ops))
    end.

(** [(left, right) => right.pos1 - left.pos1] is not positive: [left] may
    stay before [right]. *)
Definition descending (left right : IMergeTreeOp) : Prop := pos1 right <= pos1 left.

#[global] Instance descending_dec : RelDecision descending.
Proof. intros l r. unfold descending. apply _. Defined.

(** [ops.sort(compare)]. *)
Definition sortOps (ops : list IMergeTreeOp) : list IMergeTreeOp :=
  merge_sort descending ops.

(** The state of the scan of [remove]: the active [start] and the [ops]. *)
Definition removeScan (start end_ : Z) (doc : MergeTree)
  : result (Z * list IMergeTreeOp) :=
  visitRange (removeLeaf doc end_) (start, []) start end_ doc.

Definition remove (start end_ : Z) (doc : MergeTree) : result (list StoreCall) :=
  '(start', ops) ← removeScan start end_ doc;
  let ops := if decide (start' ≠ end_)
             then ops ++ [RemoveRangeOp start' end_] else ops in
  Ok [GroupOperation (sortOps ops)].

(** ** The store applying operations *)

(** Modelled from the spec: what the store's primitive [removeRange] leaves
    of one segment, the range given relative to the segment's start.  A
    marker inside the range goes; a text segment keeps the units outside
    it, the part after the range being a new segment [fresh]. *)
Definition removeFromSegment (fresh : SegId) (a b : Z) (s : ISegment) : list ISegment :=
  if (b <=? 0) || (cachedLength s <=? a) || (b <=? a) then [s]
  else match s with
       | Marker _ _ _ => []
       | TextSegment sid t props =>
           (if 0 <? a then [TextSegment sid (sliceTo (Z.to_nat a) t) props] else [])
           ++ (if b <? cachedLength s
               then [TextSegment fresh (slice (Z.to_nat b) t) props] else [])
       end.

(** Modelled from the spec: the store's primitive [removeRange] over the
    sequence, the range given relative to the start of the sequence. *)
Fixpoint removeRange (fresh : SegId) (a b : Z) (doc : MergeTree) : MergeTree :=
  match doc with
  | [] => []
  | s :: rest =>
      removeFromSegment fresh a b s
      ++ removeRange fresh (a - cachedLength s) (b - cachedLength s) rest
  end.

(** Modelled from the spec: the store's primitive [insertMarker] /
    [insertText]: the segment goes in at the position, splitting the text
    segment that spans it; the part after the split is a new segment
    [fresh]. *)
Fixpoint insertSegment (fresh : SegId) (pos : Z) (seg : ISegment) (doc : MergeTree)
  : MergeTree :=
  match doc with
  | [] => [seg]
  | s :: rest =>
      if pos <=? 0 then seg :: s :: rest
      else if pos <? cachedLength s then
        match s with
        | TextSegment sid t props =>
            [TextSegment sid (sliceTo (Z.to_nat pos) t) props; seg;
             TextSegment fresh (slice (Z.to_nat pos) t) props] ++ rest
        | Marker _ _ _ => s :: seg :: rest
        end
      else s :: insertSegment fresh (pos - cachedLength s) seg rest
  end.

(** Modelled from the spec: the store owns its segments; [nextSegId] is the
    identity the next segment it creates will have, so that no identity is
    ever used twice. *)
Record Store : Type := mkStore {
  segments : MergeTree;
  nextSegId : SegId;
}.

(** Modelled from the spec: one primitive operation applied by the store;
    a position outside [[0, length]] is an [InvalidPosition]. *)
Definition applyOp (st : Store) (op : IMergeTreeOp) : result Store :=
  let doc := segments st in
  match op with
  | RemoveRangeOp a b =>
      if (0 <=? a) && (a <=? b) && (b <=? getLength doc)
      then Ok (mkStore (removeRange (nextSegId st) a b doc) (S (nextSegId st)))
      else Throw InvalidPosition
  | InsertSegmentOp p seg =>
      if (0 <=? p) && (p <=? getLength doc)
      then Ok (mkStore (insertSegment (nextSegId st) p seg doc) (S (nextSegId st)))
      else Throw InvalidPosition
  end.

(** Modelled from the spec: [submitGroup(ops[])], atomic and ordered: the
    operations apply one after the other, and a group with a failing
    operation leaves nothing behind. *)
Fixpoint applyGroup (st : Store) (ops : list IMergeTreeOp) : result Store :=
  match ops with
  | [] => Ok st
  | op :: rest => st' ← applyOp st op; applyGroup st' rest
  end.

(** ** Local references *)

(** A [LocalReference] object: the segment it holds ([undefined] for the
    end of the document), the offset, its type, and whether
    [addLocalReference] registered it with the store. *)
Record LocalReference : Type := mkRef {
  refSegment : option ISegment;
  refOffset : Z;
  refType : Z;
  registered : bool;
}.

(** Modelled from the spec: what the store does to the positions of the
    units that were there before an operation.  A removal shifts what lies
    after the range; a unit inside the range is gone, and a reference on
    it slides to the nearest surviving unit: the one after the range, else
    the one before it, else none. *)
Definition slide (len : Z) (op : IMergeTreeOp) (x : Z) : option Z :=
  match op with
  | RemoveRangeOp a b =>
      if x <? a then Some x
      else if b <=? x then Some (x - (b - a))
      else if b <? len then Some a
      else if 0 <? a then Some (a - 1)
      else None
  | InsertSegmentOp p seg =>
      if x <? p then Some x else Some (x + cachedLength seg)
  end.

(** Modelled from the spec: the store relocating a registered reference
    when an operation turns [doc] into [doc'] and moves the unit at [x] to
    [move x]: the reference follows its unit, and holds no segment when no
    unit is left for it. *)
Definition relocate (move : Z → option Z) (doc doc' : MergeTree) (r : LocalReference)
  : LocalReference :=
  if registered r then
    match refSegment r with
    | None => r
    | Some s =>
        match positionOf doc (segId s) ≫= fun p => move (p + refOffset r) with
        | Some y =>
            match getContainingSegment doc' y with
            | Ok (s', off) => mkRef (Some s') off (refType r) true
            | Throw _ => mkRef None 0 (refType r) true
            end
        | None => mkRef None 0 (refType r) true
        end
    end
  else r.

(** ** The document and what surrounds it *)

(** The state a [FlowDocument] works on: its [SharedString], the
    [LocalReference] objects by identity, how many ids [randomId] has
    drawn, and the calls made on the [SharedString] so far. *)
Record World : Type := mkWorld {
  sharedString : Store;
  localRefs : gmap nat LocalReference;
  nextRef : nat;
  idsDrawn : nat;
  calls : list StoreCall;
}.

Definition mergeTree (w : World) : MergeTree := segments (sharedString w).

Definition FlowDocument_length (w : World) : Z := getLength (mergeTree w).

(** Modelled from the spec: the store applying one operation, relocating
    the references registered with it. *)
Definition storeApply (w : World) (op : IMergeTreeOp) : result World :=
  st' ← applyOp (sharedString w) op;
  Ok (mkWorld st'
        (relocate (slide (getLength (mergeTree w)) op) (mergeTree w) (segments st')
           <$> localRefs w)
        (nextRef w) (idsDrawn w) (calls w)).

(** Modelled from the spec: the operations of a group, applied in their
    order. *)
Fixpoint storeApplyAll (w : World) (ops : list IMergeTreeOp) : result World :=
  match ops with
  | [] => Ok w
  | op :: rest => w' ← storeApply w op; storeApplyAll w' rest
  end.

(** [sharedString.groupOperation({ ops, type: GROUP })]. *)
Definition groupOperation (ops : list IMergeTreeOp) (w : World) : result World :=
  w' ← storeApplyAll w ops;
  Ok (mkWorld (sharedString w') (localRefs w') (nextRef w') (idsDrawn w')
        (calls w' ++ [GroupOperation ops])).

(** ** FlowDocument: local references *)

Definition addLocalRef (position : Z) (w : World) : result (nat * World) :=
  if FlowDocument_length w <=? position then
    let localRef := mkRef endOfTextSegment 0 ReferenceType.Simple false in
    Ok (nextRef w,
        mkWorld (sharedString w) (<[nextRef w := localRef]> (localRefs w))
          (S (nextRef w)) (idsDrawn w) (calls w))
  else
    '(segment, offset) ← getSegmentAndOffset (mergeTree w) position;
    let localRef := mkRef segment offset ReferenceType.SlideOnRemove true in
    Ok (nextRef w,
        mkWorld (sharedString w) (<[nextRef w := localRef]> (localRefs w))
          (S (nextRef w)) (idsDrawn w) (calls w)).

Definition removeLocalRef (h : nat) (w : World) : World :=
  match localRefs w !! h with
  | Some (mkRef (Some s) off ty _) =>
      mkWorld (sharedString w) (<[h := mkRef (Some s) off ty false]> (localRefs w))
        (nextRef w) (idsDrawn w) (calls w)
  | _ => w
  end.

(** Modelled from the spec: [resolveReference(ref, snapshot)]
    ([LocalReference.toPosition]): where the segment starts, plus the
    offset. *)
Definition toPosition (doc : MergeTree) (s : ISegment) (offset : Z) : result Z :=
  (fun p => p + offset) <$> mergeTree_getPosition doc s.

Definition localRefToPosition (doc : MergeTree) (localRef : LocalReference)
  : result Z :=
  match refSegment localRef with
  | None => Ok (getLength doc)
  | Some s => toPosition doc s (refOffset localRef)
  end.

(** ** FlowDocument.insertTags *)

Section insertTags.
  (** Modelled from the spec: [randomId()] generates the ids; the [n]-th
      id drawn is [randomId n]. *)
Variable randomId : nat → string.

Definition tagsProperties : PropertySet :=
    mkProps [kindLabel inclusion; checkpoint] [kindLabel beginTags] None [] None None.

  (** [new Marker(...)] takes the next identity, as the store does for the
      segments it creates. *)
Definition insertTags (tags : list string) (start : Z) (end_ : option Z)
      (w : World) : result World :=
    let end_ := default start end_ in
    let id := randomId (idsDrawn w) in
    let fresh := nextSegId (sharedString w) in
    let endMarker :=
      Marker fresh (Z.lor ReferenceType.Tile ReferenceType.NestEnd)
        (mkProps (tileLabels tagsProperties) (rangeLabels tagsProperties)
           (Some ("end-" +:+ id)) [] None None) in
    let ops := [InsertSegmentOp end_ endMarker] in
    let beginMarker :=
      Marker (S fresh) (Z.lor ReferenceType.Tile ReferenceType.NestBegin)
        (mkProps (tileLabels tagsProperties) (rangeLabels tagsProperties)
           (Some ("begin-" +:+ id)) tags None None) in
    let ops := ops ++ [InsertSegmentOp start beginMarker] in
    groupOperation ops
      (mkWorld (mkStore (mergeTree w) (S (S fresh))) (localRefs w) (nextRef w)
         (S (idsDrawn w)) (calls w)).
End insertTags.

(** ** Annotation *)

Definition setClassList (cl : option string) (props : PropertySet) : PropertySet :=
  mkProps (tileLabels props) (rangeLabels props) (markerId props) (tags props)
    (tag props) cl.

(** Modelled from the spec: what the store's [annotateRange] makes of one
    segment, the range given relative to the segment's start: the part of
    the segment inside the range takes the class list, a text segment
    being split where the range cuts it. *)
Definition annotateSegment (fresh : SegId) (a b : Z) (cl : option string)
    (s : ISegment) : list ISegment :=
  let n := cachedLength s in
  if (b <=? 0) || (n <=? a) || (b <=? a) then [s]
  else match s with
       | Marker sid rt props => [Marker sid rt (setClassList cl props)]
       | TextSegment sid t props =>
           let lo := Z.to_nat (Z.max 0 a) in
           let hi := Z.to_nat (Z.min n b) in
           (if 0 <? a then [TextSegment sid (sliceTo lo t) props] else [])
           ++ [TextSegment (if 0 <? a then fresh else sid)
                 (sliceTo (hi - lo) (slice lo t)) (setClassList cl props)]
           ++ (if b <? n
               then [TextSegment (if 0 <? a then S fresh else fresh) (slice hi t) props]
               else [])
       end.

(** Modelled from the spec: the store's [annotateRange] over the
    sequence. *)
Fixpoint annotateSegments (fresh : SegId) (a b : Z) (cl : option string)
    (doc : MergeTree) : MergeTree :=
  match doc with
  | [] => []
  | s :: rest =>
      annotateSegment fresh a b cl s
      ++ annotateSegments fresh (a - cachedLength s) (b - cachedLength s) cl rest
  end.

(** [sharedString.annotateRange(start, end, { classList })]: the store
    annotates, re-anchors the references registered with it, and the call
    is on record. *)
Definition annotate (start end_ : Z) (cl : option string) (w : World) : World :=
  let st := sharedString w in
  let doc' := annotateSegments (nextSegId st) start end_ cl (segments st) in
  mkWorld (mkStore doc' (S (S (nextSegId st))))
    (relocate Some (segments st) doc' <$> localRefs w)
    (nextRef w) (idsDrawn w) (calls w ++ [AnnotateRange start end_ cl]).

(** ** Token lists *)

Module TokenList.
  (** The pieces of a string between its spaces. *)
Fixpoint split (s : string) : list string :=
    match s with
    | EmptyString => [EmptyString]
    | String c s' =>
        if decide (c = " "%char) then EmptyString :: split s'
        else match split s' with
             | word :: words => String c word :: words
             | [] => [String c EmptyString]
             end
    end.

  (** Modelled from the spec: a class list is a string of tokens separated
      by spaces, or [undefined]. *)
Definition tokens (tokenList : option string) : list string :=
    match tokenList with
    | None => []
    | Some s => filter (fun word => word ≠ EmptyString) (split s)
    end.

Definition has (tokenList : option string) (token : string) : bool :=
    bool_decide (token ∈ tokens tokenList).

Definition join (words : list string) : string :=
    match words with
    | [] => EmptyString
    | word :: rest => foldl (fun acc next => acc +:+ " " +:+ next) word rest
    end.

  (** Modelled from the spec: [TokenList.set]: the list with the token,
      which is appended when it is not there yet. *)
Definition set (tokenList : option string) (token : string) : option string :=
    match tokenList with
    | None => Some token
    | Some s =>
        if decide (s = EmptyString) then Some token
        else if has tokenList token then tokenList
        else Some (s +:+ " " +:+ token)
    end.

  (** Modelled from the spec: [TokenList.unset]: the list without the
      token; a list that does not hold the token is returned as it is. *)
Definition unset (tokenList : option string) (token : string) : option string :=
    if has tokenList token
    then Some (join (filter (fun word => word ≠ token) (tokens tokenList)))
    else tokenList.

  (** Modelled from the spec: [TokenList.computeToggle]: every token of
      [toAdd] that the list holds leaves [toAdd] and joins the set
      [toRemove]. *)
Definition computeToggle (tokenList : option string)
      (toAdd : list string) (toRemove : list string) : list string * list string :=
    (filter (fun token => has tokenList token = false) toAdd,
     foldl (fun acc token =>
              if has tokenList token && negb (bool_decide (token ∈ acc))
              then acc ++ [token] else acc)
           toRemove toAdd).
End TokenList.

(** ** FlowDocument: CSS classes *)

Definition getCss (segment : ISegment) : PropertySet := properties segment.

(** Modelled from the spec: a [SegmentSpan] built from one visited
    segment spans the part of the segment inside the visited range. *)
Record SegmentSpan : Type := mkSpan {
  startPosition : Z;
  endPosition : Z;
}.

Definition newSegmentSpan (position : Z) (segment : ISegment)
    (startOffset endOffset : Z) : SegmentSpan :=
  mkSpan (position + startOffset) (position + endOffset).

(** The callback may close over state of its own, [S]. *)
Definition updateCssClassList {S : Type} (start end_ : Z)
    (callback : option string → S → option string * S) (s0 : S) (w : World)
  : result (S * World) :=
  '(s1, updates) ←
    visitRange
      (fun position segment startOffset endOffset '(s, updates) =>
         let oldList := classList (getCss segment) in
         let '(newList, s') := callback oldList s in
         Ok (true,
             (s', if decide (newList ≠ oldList)
                  then updates ++ [(newSegmentSpan position segment startOffset endOffset,
                                    newList)]
                  else updates)))
      (s0, []) start end_ (mergeTree w);
  Ok (s1,
      foldl (fun w '(span, cl) => annotate (startPosition span) (endPosition span) cl w)
        w updates).

(** The class list a visit finds on its segment. *)
Definition classListAt (v : Z * ISegment * Z * Z) : option string :=
  classList (getCss (v.1.1.2)).

(** The annotation [updateCssClassList] makes for a visit whose class list
    the callback turns into [f] of it. *)
Definition annotationFor (f : option string → option string)
    (v : Z * ISegment * Z * Z) : StoreCall :=
  AnnotateRange (v.1.1.1 + v.1.2) (v.1.1.1 + v.2) (f (classListAt v)).

Definition addCssClass (start end_ : Z) (classNames : list string) (w : World)
  : result World :=
  if decide (classNames ≠ []) then
    let newClasses := TokenList.join classNames in
    snd <$> updateCssClassList start end_
              (fun classList (_ : unit) => (TokenList.set classList newClasses, tt)) tt w
  else Ok w.

Definition removeCssClass (start end_ : Z) (classNames : list string) (w : World)
  : result World :=
  snd <$> updateCssClassList start end_
            (fun classList (_ : unit) => (foldl TokenList.unset classList classNames, tt))
            tt w.

Definition toggleScan (start end_ : Z) (classNames : list string) (w : World)
  : result (list string * list string * World) :=
  updateCssClassList start end_
    (fun classList (sets : list string * list string) =>
       (classList, TokenList.computeToggle classList sets.1 sets.2))
    (classNames, []) w.

Definition toggleCssClass (start end_ : Z) (classNames : list string) (w : World)
  : result World :=
  '(toAdd, toRemove, w1) ← toggleScan start end_ classNames w;
  w2 ← removeCssClass start end_ toRemove w1;
  addCssClass start end_ toAdd w2.

(** ** Caret *)

Section Caret.
  (** Modelled from the spec: the presentation layer.  [Node] is a node of
      the rendered document, compared by identity; the layout maps a
      segment and an offset to a node and an offset inside it. *)
Context {Node : Type} `{EqDecision Node}.
Variable segmentAndOffsetToNodeAndOffset : option ISegment → Z → Node * Z.

  (** Modelled from the spec: the external selection
      ([window.getSelection()]): its anchor and its focus, a node ([null]
      when there is no selection) and an offset each. *)
Record Selection : Type := mkSelection {
    anchorNode : option Node;
    anchorOffset : Z;
    focusNode : option Node;
    focusOffset : Z;
  }.

  (** What a caret does to the presentation layer. *)
Inductive CaretEffect : Type :=
    | MapToNode (segment : option ISegment) (offset : Z)
    | SetBaseAndExtent (anchor : Node) (anchorAt : Z) (focus : Node) (focusAt : Z).

Definition isMapToNode (e : CaretEffect) : bool :=
    match e with MapToNode _ _ => true | SetBaseAndExtent _ _ _ _ => false end.

Record Presentation : Type := mkPresentation {
    selection : Selection;
    effects : list CaretEffect;
  }.

Definition mappingCalls (pres : Presentation) : nat :=
    List.length (filter (fun e => isMapToNode e = true) (effects pres)).

  (** [this.layout.segmentAndOffsetToNodeAndOffset(segment, offset)]. *)
Definition mapToNode (segment : option ISegment) (offset : Z) (pres : Presentation)
    : (Node * Z) * Presentation :=
    (segmentAndOffsetToNodeAndOffset segment offset,
     mkPresentation (selection pres) (effects pres ++ [MapToNode segment offset])).

  (** [selection.setBaseAndExtent(...)]. *)
Definition setBaseAndExtent (startNode : Node) (startOffset : Z)
      (endNode : Node) (endOffset : Z) (pres : Presentation) : Presentation :=
    mkPresentation (mkSelection (Some startNode) startOffset (Some endNode) endOffset)
      (effects pres ++ [SetBaseAndExtent startNode startOffset endNode endOffset]).

  (** The caret with its two references as they are when it is used. *)
Record Caret : Type := mkCaret {
    startRef : LocalReference;
    endRef : LocalReference;
  }.

Definition positionToNodeOffset (doc : MergeTree) (ref : LocalReference)
      (pres : Presentation) : result ((Node * Z) * Presentation) :=
    position ← localRefToPosition doc ref;
    '(rightSegment, rightOffset) ← getSegmentAndOffset doc position;
    rightKind ← getDocSegmentKind (refSegment ref);
    if decide (position = 0 ∨ rightKind = text) then
      Ok (mapToNode rightSegment rightOffset pres)
    else
      '(leftSegment, leftOffset) ← getSegmentAndOffset doc (position - 1);
      leftKind ← getDocSegmentKind leftSegment;
      let delta := if decide (leftKind = text) then 1 else 0 in
      Ok (mapToNode leftSegment (leftOffset + delta) pres).

Definition sync (doc : MergeTree) (caret : Caret) (pres : Presentation)
    : result Presentation :=
    '((startNode, startOffset), pres) ← positionToNodeOffset doc (startRef caret) pres;
    '((endNode, endOffset), pres) ← positionToNodeOffset doc (endRef caret) pres;
    let sel := selection pres in
    if decide (endOffset ≠ focusOffset sel ∨ Some endNode ≠ focusNode sel
               ∨ startOffset ≠ anchorOffset sel ∨ Some startNode ≠ anchorNode sel)
    then Ok (setBaseAndExtent startNode startOffset endNode endOffset pres)
    else Ok pres.
End Caret.

Arguments Selection : clear implicits.
Arguments CaretEffect : clear implicits.
Arguments Presentation : clear implicits.

(** ** Operations on a document with references *)

(** One operation of a document that has local references: a reference
    is created or released, a group is submitted (as [remove] does), tags
    are inserted, a range is annotated, classes are added, removed or
    toggled. *)
Inductive step : World → World → Prop :=
  | step_addLocalRef position w h w' :
      addLocalRef position w = Ok (h, w') → step w w'
  | step_removeLocalRef h w :
      step w (removeLocalRef h w)
  | step_groupOperation ops w w' :
      groupOperation ops w = Ok w' → step w w'
  | step_insertTags randomId tags start end_ w w' :
      insertTags randomId tags start end_ w = Ok w' → step w w'
  | step_annotate start end_ cl w :
      step w (annotate start end_ cl w)
  | step_addCssClass start end_ classNames w w' :
      addCssClass start end_ classNames w = Ok w' → step w w'
  | step_removeCssClass start end_ classNames w w' :
      removeCssClass start end_ classNames w = Ok w' → step w w'
  | step_toggleCssClass start end_ classNames w w' :
      toggleCssClass start end_ classNames w = Ok w' → step w w'.

(** A reference holds the segment that owns a position, with the offset
    of the position in it, or no segment. *)
Definition anchored (doc : MergeTree) (r : LocalReference) : Prop :=
  match refSegment r with
  | None => True
  | Some s => ∃ y, getContainingSegment doc y = Ok (s, refOffset r)
  end.

(** The references registered with the store are anchored. *)
Definition refsAnchored (w : World) : Prop :=
  ∀ h r, localRefs w !! h = Some r → registered r = true → anchored (mergeTree w) r.

(** A reference in use: registered with the store, or to the end of the
    document. *)
Definition inUse (r : LocalReference) : Prop :=
  registered r = true ∨ refSegment r = None.

(** Every segment is of a known kind. *)
Definition knownKinds (doc : MergeTree) : Prop :=
  Forall (fun s => ∃ kind, getDocSegmentKind (Some s) = Ok kind) doc.

(** ** Well-formed documents *)

(** The position of the end tag a begin tag names, when there is one. *)
Definition endPositionOf (doc : MergeTree) (s : ISegment) : option Z :=
  match getDocSegmentKind (Some s) with
  | Ok beginTags =>
      match getEnd doc s with
      | Ok (Some e) => positionOf doc (segId e)
      | _ => None
      end
  | _ => None
  end.

Definition endPositions (doc part : MergeTree) : list Z :=
  omap (endPositionOf doc) part.

(** No two begin tags of the document share their end tag (section 3:
    every begin has exactly one end and vice versa). *)
Definition uniqueEnds (doc : MergeTree) : Prop := NoDup (endPositions doc doc).

(** Every marker is of a known kind, every begin tag names an end tag of
    the document and every end tag has an id. *)
Definition wellTaggedSegment (doc : MergeTree) (s : ISegment) : bool :=
  match getDocSegmentKind (Some s) with
  | Ok beginTags =>
      match getEnd doc s with Ok (Some _) => true | _ => false end
  | Ok endTags =>
      match getId s with Some _ => true | None => false end
  | Ok _ => true
  | Throw _ => false
  end.

Definition wellTagged (doc : MergeTree) : Prop :=
  Forall (fun s => wellTaggedSegment doc s = true) doc.

(** Two ranges with no position in common. *)
Definition rangesDisjoint (x y : IMergeTreeOp) : Prop :=
  ∀ p, ¬ (pos1 x <= p < pos2 x ∧ pos1 y <= p < pos2 y).

(** One range lies wholly before the start of the other, which starts
    later. *)
Definition before (x y : IMergeTreeOp) : Prop :=
  pos1 x < pos1 y ∧ pos2 x <= pos1 y.

Definition separated (x y : IMergeTreeOp) : Prop := before x y ∨ before y x.

Definition isRemove (op : IMergeTreeOp) : Prop :=
  match op with RemoveRangeOp _ _ => True | InsertSegmentOp _ _ => False end.

Definition markerIds (doc : MergeTree) : list SegId :=
  omap (fun s => match s with
                 | Marker i _ _ => Some i
                 | TextSegment _ _ _ => None
                 end) doc.

(** ** The scan of [remove], step by step *)

(** What one call of the callback does to [start] and [ops]. *)
Inductive removeStep (doc : MergeTree) (end_ position : Z) (segment : ISegment)
    (start : Z) (ops : list IMergeTreeOp) : Z → list IMergeTreeOp → Prop :=
  | step_skip : removeStep doc end_ position segment start ops start ops
  | step_lone e q :
      getDocSegmentKind (Some segment) = Ok beginTags →
      getEnd doc segment = Ok (Some e) →
      positionOf doc (segId e) = Some q →
      end_ <= q →
      removeStep doc end_ position segment start ops
        start (ops ++ [RemoveRangeOp q (q + 1)])
  | step_flush startTag startPos :
      getDocSegmentKind (Some segment) = Ok endTags →
      getStart doc segment = Ok startTag →
      getPosition doc startTag = Ok startPos →
      startPos < start →
      removeStep doc end_ position segment start ops
        (position + 1) (ops ++ [RemoveRangeOp start position]).

(** An operation pushed while the active start went from [s] to [s']
    over the segments [part]: the removal of an end tag that a begin tag of
    [part] names and that lies at or after [end_], or a flushed range
    between [s] and [s']. *)
Definition pushed (doc : MergeTree) (end_ s s' : Z) (part : MergeTree)
    (op : IMergeTreeOp) : Prop :=
  ∃ a b, op = RemoveRangeOp a b
         ∧ ((b = a + 1 ∧ end_ <= a ∧ a ∈ endPositions doc part)
            ∨ (s <= a ∧ a <= b ∧ b < s')).

(** ** Example documents *)

Definition beginMarkerOf (sid : SegId) (tags : list string) (id : string) : ISegment :=
  Marker sid (Z.lor ReferenceType.Tile ReferenceType.NestBegin)
    (mkProps (tileLabels tagsProperties) (rangeLabels tagsProperties)
       (Some ("begin-" +:+ id)) tags None None).

Definition endMarkerOf (sid : SegId) (id : string) : ISegment :=
  Marker sid (Z.lor ReferenceType.Tile ReferenceType.NestEnd)
    (mkProps (tileLabels tagsProperties) (rangeLabels tagsProperties)
       (Some ("end-" +:+ id)) [] None None).

Definition scenario2Begin : ISegment := beginMarkerOf 0 ["b"] "r1".
Definition scenario2End : ISegment := endMarkerOf 2 "r1".

(** Scenario 2: Begin (tag "b") at 0, "AB" at [1,3), End at 3. *)
Definition scenario2 : MergeTree :=
  [scenario2Begin; TextSegment 1 "AB" empty; scenario2End].

(** Begin at 0, "A" at 1, End at 2, "B" at 3. *)
Definition taggedThenText : MergeTree :=
  [scenario2Begin; TextSegment 1 "A" empty; scenario2End; TextSegment 3 "B" empty].

(** The text "ABCD" and nothing else. *)
Definition plainText : World :=
  mkWorld (mkStore [TextSegment 0 "ABCD" empty] 1) ∅ 0 0 [].

(** An id generator for the examples. *)
Definition exampleId (n : nat) : string :=
  String (ascii_of_nat (97 + n)) EmptyString.

(** A layout for the examples: the node of a segment is its identity, the
    node of the end of the document is 99, and offsets stay. *)
Definition exampleLayout (segment : option ISegment) (offset : Z) : nat * Z :=
  (from_option segId 99%nat segment, offset).

(** A caret from the last unit of the text of scenario 2 to the end of the
    document. *)
Definition exampleCaret : Caret :=
  mkCaret (mkRef (Some (TextSegment 1 "AB" empty)) 1 ReferenceType.SlideOnRemove true)
    (mkRef endOfTextSegment 0 ReferenceType.Simple false).

Definition noSelection : Presentation nat :=
  mkPresentation (mkSelection None 0 None 0) [].


(** A span whose first half carries class "x" and whose second half does
    not. *)
Definition halfStyled : World :=
  mkWorld
    (mkStore [TextSegment 0 "AB" (setClassList (Some "x") empty);
              TextSegment 1 "CD" empty] 2)
    ∅ 0 0 [].


(** "ABCD" with a reference created at position 1. *)
Definition withReference : World :=
  match addLocalRef 1 plainText with
  | Ok (_, w) => w
  | Throw _ => plainText
  end.

(** The same after the removal of [[0, 2)], which takes the unit of the
    reference away. *)
Definition afterRemoval : World :=
  match groupOperation [RemoveRangeOp 0 2] withReference with
  | Ok w => w
  | Throw _ => withReference
  end.

(** The reference of [afterRemoval], slid onto the text that is left. *)
Definition slidReference : LocalReference :=
  mkRef (Some (TextSegment 1 "CD" empty)) 0 ReferenceType.SlideOnRemove true.

(** The presentation layer after a first [sync] of the example caret. *)
Definition synced : Presentation nat :=
  mkPresentation (mkSelection (Some 1%nat) 1 (Some 2%nat) 0)
    [MapToNode (Some (TextSegment 1 "AB" empty)) 1;
     MapToNode (Some scenario2End) 0;
     SetBaseAndExtent 1%nat 1 2%nat 0].

(** Closes a decidable goal about the examples by evaluation. *)
Ltac by_computation :=
  match goal with |- ?P => apply (bool_decide_unpack P); vm_compute; exact I end.

(** * More of the document, the caret and the channel connection *)

(** ** Ranges that hold whole tag pairs *)

(** A visited segment that [remove] passes over: no tag; a begin tag
    whose end tag lies before [end_]; an end tag whose begin tag does not
    lie before [start] (the position of a missing begin tag is the
    length). *)
Definition closedTag (doc : MergeTree) (start end_ : Z) (s : ISegment) : Prop :=
  match getDocSegmentKind (Some s) with
  | Ok beginTags =>
      ∃ e q, getEnd doc s = Ok (Some e) ∧ positionOf doc (segId e) = Some q ∧ q < end_
  | Ok endTags =>
      ∃ startTag startPos,
        getStart doc s = Ok startTag ∧ getPosition doc startTag = Ok startPos
        ∧ start <= startPos
  | Ok _ => True
  | Throw _ => False
  end.

(** A position some operation of the list removes. *)
Definition covered (p : Z) (ops : list IMergeTreeOp) : Prop :=
  ∃ op, op ∈ ops ∧ pos1 op <= p < pos2 op.

(** A position that holds an end tag which [remove] steps over: the
    range up to it is flushed from the start [s] active there, the begin
    tag lying before [s]. *)
Definition steppedOver (doc : MergeTree) (p : Z) (ops : list IMergeTreeOp) : Prop :=
  ∃ l1 e l2 startTag startPos s,
    doc = l1 ++ e :: l2 ∧ getLength l1 = p
    ∧ getDocSegmentKind (Some e) = Ok endTags
    ∧ getStart doc e = Ok startTag ∧ getPosition doc startTag = Ok startPos
    ∧ startPos < s ∧ s <= p ∧ RemoveRangeOp s p ∈ ops.


(** ** Identities in use *)

(** Every segment of the store has an identity below the next one the
    store hands out. *)
Definition allocated (st : Store) : Prop :=
  Forall (fun s => (segId s < nextSegId st)%nat) (segments st).

(** ** FlowDocument.toString *)

(** [s.join("")]. *)
Definition joinStrings (s : list string) : string :=
  foldr (fun piece acc => piece +:+ acc) EmptyString s.

(** [(segment as TextSegment).text]. *)
Definition textOf (s : ISegment) : string :=
  match s with
  | TextSegment _ t _ => t
  | Marker _ _ _ => EmptyString
  end.

(** Modelled from the spec: the store's range traversal when the end is
    [+Infinity], as it is for [visitRange(callback)] with its default
    arguments: the overlap with a segment then ends where the segment
    ends. *)
Fixpoint mapRangeToInfinity {S : Type} (leaf : LeafAction S) (accum : S)
    (pos start : Z) (doc : MergeTree) : result S :=
  match doc with
  | [] => Ok accum
  | s :: rest =>
      let startOffset := Z.max 0 (start - pos) in
      let endOffset := cachedLength s in
      if startOffset <? endOffset then
        '(go, accum') ← leaf pos s startOffset endOffset accum;
        if go : bool
        then mapRangeToInfinity leaf accum' (pos + cachedLength s) start rest
        else Ok accum'
      else mapRangeToInfinity leaf accum (pos + cachedLength s) start rest
  end.

(** [visitRange(callback)]: [start = 0], [end = +Infinity], and
    [0 < +Infinity]. *)
Definition visitRangeDefault {S : Type} (callback : LeafAction S) (accum : S)
    (doc : MergeTree) : result S :=
  mapRangeToInfinity callback accum 0 0 doc.

(** The callback of [toString]; its state is the array [s]. *)
Definition toStringLeaf (doc : MergeTree) : LeafAction (list string) :=
  fun position segment _ _ s =>
    kind ← getDocSegmentKind (Some segment);
    match kind with
    | text => Ok (true, s ++ [textOf segment])
    | beginTags =>
        Ok (true, s ++ ((fun tag => "<" +:+ tag +:+ ">") <$> tags (properties segment)))
    | endTags =>
        startTag ← getStart doc segment;
        match startTag with
        | None => Throw TypeError
        | Some segment =>
            let tags := reverse (tags (properties segment)) in
            Ok (true, s ++ ((fun tag => "</" +:+ tag +:+ ">") <$> tags))
        end
    | _ => Ok (true, s ++ [kindLabel kind])
    end.

Definition toString (doc : MergeTree) : result string :=
  s ← visitRangeDefault (toStringLeaf doc) [] doc;
  Ok (joinStrings s).

(** What the callback of [toString] pushes for a segment. *)
Definition pieces (doc : MergeTree) (segment : ISegment) : result (list string) :=
  snd <$> toStringLeaf doc 0 segment 0 0 [].

(** The text of a sequence of segments. *)
Definition textContent (doc : MergeTree) : string :=
  joinStrings (textOf <$> doc).

Definition isText (s : ISegment) : Prop :=
  match s with TextSegment _ _ _ => True | Marker _ _ _ => False end.

(** The opening tags of a begin tag and the closing tags of its end tag. *)
Definition openTags (tagNames : list string) : string :=
  joinStrings ((fun tag => "<" +:+ tag +:+ ">") <$> tagNames).

Definition closeTags (tagNames : list string) : string :=
  joinStrings ((fun tag => "</" +:+ tag +:+ ">") <$> reverse tagNames).

(** ** Caret: the selection *)

Module CaretSelection.

(** Modelled from the spec: [clamp(min, value, max)], the value brought
    into the range from [min] to [max]. *)
Definition clamp (min value max : Z) : Z := Z.min (Z.max min value) max.

(** Modelled from the spec: [updateRef(doc, ref, position)], which
    releases the reference and creates one at the position. *)
Definition updateRef (ref : nat) (position : Z) (w : World) : result (nat * World) :=
  addLocalRef position (removeLocalRef ref w).

(** The caret, holding its two references by identity. *)
Record Caret : Type := mkCaret {
  startRef : nat;
  endRef : nat;
}.

(** A reference of the caret; the caret holds references it created. *)
Definition deref (w : World) (ref : nat) : result LocalReference :=
  match localRefs w !! ref with
  | Some r => Ok r
  | None => Throw TypeError
  end.

Definition position (caret : Caret) (w : World) : result Z :=
  r ← deref w (endRef caret);
  p ← localRefToPosition (mergeTree w) r;
  Ok (clamp 0 p (FlowDocument_length w)).

Definition anchor (caret : Caret) (w : World) : result Z :=
  r ← deref w (startRef caret);
  p ← localRefToPosition (mergeTree w) r;
  Ok (clamp 0 p (FlowDocument_length w)).

Definition selection (caret : Caret) (w : World) : result (Z * Z) :=
  start ← anchor caret w;
  end_ ← position caret w;
  Ok (if decide (start < end_) then (start, end_) else (end_, start)).

Definition setSelection (start end_ : Z) (caret : Caret) (w : World)
  : result (Caret * World) :=
  '(startRef, w) ← updateRef (startRef caret) start w;
  '(endRef, w) ← updateRef (endRef caret) end_ w;
  Ok (mkCaret startRef endRef, w).

Definition collapseForward (caret : Caret) (w : World) : result (Caret * World) :=
  '(_, end_) ← selection caret w;
  setSelection end_ end_ caret w.

End CaretSelection.

(** A caret on "ABCD" after [setSelection(3, 1)]. *)
Definition selected : CaretSelection.Caret * World :=
  match CaretSelection.setSelection 3 1 (CaretSelection.mkCaret 0 0) plainText with
  | Ok state => state
  | Throw _ => (CaretSelection.mkCaret 0 0, plainText)
  end.

(** ** Caret: from the presentation layer back to positions *)

Section CaretReverse.
  (** Modelled from the spec: the layout finds the segment a node was
      rendered for ([layout.nodeToSegment]); [isBr node] says that the
      node is an element whose tag name is [Tag.br]. *)
Context {Node : Type}.
Variable nodeToSegment : Node → option ISegment.
Variable isBr : Node → bool.

Definition nodeOffsetToPosition (doc : MergeTree) (node : Node) (nodeOffset : Z)
    : result Z :=
    let segment := nodeToSegment node in
    kind ← getDocSegmentKind segment;
    segmentPosition ← getPosition doc segment;
    let position := segmentPosition + nodeOffset in
    Ok (if decide (kind = text ∨ kind = endOfText ∨ isBr node = true)
        then position
        else position + 1).
End CaretReverse.

(** A layout for the examples whose nodes are the segments themselves. *)
Definition segmentLayout (segment : option ISegment) (offset : Z)
  : option ISegment * Z := (segment, offset).

(** A reference on the end tag of scenario 2, at position 3. *)
Definition endTagReference : LocalReference :=
  mkRef (Some scenario2End) 0 ReferenceType.SlideOnRemove true.

Definition nothingSelected : Presentation (option ISegment) :=
  mkPresentation (mkSelection None 0 None 0) [].

(** ** The class lists of a range *)

(** The properties each unit of the document carries, unit by unit. *)
Definition unitProperties (doc : MergeTree) : list PropertySet :=
  doc ≫= fun s => replicate (Z.to_nat (cachedLength s)) (properties s).

(** The units from [start] up to [end], each with the class list [f]
    makes of the one it has. *)
Definition restyle (f : option string → option string) (start end_ : Z)
    (units : list PropertySet) : list PropertySet :=
  imap (fun i props =>
          if decide (start <= Z.of_nat i < end_)
          then setClassList (f (classList props)) props
          else props) units.

(** The units of a range take a class list; the others keep theirs. *)
Definition paint (a b : Z) (cl : option string) (units : list PropertySet)
  : list PropertySet :=
  imap (fun i props => if decide (a <= Z.of_nat i < b) then setClassList cl props else props)
    units.

(** Whether a visit covers a unit. *)
Definition covers (v : Z * ISegment * Z * Z) (x : Z) : Prop :=
  v.1.1.1 + v.1.2 <= x < v.1.1.1 + v.2.

(** * ChannelDeltaConnection *)

Module ChannelDeltaConnection.
Section connection.
  (** Messages, op contents, metadata, the values of stashed ops and the
      values thrown are whatever they are.  [assertionError code] is what
      [assert(false, code)] throws, [rollbackError] is
      [new Error("Handler doesn't support rollback")], and
      [wrapIfUnrecognized] is [DataProcessingError.wrapIfUnrecognized]. *)
Context {Message Content Metadata Stashed Thrown : Type}.
Variable assertionError : Z → Thrown.
Variable rollbackError : Thrown.
Variable wrapIfUnrecognized : Thrown → string → Message → Thrown.

  (** The calls an [IDeltaHandler] takes. *)
Inductive HandlerCall : Type :=
    | HandlerSetConnectionState (connected : bool)
    | HandlerProcess (message : Message) (local : bool) (localOpMetadata : Metadata)
    | HandlerReSubmit (content : Content) (localOpMetadata : Metadata)
    | HandlerRollback (content : Content) (localOpMetadata : Metadata)
    | HandlerApplyStashedOp (content : Content).

  (** How a call ends: it returns (with a value, for [applyStashedOp]) or
      it throws. *)
Inductive Completion : Type :=
    | Returns (value : option Stashed)
    | Throws (error : Thrown).

  (** An [IDeltaHandler]: how each call ends, given the calls it took
      before, and whether it has the optional [rollback]. *)
Record IDeltaHandler : Type := mkHandler {
    respond : list HandlerCall → HandlerCall → Completion;
    hasRollback : bool;
  }.

  (** The connection: its private fields, and the calls its handler has
      taken so far. *)
Record Connection : Type := mkConnection {
    _handler : option IDeltaHandler;
    _connected : bool;
    taken : list HandlerCall;
  }.

  (** [new ChannelDeltaConnection(connected, ...)]. *)
Definition create (connected : bool) : Connection := mkConnection None connected [].

  (** The getter [handler]. *)
Definition handler (c : Connection) : Thrown + IDeltaHandler :=
    match _handler c with
    | Some h => inr h
    | None => inl (assertionError 0x177)
    end.

Definition connected (c : Connection) : bool := _connected c.

  (** A call of a method of the handler. *)
Definition invoke (h : IDeltaHandler) (call : HandlerCall) (c : Connection)
    : Connection * Completion :=
    (mkConnection (_handler c) (_connected c) (taken c ++ [call]),
     respond h (taken c) call).

  (** A call whose value is dropped. *)
Definition discard (r : Connection * Completion) : Connection * Completion :=
    match r with
    | (c, Returns _) => (c, Returns None)
    | (c, Throws e) => (c, Throws e)
    end.

Definition attach (h : IDeltaHandler) (c : Connection) : Connection * Completion :=
    match _handler c with
    | None => (mkConnection (Some h) (_connected c) (taken c), Returns None)
    | Some _ => (c, Throws (assertionError 0x178))
    end.

Definition setConnectionState (connected : bool) (c : Connection)
    : Connection * Completion :=
    let c := mkConnection (_handler c) connected (taken c) in
    match handler c with
    | inl e => (c, Throws e)
    | inr h => discard (invoke h (HandlerSetConnectionState connected) c)
    end.

Definition process (message : Message) (local : bool) (localOpMetadata : Metadata)
      (c : Connection) : Connection * Completion :=
    let wrap error :=
      Throws (wrapIfUnrecognized error "channelDeltaConnectionFailedToProcessMessage"
                message) in
    match handler c with
    | inl e => (c, wrap e)
    | inr h =>
        match invoke h (HandlerProcess message local localOpMetadata) c with
        | (c, Returns _) => (c, Returns None)
        | (c, Throws e) => (c, wrap e)
        end
    end.

Definition reSubmit (content : Content) (localOpMetadata : Metadata) (c : Connection)
    : Connection * Completion :=
    match handler c with
    | inl e => (c, Throws e)
    | inr h => discard (invoke h (HandlerReSubmit content localOpMetadata) c)
    end.

Definition rollback (content : Content) (localOpMetadata : Metadata) (c : Connection)
    : Connection * Completion :=
    match handler c with
    | inl e => (c, Throws e)
    | inr h =>
        if hasRollback h
        then discard (invoke h (HandlerRollback content localOpMetadata) c)
        else (c, Throws rollbackError)
    end.

Definition applyStashedOp (content : Content) (c : Connection)
    : Connection * Completion :=
    match handler c with
    | inl e => (c, Throws e)
    | inr h => invoke h (HandlerApplyStashedOp content) c
    end.

  (** ** Uses of a connection *)

Inductive Call : Type :=
    | Attach (h : IDeltaHandler)
    | SetConnectionState (connected : bool)
    | Process (message : Message) (local : bool) (localOpMetadata : Metadata)
    | ReSubmit (content : Content) (localOpMetadata : Metadata)
    | Rollback (content : Content) (localOpMetadata : Metadata)
    | ApplyStashedOp (content : Content).

Definition call (what : Call) (c : Connection) : Connection * Completion :=
    match what with
    | Attach h => attach h c
    | SetConnectionState connected => setConnectionState connected c
    | Process message local localOpMetadata => process message local localOpMetadata c
    | ReSubmit content localOpMetadata => reSubmit content localOpMetadata c
    | Rollback content localOpMetadata => rollback content localOpMetadata c
    | ApplyStashedOp content => applyStashedOp content c
    end.

  (** Calls one after the other, each caller catching what its call
      throws; the connection at the end, and how each call ended. *)
Fixpoint callAll (calls : list Call) (c : Connection) : Connection * list Completion :=
    match calls with
    | [] => (c, [])
    | what :: rest =>
        let '(c, r) := call what c in
        let '(c, rs) := callAll rest c in
        (c, r :: rs)
    end.

  (** The call of the handler a use of the connection comes to, if any. *)
Definition forwarded (h : IDeltaHandler) (what : Call) : option HandlerCall :=
    match what with
    | Attach _ => None
    | SetConnectionState connected => Some (HandlerSetConnectionState connected)
    | Process message local localOpMetadata =>
        Some (HandlerProcess message local localOpMetadata)
    | ReSubmit content localOpMetadata => Some (HandlerReSubmit content localOpMetadata)
    | Rollback content localOpMetadata =>
        if hasRollback h then Some (HandlerRollback content localOpMetadata) else None
    | ApplyStashedOp content => Some (HandlerApplyStashedOp content)
    end.

  (** The connection states asked for. *)
Definition requested (what : Call) : option bool :=
    match what with
    | SetConnectionState connected => Some connected
    | _ => None
    end.

  (** What a call throws while no handler is attached. *)
Definition unattached (what : Call) : Completion :=
    match what with
    | Process message _ _ =>
        Throws (wrapIfUnrecognized (assertionError 0x177)
                  "channelDeltaConnectionFailedToProcessMessage" message)
    | _ => Throws (assertionError 0x177)
    end.

Definition isAttach (what : Call) : Prop :=
    match what with Attach _ => True | _ => False end.
End connection.
End ChannelDeltaConnection.

(** A handler for the examples: it takes every call and returns, and has
    no [rollback]. *)
Definition quietHandler : @ChannelDeltaConnection.IDeltaHandler string string unit string string :=
  ChannelDeltaConnection.mkHandler (fun _ _ => ChannelDeltaConnection.Returns None) false.

Definition attachedConnection
  : @ChannelDeltaConnection.Connection string string unit string string :=
  ChannelDeltaConnection.mkConnection (Some quietHandler) false [].

(** What is thrown, in the examples. *)
Definition exampleAssertion (code : Z) : string :=
  if decide (code = 0x177) then "0x177" else "0x178".

Definition exampleWrap (error code message : string) : string :=
  code +:+ ": " +:+ error.

(** Some calls of a connection, none of them [attach]. *)
Definition exampleCalls
  : list (@ChannelDeltaConnection.Call string string unit string string) :=
  [ChannelDeltaConnection.SetConnectionState true;
   ChannelDeltaConnection.Process "m" false tt;
   ChannelDeltaConnection.Rollback "op" tt;
   ChannelDeltaConnection.ApplyStashedOp "op"].

(** * Lock-file handlers *)

Module PackageLock.

Definition newline : string := String (ascii_of_nat 10) EmptyString.

(** [array.some(callback)], for a callback that works on state of its
    own: it stops at the first element the callback accepts. *)
Fixpoint some {A S : Type} (callback : A → S → bool * S) (array : list A) (state : S)
  : bool * S :=
  match array with
  | [] => (false, state)
  | value :: rest =>
      let '(found, state) := callback value state in
      if found : bool then (true, state) else some callback rest state
  end.

(** [array.join(separator)]. *)
Definition join (separator : string) (array : list string) : string :=
  match array with
  | [] => EmptyString
  | first :: rest => foldl (fun joined next => joined +:+ separator +:+ next) first rest
  end.

Definition registry : string := "https://registry.npmjs.org".

Section handlers.
  (** [readFile] of the common helpers, and what [content.match(...)]
      finds for each of the two patterns: [null], or the matches. *)
Variable readFile : string → string.
Variable matchUrlPattern : string → option (list string).
Variable matchVersionPattern : string → option (list string).

(** The handler of [package-lockfiles-no-private-url]: a message, or
    [undefined]. *)
Definition noPrivateUrl (file : string) : option string :=
    let content := readFile file in
    match matchUrlPattern content with
    | Some matches =>
        let '(containsBadUrl, results) :=
          some (fun value results =>
                  if String.prefix registry value then (false, results)
                  else (true, results ++ [value]))
               matches [] in
        if containsBadUrl : bool
        then Some ("A private registry URL is in lock file: " +:+ file +:+ ":"
                   +:+ newline +:+ join newline results)
        else None
    | None => None
    end.

(** The handler of [package-lockfiles-npm-version]. *)
Definition npmVersion (file : string) : option string :=
    let content := readFile file in
    match matchVersionPattern content with
    | None =>
        Some ("Unexpected 'lockFileVersion' (Please use NPM v6: 'npm i -g npm@latest-6'): "
              +:+ file)
    | Some _ => None
    end.
End handlers.
End PackageLock.

(** Two tag pairs that overlap without nesting: Begin "a" at 0, "x" at 1,
    Begin "b" at 2, End "a" at 3, End "b" at 4, "y" at 5. *)
Definition overlappingTags : MergeTree :=
  [beginMarkerOf 0 ["b"] "a"; TextSegment 1 "x" empty; beginMarkerOf 2 ["i"] "b";
   endMarkerOf 3 "a"; endMarkerOf 4 "b"; TextSegment 5 "y" empty].

(** * Tag pairs *)

(** The positions of a begin tag and of the end tag it names. *)
Definition pairOf (doc : MergeTree) (b : ISegment) : option (Z * Z) :=
  match getDocSegmentKind (Some b), getEnd doc b with
  | Ok beginTags, Ok (Some e) =>
      pb ← positionOf doc (segId b); pe ← positionOf doc (segId e); Some (pb, pe)
  | _, _ => None
  end.

Definition pairs (doc : MergeTree) : list (Z * Z) := omap (pairOf doc) doc.

(** Every tag has its partner: a begin tag names an end tag that comes
    after it and names it back, an end tag names a begin tag that names it
    back; segments are compared by identity. *)
Definition pairedSegment (doc : MergeTree) (s : ISegment) : bool :=
  match getDocSegmentKind (Some s) with
  | Ok beginTags =>
      match getEnd doc s with
      | Ok (Some e) =>
          bool_decide (getDocSegmentKind (Some e) = Ok endTags)
          && match getStart doc e with
             | Ok (Some b) => bool_decide (segId b = segId s)
             | _ => false
             end
          && match positionOf doc (segId s), positionOf doc (segId e) with
             | Some pb, Some pe => pb <? pe
             | _, _ => false
             end
      | _ => false
      end
  | Ok endTags =>
      match getStart doc s with
      | Ok (Some b) =>
          bool_decide (getDocSegmentKind (Some b) = Ok beginTags)
          && match getEnd doc b with
             | Ok (Some e) => bool_decide (segId e = segId s)
             | _ => false
             end
      | _ => false
      end
  | Ok _ => true
  | Throw _ => false
  end.

Definition wellPaired (doc : MergeTree) : Prop :=
  Forall (fun s => pairedSegment doc s = true) doc.

(** Two pairs that overlap without one lying inside the other. *)
Definition crossing (x y : Z * Z) : Prop := x.1 < y.1 ∧ y.1 < x.2 ∧ x.2 < y.2.

#[global] Instance crossing_dec x y : Decision (crossing x y).
Proof. unfold crossing. apply _. Defined.

Definition nested (doc : MergeTree) : Prop :=
  Forall (fun x => Forall (fun y => ¬ crossing x y) (pairs doc)) (pairs doc).

(** An end tag of the range whose begin tag lies before the range. *)
Definition kept (doc : MergeTree) (start end_ p : Z) : Prop :=
  start <= p < end_ ∧ ∃ pb, (pb, p) ∈ pairs doc ∧ pb < start.

(** Begin "a" at 0, "x" at 1, Begin "b" at 2, "y" at 3, End "b" at 4,
    End "a" at 5, "z" at 6: the pair "b" inside the pair "a". *)
Definition nestedTags : MergeTree :=
  [beginMarkerOf 0 ["b"] "a"; TextSegment 1 "x" empty; beginMarkerOf 2 ["i"] "b";
   TextSegment 3 "y" empty; endMarkerOf 4 "b"; endMarkerOf 5 "a";
   TextSegment 6 "z" empty].

(** What holds of the active start [s] and of the operations pushed when
    the scan of [remove] has gone through [prefix]: where [s] can be, what
    is removed so far, what is not, and which end tags beyond the range
    are taken along. *)
Definition scanState (doc : MergeTree) (start end_ : Z) (prefix : MergeTree)
    (s : Z) (ops : list IMergeTreeOp) : Prop :=
  (start <= s ∧ s <= Z.max start (getLength prefix) ∧ s <= end_)
  ∧ (s = start ∨ ∃ pb, (pb, s - 1) ∈ pairs doc ∧ pb < start)
  ∧ (∀ p, start <= p < s → covered p ops ∨ kept doc start end_ p)
  ∧ (∀ p, kept doc start end_ p → ¬ covered p ops)
  ∧ (∀ p, kept doc start end_ p → p < getLength prefix → p < s)
  ∧ (∀ pb q, (pb, q) ∈ pairs doc → start <= pb < end_ → pb < getLength prefix →
             end_ <= q → covered q ops)
  ∧ (∀ p, covered p ops →
          start <= p < s
          ∨ (end_ <= p ∧ ∃ pb, (pb, p) ∈ pairs doc ∧ start <= pb < end_)).
(** ** Positions and segments *)

Lemma cachedLength_nonneg s : 0 <= cachedLength s.
Proof. destruct s; simpl; lia. Qed.

Lemma getLength_nonneg doc : 0 <= getLength doc.
Proof.
  induction doc as [|s doc IH]; simpl; [lia|].
  pose proof (cachedLength_nonneg s). lia.
Qed.

Lemma getLength_app l1 l2 : getLength (l1 ++ l2) = getLength l1 + getLength l2.
Proof. induction l1 as [|s l1 IH]; simpl; lia. Qed.

(** A position inside the sequence has an owner, found with the offset
    that leads back to the position. *)
Lemma getContainingSegment_spec doc p :
  distinctSegments doc → 0 <= p < getLength doc →
  ∃ s off, getContainingSegment doc p = Ok (s, off)
           ∧ s ∈ doc
           ∧ 0 <= off < cachedLength s
           ∧ positionOf doc (segId s) = Some (p - off).
Proof.
  unfold distinctSegments.
  revert p. induction doc as [|s doc IH]; intros p Hnd Hp; simpl in *; [lia|].
  apply NoDup_cons in Hnd as [Hnotin Hnd].
  destruct (Z.ltb_spec p 0) as [?|_]; [lia|].
  destruct (Z.ltb_spec p (cachedLength s)) as [Hlt|Hge].
  - exists s, p. split_and!; [done|left|lia|lia|].
    rewrite decide_True by done. f_equal. lia.
  - destruct (IH (p - cachedLength s) Hnd) as (s' & off & Hc & Hin & Hoff & Hpos); [lia|].
    exists s', off. split_and!; [done|by right|lia|lia|].
    rewrite decide_False.
    + rewrite Hpos. simpl. f_equal. lia.
    + intros Heq. apply Hnotin. rewrite Heq. by apply list_elem_of_fmap_2.
Qed.

(** C4, as the code has it: the segment alone leads back to where the
    segment starts, so the offset has to be added to come back to the
    position; the end of the document goes through the sentinel. *)
Theorem getPosition_getSegmentAndOffset doc p :
  distinctSegments doc → 0 <= p <= getLength doc →
  ∃ segment offset,
    getSegmentAndOffset doc p = Ok (segment, offset)
    ∧ (fun start => start + offset) <$> getPosition doc segment = Ok p
    ∧ (p = getLength doc → segment = endOfTextSegment ∧ offset = 0).
Proof.
  intros Hnd Hp. unfold getSegmentAndOffset.
  destruct (decide (p = getLength doc)) as [->|Hne].
  - exists endOfTextSegment, 0. split_and!; [done| |done].
    simpl. f_equal. lia.
  - destruct (getContainingSegment_spec doc p Hnd) as (s & off & Hc & _ & _ & Hpos); [lia|].
    exists (Some s), off. rewrite Hc. split_and!; [done| |done].
    simpl. unfold mergeTree_getPosition. rewrite Hpos. simpl. f_equal. lia.
Qed.

Example remove_scenario2 :
  remove 0 2 scenario2 = Ok [GroupOperation [RemoveRangeOp 3 4; RemoveRangeOp 0 2]].
Proof. vm_compute. reflexivity. Qed.

Example remove_scenario2_applied :
  applyGroup (mkStore scenario2 3%nat) [RemoveRangeOp 3 4; RemoveRangeOp 0 2]
  = Ok (mkStore [TextSegment 4%nat "B" empty] 5%nat).
Proof. vm_compute. reflexivity. Qed.

Example remove_keeps_end :
  remove 1 4 taggedThenText
  = Ok [GroupOperation [RemoveRangeOp 3 4; RemoveRangeOp 1 2]].
Proof. vm_compute. reflexivity. Qed.

(** ** Pairwise properties of lists *)

Section pairwise.
Context {A : Type} (R : A → A → Prop).

Lemma ForallOrdPairs_snoc l x :
    ForallOrdPairs R l → Forall (fun y => R y x) l → ForallOrdPairs R (l ++ [x]).
  Proof.
    induction 1 as [|a l Ha Hl IH]; intros Hx; simpl.
    - constructor; constructor.
    - apply Forall_cons in Hx as [Hax Hx]. constructor; [|by apply IH].
      apply Forall_app. split; [done|]. by constructor.
  Qed.

Lemma ForallOrdPairs_app l1 l2 :
    ForallOrdPairs R l1 → ForallOrdPairs R l2 →
    Forall (fun x => Forall (R x) l2) l1 → ForallOrdPairs R (l1 ++ l2).
  Proof.
    induction 1 as [|a l Ha Hl IH]; intros H2 H12; simpl; [done|].
    apply Forall_cons in H12 as [Ha2 H12]. constructor; [|by apply IH].
    apply Forall_app. by split.
  Qed.

Lemma ForallOrdPairs_Permutation l l' :
    Symmetric R → l ≡ₚ l' → ForallOrdPairs R l → ForallOrdPairs R l'.
  Proof.
    intros Hsym Hp. induction Hp as [|x l l' Hp IH|x y l|l l' l'' _ IH1 _ IH2].
    - done.
    - inversion_clear 1 as [|? ? Hx Hl]. constructor; [by rewrite <- Hp|by apply IH].
    - inversion_clear 1 as [|? ? Hy Hl]. inversion_clear Hl as [|? ? Hx Hl'].
      apply Forall_cons in Hy as [Hyx Hy].
      constructor; [constructor; [by apply Hsym|done]|by constructor].
    - intros. by apply IH2, IH1.
  Qed.

Lemma ForallOrdPairs_weaken (Q : A → A → Prop) l :
    (∀ x y, R x y → Q x y) → ForallOrdPairs R l → ForallOrdPairs Q l.
  Proof.
    intros HRQ. induction 1 as [|a l Ha Hl IH]; constructor; [|done].
    eapply Forall_impl; [exact Ha|]. intros y Hy. simpl. by apply HRQ.
  Qed.

Lemma ForallOrdPairs_and (Q : A → A → Prop) l :
    ForallOrdPairs R l → ForallOrdPairs Q l →
    ForallOrdPairs (fun x y => R x y ∧ Q x y) l.
  Proof.
    induction 1 as [|a l Ha Hl IH]; inversion_clear 1 as [|? ? Hq Hql];
      constructor; [|by apply IH].
    rewrite Forall_forall in *. intros y Hy. split; [by apply Ha|by apply Hq].
  Qed.
End pairwise.

Lemma StronglySorted_ForallOrdPairs {A} (R : A → A → Prop) l :
  StronglySorted R l ↔ ForallOrdPairs R l.
Proof.
  split; induction 1; constructor; auto.
Qed.

#[global] Instance separated_sym : Symmetric separated.
Proof. intros x y [H|H]; [by right|by left]. Qed.

#[global] Instance descending_total : Total descending.
Proof. intros x y. unfold descending. lia. Qed.

#[global] Instance descending_trans : Transitive descending.
Proof. intros x y z. unfold descending. lia. Qed.

Lemma separated_rangesDisjoint x y : separated x y → rangesDisjoint x y.
Proof. unfold separated, before, rangesDisjoint. intros H p. lia. Qed.

(** In a list sorted by descending start, separated ranges follow each
    other downwards. *)
Lemma sorted_separated_before ops :
  StronglySorted descending ops → ForallOrdPairs separated ops →
  ForallOrdPairs (fun x y => before y x) ops.
Proof.
  intros Hs Hsep. apply StronglySorted_ForallOrdPairs in Hs.
  eapply ForallOrdPairs_weaken; [|exact (ForallOrdPairs_and _ _ _ Hs Hsep)].
  unfold descending, separated, before. simpl. intros x y. lia.
Qed.

(** ** Kinds of segments *)

Lemma kind_beginTags_marker s :
  getDocSegmentKind (Some s) = Ok beginTags → cachedLength s = 1.
Proof. destruct s; simpl; [discriminate|done]. Qed.

Lemma kind_endTags_marker s :
  getDocSegmentKind (Some s) = Ok endTags → cachedLength s = 1.
Proof. destruct s; simpl; [discriminate|done]. Qed.

Lemma idToSegment_Some doc id e :
  idToSegment doc id = Some e →
  e ∈ doc ∧ getId e = Some id ∧ cachedLength e = 1.
Proof.
  induction doc as [|s doc IH]; simpl; [discriminate|].
  destruct s as [sid t props|sid rt props].
  - intros H. destruct (IH H) as (? & ? & ?). split_and!; [by right|done|done].
  - case_decide as Hid.
    + intros [= <-]. split_and!; [left|done|done].
    + intros H. destruct (IH H) as (? & ? & ?). split_and!; [by right|done|done].
Qed.

Lemma positionOf_elem_of doc s :
  s ∈ doc → ∃ q, positionOf doc (segId s) = Some q.
Proof.
  induction doc as [|x doc IH]; [by intros ?%elem_of_nil|].
  intros Hin. simpl. case_decide; [by eexists|].
  apply elem_of_cons in Hin as [->|Hin]; [done|].
  destruct (IH Hin) as [q ->]. by eexists.
Qed.

(** The segment found at a position is the first one with the identity. *)
Lemma positionOf_Some doc sid q :
  positionOf doc sid = Some q →
  ∃ l1 s l2, doc = l1 ++ s :: l2 ∧ segId s = sid ∧ getLength l1 = q
             ∧ sid ∉ segId <$> l1.
Proof.
  revert q. induction doc as [|x doc IH]; intros q; simpl; [discriminate|].
  case_decide as Hx.
  - intros [= <-]. exists [], x, doc. split_and!; [done|done|done|].
    by intros ?%elem_of_nil.
  - destruct (positionOf doc sid) as [q'|] eqn:Hq; [|discriminate].
    intros [= <-]. destruct (IH q' eq_refl) as (l1 & s & l2 & -> & Hs & Hl & Hn).
    exists (x :: l1), s, l2. split_and!; [done|done|simpl; lia|].
    rewrite fmap_cons. intros [?|?]%elem_of_cons; [congruence|done].
Qed.

Lemma positionOf_bounds doc s q :
  distinctSegments doc → s ∈ doc → positionOf doc (segId s) = Some q →
  0 <= q ∧ q + cachedLength s <= getLength doc.
Proof.
  intros Hnd Hin Hq.
  destruct (positionOf_Some _ _ _ Hq) as (l1 & s' & l2 & -> & Hs & Hl & Hn).
  assert (s = s') as <-.
  { unfold distinctSegments in Hnd. rewrite fmap_app, fmap_cons in Hnd.
    apply NoDup_app in Hnd as (_ & Hdisj & Hnd2).
    apply NoDup_cons in Hnd2 as [Hn2 _].
    apply elem_of_app in Hin as [Hin|Hin].
    - exfalso. apply Hn. by apply list_elem_of_fmap_2.
    - apply elem_of_cons in Hin as [->|Hin]; [done|].
      exfalso. apply Hn2. rewrite Hs. by apply list_elem_of_fmap_2. }
  rewrite getLength_app. simpl.
  pose proof (getLength_nonneg l1). pose proof (getLength_nonneg l2).
  pose proof (cachedLength_nonneg s). lia.
Qed.

(** ** The scan of [remove] *)

Lemma bind_Ok {A B} (m : result A) (f : A → result B) b :
  m ≫= f = Ok b → ∃ a, m = Ok a ∧ f a = Ok b.
Proof. destruct m as [a|e]; simpl; [by exists a|discriminate]. Qed.

Lemma removeLeaf_spec doc end_ position segment so eo start ops go start' ops' :
  removeLeaf doc end_ position segment so eo (start, ops) = Ok (go, (start', ops')) →
  go = true ∧ removeStep doc end_ position segment start ops start' ops'.
Proof.
  unfold removeLeaf. intros H.
  apply bind_Ok in H as (kind & Hkind & H).
  destruct kind; try (injection H as <- <- <-; split; [done|constructor]).
  - apply bind_Ok in H as (endTag & HendTag & H).
    apply bind_Ok in H as (endPos & HendPos & H).
    destruct (Z.ltb_spec endPos end_) as [Hlt|Hge]; simpl in H.
    + injection H as <- <- <-. split; [done|constructor].
    + destruct endTag as [e|]; [|discriminate].
      injection H as <- <- <-. split; [done|].
      eapply step_lone; [done|done| |done].
      simpl in HendPos. unfold mergeTree_getPosition in HendPos.
      destruct (positionOf doc (segId e)); [congruence|discriminate].
  - apply bind_Ok in H as (startTag & HstartTag & H).
    apply bind_Ok in H as (startPos & HstartPos & H).
    destruct (Z.leb_spec start startPos) as [Hle|Hgt]; simpl in H.
    + injection H as <- <- <-. split; [done|constructor].
    + injection H as <- <- <-. split; [done|].
      by eapply step_flush.
Qed.

Lemma pushed_weaken doc end_ s0 s s' x part op :
  s0 <= s → pushed doc end_ s s' part op → pushed doc end_ s0 s' (x :: part) op.
Proof.
  intros Hs (a & b & -> & [(? & ? & Hin)|?]); exists a, b; split; [done| |done|].
  - left. split_and!; [done|done|]. unfold endPositions in *. simpl.
    destruct (endPositionOf doc x); [by right|done].
  - right. lia.
Qed.

Lemma scan_spec doc start end_ rest :
  ∀ prefix s ops st',
    s <= Z.max start (getLength prefix) → s <= end_ →
    mapRange (removeLeaf doc end_) (s, ops) (getLength prefix) start end_ rest = Ok st' →
    ∃ s' new,
      st' = (s', ops ++ new)
      ∧ s <= s' ∧ s' <= end_
      ∧ s' <= Z.max start (getLength (prefix ++ rest))
      ∧ Forall (pushed doc end_ s s' rest) new
      ∧ (NoDup (endPositions doc rest) → ForallOrdPairs separated new).
Proof.
  induction rest as [|x rest IH]; intros prefix s ops st' Hs Hse Hscan.
  - simpl in Hscan. injection Hscan as <-. exists s, [].
    rewrite !app_nil_r. split_and!; [done|lia|lia|lia|constructor|constructor].
  - simpl in Hscan.
    assert (NoDup (endPositions doc (x :: rest)) → NoDup (endPositions doc rest))
      as Hnd'.
    { unfold endPositions. simpl.
      destruct (endPositionOf doc x); [by intros [_ ?]%NoDup_cons|done]. }
    assert (getLength (prefix ++ [x]) = getLength prefix + cachedLength x) as Hlen.
    { rewrite getLength_app. simpl. lia. }
    pose proof (cachedLength_nonneg x) as Hx0.
    replace (prefix ++ x :: rest) with ((prefix ++ [x]) ++ rest)
      by (by rewrite <- app_assoc).
    destruct (Z.ltb_spec (Z.max 0 (start - getLength prefix))
                (Z.min (cachedLength x) (end_ - getLength prefix))) as [Hvis|Hnot].
    + apply bind_Ok in Hscan as ([go [s1 ops1]] & Hleaf & Hscan).
      apply (removeLeaf_spec _ _ _ _ 0 0) in Hleaf as [-> Hstep].
      rewrite <- Hlen in Hscan.
      inversion Hstep as [Hs1 Hops1|e q Hk He Hq Hqe Hs1 Hops1
                          |startTag startPos Hk Hst Hsp Hlt Hs1 Hops1]; subst s1 ops1.
      * destruct (IH (prefix ++ [x]) s ops st') as (s' & new & -> & ? & ? & ? & Hp & Hsep);
          [lia|done|done|].
        exists s', new. split_and!; [done|done|done|done| |by auto].
        eapply Forall_impl; [exact Hp|]. intros op. by apply pushed_weaken.
      * destruct (IH (prefix ++ [x]) s (ops ++ [RemoveRangeOp q (q + 1)]) st')
          as (s' & new & -> & ? & ? & ? & Hp & Hsep); [lia|done|done|].
        assert (endPositionOf doc x = Some q) as Hepo.
        { unfold endPositionOf. by rewrite Hk, He. }
        exists s', (RemoveRangeOp q (q + 1) :: new).
        split_and!; [by rewrite <- app_assoc|done|done|done| |].
        -- constructor.
           ++ exists q, (q + 1). split; [done|]. left. split_and!; [done|done|].
              unfold endPositions. simpl. rewrite Hepo. left.
           ++ eapply Forall_impl; [exact Hp|]. intros op. by apply pushed_weaken.
        -- intros Hnd.
           assert (q ∉ endPositions doc rest) as Hqn.
           { unfold endPositions in Hnd. simpl in Hnd. rewrite Hepo in Hnd.
             by apply NoDup_cons in Hnd as [? _]. }
           constructor; [|by auto].
           eapply Forall_impl; [exact Hp|]. intros op (a & b & -> & Hcase).
           unfold separated, before. simpl.
           destruct Hcase as [(-> & ? & Hin)|?]; [|lia].
           assert (a ≠ q) by (intros ->; done). lia.
      * pose proof (kind_endTags_marker _ Hk) as Hx1.
        destruct (IH (prefix ++ [x]) (getLength prefix + 1)
                    (ops ++ [RemoveRangeOp s (getLength prefix)]) st')
          as (s' & new & -> & ? & ? & ? & Hp & Hsep); [lia|lia|done|].
        exists s', (RemoveRangeOp s (getLength prefix) :: new).
        split_and!; [by rewrite <- app_assoc|lia|done|done| |].
        -- constructor.
           ++ exists s, (getLength prefix). split; [done|]. right. lia.
           ++ eapply Forall_impl; [exact Hp|]. intros op. apply pushed_weaken. lia.
        -- intros Hnd. constructor; [|by auto].
           eapply Forall_impl; [exact Hp|]. intros op (a & b & -> & Hcase).
           unfold separated, before. simpl. lia.
    + rewrite <- Hlen in Hscan.
      destruct (IH (prefix ++ [x]) s ops st') as (s' & new & -> & ? & ? & ? & Hp & Hsep);
        [lia|done|done|].
      exists s', new. split_and!; [done|done|done|done| |by auto].
      eapply Forall_impl; [exact Hp|]. intros op. by apply pushed_weaken.
Qed.

Lemma getPosition_idToSegment doc id :
  ∃ q, getPosition doc (idToSegment doc id) = Ok q.
Proof.
  destruct (idToSegment doc id) as [e|] eqn:He; simpl; [|by eexists].
  apply idToSegment_Some in He as (Hin & _ & _).
  destruct (positionOf_elem_of _ _ Hin) as [q Hq].
  exists q. unfold mergeTree_getPosition. by rewrite Hq.
Qed.

Lemma getOppositeMarker_position doc marker n newPrefix m :
  getOppositeMarker doc marker n newPrefix = Ok m →
  ∃ q, getPosition doc m = Ok q.
Proof.
  unfold getOppositeMarker. destruct (getId marker); [|discriminate].
  intros [= <-]. apply getPosition_idToSegment.
Qed.

Lemma removeLeaf_total doc end_ position s so eo st :
  wellTaggedSegment doc s = true →
  ∃ st', removeLeaf doc end_ position s so eo st = Ok (true, st').
Proof.
  unfold wellTaggedSegment, removeLeaf. destruct st as [start ops].
  destruct (getDocSegmentKind (Some s)) as [kind|]; [|discriminate].
  destruct kind; simpl; try by eexists.
  - destruct (getEnd doc s) as [[e|]|] eqn:He; try discriminate. intros _. simpl.
    destruct (getOppositeMarker_position _ _ _ _ _ He) as [q Hq].
    simpl in Hq. rewrite Hq. simpl. destruct (negb (q <? end_)); by eexists.
  - intros Hid. destruct (getStart doc s) as [m|] eqn:Hm.
    + destruct (getOppositeMarker_position _ _ _ _ _ Hm) as [q Hq].
      simpl. rewrite Hq. simpl. destruct (negb (start <=? q)); by eexists.
    + unfold getStart, getOppositeMarker in Hm.
      destruct (getId s); discriminate.
Qed.

Lemma mapRange_removeLeaf_total doc end_ start part :
  Forall (fun s => wellTaggedSegment doc s = true) part →
  ∀ pos st, ∃ st', mapRange (removeLeaf doc end_) st pos start end_ part = Ok st'.
Proof.
  induction 1 as [|s part Hs _ IH]; intros pos st; simpl; [by eexists|].
  destruct (_ <? _); [|apply IH].
  destruct (removeLeaf_total doc end_ pos s
              (Z.max 0 (start - pos)) (Z.min (cachedLength s) (end_ - pos)) st Hs)
    as [st' ->].
  simpl. apply IH.
Qed.

Lemma remove_total start end_ doc :
  wellTagged doc → ∃ calls, remove start end_ doc = Ok calls.
Proof.
  intros Hwt. unfold remove, removeScan, visitRange.
  destruct (negb (start <? end_)); simpl; [by eexists|].
  destruct (mapRange_removeLeaf_total doc end_ start doc Hwt 0 (start, []))
    as [[s' ops] ->].
  simpl. by eexists.
Qed.

(** The scan of a non-empty range: where the active start ends up and
    what was pushed. *)
Lemma removeScan_spec start end_ doc start' scanned :
  start < end_ →
  removeScan start end_ doc = Ok (start', scanned) →
  start <= start' ∧ start' <= end_
  ∧ Forall (pushed doc end_ start start' doc) scanned
  ∧ (uniqueEnds doc → ForallOrdPairs separated scanned).
Proof.
  intros Hlt. unfold removeScan, visitRange.
  destruct (Z.ltb_spec start end_) as [_|?]; [simpl|lia].
  intros Hscan.
  destruct (scan_spec doc start end_ doc [] start [] (start', scanned))
    as (s' & new & [= -> ->] & ? & ? & _ & Hp & Hsep);
    [simpl; lia|lia|exact Hscan|done].
Qed.

(** The operations [remove] accumulates before sorting them. *)
Lemma accumulated_separated start end_ doc start' scanned :
  uniqueEnds doc →
  removeScan start end_ doc = Ok (start', scanned) →
  ForallOrdPairs separated
    (scanned ++ if decide (start' ≠ end_) then [RemoveRangeOp start' end_] else []).
Proof.
  intros Hu Hscan. destruct (Z.lt_ge_cases start end_) as [Hlt|Hge].
  - destruct (removeScan_spec _ _ _ _ _ Hlt Hscan) as (? & ? & Hp & Hsep).
    case_decide; [|rewrite app_nil_r; by auto].
    apply ForallOrdPairs_snoc; [by auto|].
    eapply Forall_impl; [exact Hp|]. intros op (a & b & -> & Hcase).
    unfold separated, before. simpl. lia.
  - unfold removeScan, visitRange in Hscan.
    destruct (Z.ltb_spec start end_) as [?|_]; [lia|]. simpl in Hscan.
    injection Hscan as <- <-. simpl.
    case_decide; repeat constructor.
Qed.

(** What [remove] submits when it returns: one group, a permutation of
    what the scan and the final step accumulated, sorted. *)
Lemma remove_group start end_ doc calls :
  remove start end_ doc = Ok calls →
  ∃ start' scanned ops,
    removeScan start end_ doc = Ok (start', scanned)
    ∧ calls = [GroupOperation ops]
    ∧ ops ≡ₚ scanned ++ (if decide (start' ≠ end_)
                         then [RemoveRangeOp start' end_] else [])
    ∧ StronglySorted descending ops.
Proof.
  intros Hrem. unfold remove in Hrem.
  apply bind_Ok in Hrem as ([start' scanned] & Hscan & Hrem).
  injection Hrem as <-.
  assert ((if decide (start' ≠ end_)
           then scanned ++ [RemoveRangeOp start' end_] else scanned)
          = scanned ++ (if decide (start' ≠ end_)
                        then [RemoveRangeOp start' end_] else [])) as ->.
  { case_decide; [done|by rewrite app_nil_r]. }
  eexists start', scanned, _. split_and!; [done|done| |].
  - apply merge_sort_Permutation.
  - apply StronglySorted_merge_sort; apply _.
Qed.

(** C3: one group, holding the accumulated operations in descending order
    of their start, their ranges pairwise disjoint; and on a well-tagged
    document the call does submit it. *)
Theorem remove_submits_one_sorted_group start end_ doc :
  uniqueEnds doc →
  (∀ calls, remove start end_ doc = Ok calls →
     ∃ start' scanned ops,
       removeScan start end_ doc = Ok (start', scanned)
       ∧ calls = [GroupOperation ops]
       ∧ ops ≡ₚ scanned ++ (if decide (start' ≠ end_)
                            then [RemoveRangeOp start' end_] else [])
       ∧ StronglySorted descending ops
       ∧ ForallOrdPairs rangesDisjoint ops)
  ∧ (wellTagged doc → ∃ calls, remove start end_ doc = Ok calls).
Proof.
  intros Hu. split; [|apply remove_total].
  intros calls Hrem.
  destruct (remove_group _ _ _ _ Hrem) as (start' & scanned & ops & Hscan & -> & Hperm & Hs).
  exists start', scanned, ops. split_and!; [done|done|done|done|].
  eapply ForallOrdPairs_weaken; [apply separated_rangesDisjoint|].
  eapply ForallOrdPairs_Permutation; [apply _|symmetry; exact Hperm|].
  by eapply accumulated_separated.
Qed.

(** The callback never stops the traversal, so a scan can be cut in two. *)
Lemma mapRange_removeLeaf_app doc end_ start l1 l2 :
  ∀ pos st,
    mapRange (removeLeaf doc end_) st pos start end_ (l1 ++ l2)
    = mapRange (removeLeaf doc end_) st pos start end_ l1
      ≫= fun st1 => mapRange (removeLeaf doc end_) st1 (pos + getLength l1) start end_ l2.
Proof.
  induction l1 as [|x l1 IH]; intros pos st; simpl.
  - by rewrite Z.add_0_r.
  - rewrite Z.add_assoc. destruct (_ <? _); [|apply IH].
    destruct (removeLeaf doc end_ pos x _ _ st) as [[go [s1 ops1]]|err] eqn:Hleaf;
      simpl; [|done].
    destruct st as [s ops].
    apply removeLeaf_spec in Hleaf as [-> _]. apply IH.
Qed.

Lemma pushed_not_covering doc end_ s s' part op p :
  p < end_ → (p < s ∨ s' <= p + 1) →
  pushed doc end_ s s' part op → ¬ (pos1 op <= p < pos2 op).
Proof. intros Hp Hs (a & b & -> & Hcase). simpl. lia. Qed.

(** C2: an end tag inside the range whose begin tag lies before the range
    stays: the scan flushes the removal of [[start, p)] for the start active
    when it reaches the tag and goes on from [p + 1]; after the scan the
    removal of what is left is appended exactly when something is left;
    no submitted operation removes position [p]. *)
Theorem remove_preserves_end_tag start end_ doc l1 e l2 startTag startPos
    start' scanned :
  doc = l1 ++ e :: l2 →
  start <= getLength l1 < end_ →
  getDocSegmentKind (Some e) = Ok endTags →
  getStart doc e = Ok startTag →
  getPosition doc startTag = Ok startPos →
  startPos < start →
  removeScan start end_ doc = Ok (start', scanned) →
  let p := getLength l1 in
  (∃ s ops,
      mapRange (removeLeaf doc end_) (start, []) 0 start end_ l1 = Ok (s, ops)
      ∧ mapRange (removeLeaf doc end_) (start, []) 0 start end_ (l1 ++ [e])
        = Ok (p + 1, ops ++ [RemoveRangeOp s p])
      ∧ start <= s <= p
      ∧ RemoveRangeOp s p ∈ scanned)
  ∧ p + 1 <= start' <= end_
  ∧ (∃ submitted,
        remove start end_ doc = Ok [GroupOperation submitted]
        ∧ submitted ≡ₚ scanned ++ (if bool_decide (start' < end_)
                                   then [RemoveRangeOp start' end_] else [])
        ∧ ∀ op, op ∈ submitted → ¬ (pos1 op <= p < pos2 op)).
Proof.
  intros Hdoc Hp Hk Hst Hsp Hlt Hscan p. subst p.
  pose proof (kind_endTags_marker _ Hk) as He1.
  assert (getLength (l1 ++ [e]) = getLength l1 + 1) as Hl1e.
  { rewrite getLength_app. simpl. lia. }
  remember (getLength l1) as p eqn:Hpl in *.
  assert (Hscan' := Hscan). unfold removeScan, visitRange in Hscan'.
  destruct (Z.ltb_spec start end_) as [_|?]; [simpl in Hscan'|lia].
  rewrite Hdoc in Hscan' at 2.
  rewrite mapRange_removeLeaf_app in Hscan'.
  apply bind_Ok in Hscan' as ([s ops] & Hl1 & Hrest).
  destruct (scan_spec doc start end_ l1 [] start [] (s, ops))
    as (s0 & new1 & [= <- Hops] & Hs1 & _ & Hs2 & Hp1 & _); [simpl; lia|lia|done|].
  simpl in Hops, Hs2. subst new1. rewrite <- Hpl in Hs2, Hrest.
  assert (removeLeaf doc end_ p e (Z.max 0 (start - p)) (Z.min (cachedLength e) (end_ - p))
            (s, ops) = Ok (true, (p + 1, ops ++ [RemoveRangeOp s p]))) as Hleaf.
  { unfold removeLeaf. rewrite Hk. simpl. rewrite Hst. simpl. rewrite Hsp. simpl.
    destruct (Z.leb_spec s startPos); [lia|done]. }
  assert ((Z.max 0 (start - p) <? Z.min (cachedLength e) (end_ - p)) = true) as Hvis.
  { apply Z.ltb_lt. lia. }
  assert (∀ st, mapRange (removeLeaf doc end_) (s, ops) (0 + p) start end_ (e :: st)
                = mapRange (removeLeaf doc end_) (p + 1, ops ++ [RemoveRangeOp s p])
                    (p + 1) start end_ st) as Hstep.
  { intros st. cbn [mapRange]. rewrite Z.add_0_l, Hvis, Hleaf, He1. done. }
  rewrite Hstep in Hrest.
  destruct (scan_spec doc start end_ l2 (l1 ++ [e]) (p + 1)
              (ops ++ [RemoveRangeOp s p]) (start', scanned))
    as (s3 & new & [= <- ->] & Hs3 & Hs4 & _ & Hp2 & _);
    [lia|lia|by rewrite Hl1e|].
  split_and!.
  - exists s, ops. split_and!; [done| |lia|lia|].
    + by rewrite mapRange_removeLeaf_app, Hl1, <- Hpl; cbn [mbind result_bind];
        rewrite Hstep.
    + apply elem_of_app. left. apply elem_of_app. right. left.
  - lia.
  - lia.
  - unfold remove. rewrite Hscan. simpl.
    eexists. split; [done|].
    assert ((if decide (start' ≠ end_)
             then ((ops ++ [RemoveRangeOp s p]) ++ new) ++ [RemoveRangeOp start' end_]
             else (ops ++ [RemoveRangeOp s p]) ++ new)
            = ((ops ++ [RemoveRangeOp s p]) ++ new)
              ++ (if bool_decide (start' < end_)
                  then [RemoveRangeOp start' end_] else [])) as ->.
    { case_decide; case_bool_decide; try lia; [done|by rewrite app_nil_r]. }
    split; [apply merge_sort_Permutation|].
    intros op Hop. unfold sortOps in Hop. rewrite merge_sort_Permutation in Hop.
    rewrite !elem_of_app in Hop. destruct Hop as [[[Hop|Hop]|Hop]|Hop].
    + rewrite Forall_forall in Hp1.
      eapply pushed_not_covering; [|right|exact (Hp1 _ Hop)]; lia.
    + apply list_elem_of_singleton in Hop as ->. simpl. lia.
    + rewrite Forall_forall in Hp2.
      eapply pushed_not_covering; [|left|exact (Hp2 _ Hop)]; lia.
    + case_bool_decide; [|by apply elem_of_nil in Hop].
      apply list_elem_of_singleton in Hop as ->. simpl. lia.
Qed.

(** ** The store removing ranges *)

Lemma length_sliceTo n t : String.length (sliceTo n t) = Nat.min n (String.length t).
Proof.
  revert t. induction n as [|n IH]; intros [|c t]; simpl; try done.
  by rewrite IH.
Qed.

Lemma length_slice n t : String.length (slice n t) = (String.length t - n)%nat.
Proof.
  revert t. induction n as [|n IH]; intros [|c t]; simpl; try done.
Qed.

Lemma getLength_removeFromSegment fresh a b s :
  getLength (removeFromSegment fresh a b s)
  = cachedLength s - Z.max 0 (Z.min b (cachedLength s) - Z.max a 0).
Proof.
  unfold removeFromSegment. pose proof (cachedLength_nonneg s) as Hs.
  destruct (Z.leb_spec b 0); simpl; [lia|].
  destruct (Z.leb_spec (cachedLength s) a); simpl; [lia|].
  destruct (Z.leb_spec b a); simpl; [lia|].
  destruct s as [sid t props|sid rt props]; simpl in *; [|lia].
  destruct (Z.ltb_spec 0 a), (Z.ltb_spec b (Z.of_nat (String.length t))); simpl;
    rewrite ?length_sliceTo, ?length_slice; lia.
Qed.

Lemma getLength_removeRange fresh doc :
  ∀ a b, getLength (removeRange fresh a b doc)
         = getLength doc - Z.max 0 (Z.min b (getLength doc) - Z.max a 0).
Proof.
  induction doc as [|s doc IH]; intros a b; simpl; [lia|].
  rewrite getLength_app, getLength_removeFromSegment, IH.
  pose proof (cachedLength_nonneg s). pose proof (getLength_nonneg doc). lia.
Qed.

Lemma removeRange_prefix fresh l1 l2 :
  ∀ a b, getLength l1 <= a →
         removeRange fresh a b (l1 ++ l2)
         = l1 ++ removeRange fresh (a - getLength l1) (b - getLength l1) l2.
Proof.
  induction l1 as [|s l1 IH]; intros a b Ha; simpl in *.
  - by rewrite !Z.sub_0_r.
  - pose proof (cachedLength_nonneg s). pose proof (getLength_nonneg l1).
    unfold removeFromSegment.
    destruct (Z.leb_spec (cachedLength s) a); [|lia].
    rewrite orb_true_r. simpl. rewrite IH by lia. do 3 f_equal; lia.
Qed.

Lemma removeRange_nothing fresh doc :
  ∀ a b, b <= 0 → removeRange fresh a b doc = doc.
Proof.
  induction doc as [|s doc IH]; intros a b Hb; simpl; [done|].
  pose proof (cachedLength_nonneg s). unfold removeFromSegment.
  destruct (Z.leb_spec b 0); [|lia]. simpl. by rewrite IH by lia.
Qed.

Lemma markerIds_app l1 l2 : markerIds (l1 ++ l2) = markerIds l1 ++ markerIds l2.
Proof. unfold markerIds. apply omap_app. Qed.

Lemma markerIds_removeFromSegment fresh a b s :
  markerIds (removeFromSegment fresh a b s) ⊆ markerIds [s].
Proof.
  unfold removeFromSegment. destruct (_ || _); [done|].
  destruct s as [sid t props|sid rt props]; simpl; [|apply list_subseteq_nil].
  destruct (0 <? a), (b <? _); simpl; done.
Qed.

Lemma markerIds_removeRange fresh doc :
  ∀ a b, markerIds (removeRange fresh a b doc) ⊆ markerIds doc.
Proof.
  induction doc as [|s doc IH]; intros a b; [done|].
  cbn [removeRange]. rewrite markerIds_app.
  change (markerIds (s :: doc)) with (markerIds ([s] ++ doc)).
  rewrite (markerIds_app [s] doc).
  intros i [Hi|Hi]%elem_of_app; apply elem_of_app.
  - left. by eapply markerIds_removeFromSegment.
  - right. by eapply IH.
Qed.

Lemma applyGroup_markerIds ops :
  ∀ st st', Forall isRemove ops → applyGroup st ops = Ok st' →
            markerIds (segments st') ⊆ markerIds (segments st).
Proof.
  induction ops as [|op ops IH]; intros st st' Hrem Happ; simpl in Happ.
  - by injection Happ as <-.
  - apply Forall_cons in Hrem as [Hop Hrem].
    apply bind_Ok in Happ as (st1 & Hst1 & Happ).
    etrans; [by eapply IH|].
    destruct op as [a b|]; [|done]. simpl in Hst1.
    destruct (_ && _); [|discriminate]. injection Hst1 as <-. simpl.
    apply markerIds_removeRange.
Qed.

(** Ranges that follow each other downwards and lie inside the sequence
    are all accepted by the store. *)
Lemma applyGroup_succeeds ops :
  ∀ st bound,
    Forall (fun op => isRemove op ∧ 0 <= pos1 op ∧ pos1 op <= pos2 op
                      ∧ pos2 op <= bound) ops →
    ForallOrdPairs (fun x y => before y x) ops →
    bound <= getLength (segments st) →
    ∃ st', applyGroup st ops = Ok st'.
Proof.
  induction ops as [|op ops IH]; intros st bound Hops Hord Hb; simpl; [by eexists|].
  apply Forall_cons in Hops as [(Hrem & H0 & H12 & H2) Hops].
  inversion_clear Hord as [|? ? Hop Hord'].
  destruct op as [a b|]; [|done]. simpl in *.
  destruct (Z.leb_spec 0 a); [|lia]. destruct (Z.leb_spec a b); [|lia].
  destruct (Z.leb_spec b (getLength (segments st))); [|lia]. simpl.
  apply (IH _ a); [|done|].
  - rewrite Forall_forall in *. intros y Hy.
    destruct (Hops y Hy) as (? & ? & ? & ?). destruct (Hop y Hy) as [_ ?].
    simpl in *. done.
  - simpl. rewrite getLength_removeRange. lia.
Qed.

(** A marker whose one-unit removal is in such a group is gone once the
    group is applied. *)
Lemma applyGroup_removes ops :
  ∀ st st' m1 e m2 q,
    segments st = m1 ++ e :: m2 → getLength m1 = q →
    (∃ i rt props, e = Marker i rt props) →
    segId e ∉ markerIds m1 → segId e ∉ markerIds m2 →
    Forall isRemove ops →
    ForallOrdPairs (fun x y => before y x) ops →
    RemoveRangeOp q (q + 1) ∈ ops →
    applyGroup st ops = Ok st' →
    segId e ∉ markerIds (segments st').
Proof.
  induction ops as [|op ops IH];
    intros st st' m1 e m2 q Hdoc Hq He Hm1 Hm2 Hrem Hord Hin Happ;
    [by apply elem_of_nil in Hin|].
  simpl in Happ. apply bind_Ok in Happ as (st1 & Hst1 & Happ).
  apply Forall_cons in Hrem as [Hop Hrem].
  inversion_clear Hord as [|? ? Hafter Hord'].
  destruct op as [a b|]; [|done]. simpl in Hst1.
  destruct (_ && _); [|discriminate]. injection Hst1 as <-.
  destruct He as (i & rt & props & ->). simpl in *.
  apply elem_of_cons in Hin as [[= <- <-]|Hin].
  - intros Hi. eapply applyGroup_markerIds in Hi; [|done|done]. simpl in Hi.
    rewrite Hdoc, removeRange_prefix in Hi by lia.
    rewrite Hq, Z.sub_diag in Hi. simpl in Hi.
    rewrite removeRange_nothing in Hi by lia.
    replace (q + 1 - q) with 1 in Hi by lia. simpl in Hi.
    rewrite markerIds_app in Hi. apply elem_of_app in Hi as [?|?]; done.
  - rewrite Forall_forall in Hafter. destruct (Hafter _ Hin) as [Hlt Hle].
    simpl in Hlt, Hle.
    eapply (IH _ st' m1 (Marker i rt props) _ q); [| | | | |done|done|done|done].
    + simpl. rewrite Hdoc.
      change (m1 ++ Marker i rt props :: m2) with (m1 ++ [Marker i rt props] ++ m2).
      rewrite app_assoc, removeRange_prefix.
      * by rewrite <- app_assoc.
      * rewrite getLength_app. simpl. lia.
    + done.
    + by eexists _, _, _.
    + done.
    + intros Hi. by apply markerIds_removeRange in Hi.
Qed.

Lemma idToSegment_marker doc id e :
  idToSegment doc id = Some e → ∃ i rt props, e = Marker i rt props.
Proof.
  induction doc as [|s doc IH]; simpl; [discriminate|].
  destruct s as [sid t props|sid rt props]; [done|].
  case_decide; [|done]. intros [= <-]. by eexists _, _, _.
Qed.

Lemma getOppositeMarker_Some doc marker n newPrefix e :
  getOppositeMarker doc marker n newPrefix = Ok (Some e) →
  e ∈ doc ∧ cachedLength e = 1 ∧ ∃ i rt props, e = Marker i rt props.
Proof.
  unfold getOppositeMarker. destruct (getId marker); [|discriminate].
  intros [= He]. destruct (idToSegment_Some _ _ _ He) as (? & _ & ?).
  split_and!; [done|done|by eapply idToSegment_marker].
Qed.

Lemma pushed_inside doc start end_ start' part op :
  distinctSegments doc → 0 <= start → start' <= end_ → end_ <= getLength doc →
  pushed doc end_ start start' part op →
  isRemove op ∧ 0 <= pos1 op ∧ pos1 op <= pos2 op ∧ pos2 op <= getLength doc.
Proof.
  intros Hd H0 Hs Hend (a & b & -> & Hcase). simpl. split; [done|].
  destruct Hcase as [(-> & _ & Hin)|?]; [|lia].
  unfold endPositions in Hin. apply list_elem_of_omap in Hin as (x & _ & Hx).
  unfold endPositionOf in Hx.
  destruct (getDocSegmentKind (Some x)) as [[]|]; try discriminate.
  destruct (getEnd doc x) as [[e|]|] eqn:He; try discriminate.
  apply getOppositeMarker_Some in He as (Hin & He1 & _).
  pose proof (positionOf_bounds _ _ _ Hd Hin Hx). lia.
Qed.

(** C1: a begin tag inside the removed range whose end tag lies at or
    after the end of the range takes its end tag with it: the submitted
    group holds the one-unit removal of the end tag, the store accepts the
    group, and the end tag is gone afterwards.  In scenario 2 the group
    removes the begin tag, the first unit of the text and the end tag. *)
Theorem remove_begin_removes_end :
  (∀ start end_ st l1 b l2 e q calls,
     distinctSegments (segments st) → uniqueEnds (segments st) →
     0 <= start → end_ <= getLength (segments st) →
     segments st = l1 ++ b :: l2 →
     start <= getLength l1 < end_ →
     getDocSegmentKind (Some b) = Ok beginTags →
     getEnd (segments st) b = Ok (Some e) →
     getPosition (segments st) (Some e) = Ok q →
     end_ <= q →
     remove start end_ (segments st) = Ok calls →
     ∃ ops st',
       calls = [GroupOperation ops]
       ∧ RemoveRangeOp q (q + 1) ∈ ops
       ∧ applyGroup st ops = Ok st'
       ∧ segId e ∉ markerIds (segments st'))
  ∧ remove 0 2 scenario2
    = Ok [GroupOperation [RemoveRangeOp 3 4; RemoveRangeOp 0 2]]
  ∧ applyGroup (mkStore scenario2 3) [RemoveRangeOp 3 4; RemoveRangeOp 0 2]
    = Ok (mkStore [TextSegment 4 "B" empty] 5).
Proof.
  split; [|split; vm_compute; reflexivity].
  intros start end_ [doc next] l1 b l2 e q calls. cbn [segments].
  intros Hd Hu H0 Hend Hdoc Hp Hk He Hq Hqe Hrem.
  pose proof (kind_beginTags_marker _ Hk) as Hb1.
  assert (positionOf doc (segId e) = Some q) as Hpos.
  { simpl in Hq. unfold mergeTree_getPosition in Hq.
    destruct (positionOf doc (segId e)); [congruence|discriminate]. }
  destruct (remove_group start end_ doc calls Hrem)
    as (start' & scanned & ops & Hscan & -> & Hperm & Hsorted).
  assert (start < end_) as Hlt by lia.
  destruct (removeScan_spec _ _ _ _ _ Hlt Hscan) as (Hs1 & Hs2 & Hpushed & _).
  (* the scan pushes the removal of the end tag when it reaches the begin tag *)
  assert (RemoveRangeOp q (q + 1) ∈ scanned) as Hin.
  { assert (Hscan' := Hscan). unfold removeScan, visitRange in Hscan'.
    destruct (Z.ltb_spec start end_) as [_|?]; [simpl in Hscan'|lia].
    rewrite Hdoc in Hscan' at 2. rewrite mapRange_removeLeaf_app in Hscan'.
    apply bind_Ok in Hscan' as ([s ops1] & Hl1 & Hrest).
    cbn [mapRange] in Hrest. rewrite Z.add_0_l in Hrest.
    destruct (Z.ltb_spec (Z.max 0 (start - getLength l1))
                (Z.min (cachedLength b) (end_ - getLength l1))) as [_|?]; [|lia].
    assert (removeLeaf doc end_ (getLength l1) b (Z.max 0 (start - getLength l1))
              (Z.min (cachedLength b) (end_ - getLength l1)) (s, ops1)
            = Ok (true, (s, ops1 ++ [RemoveRangeOp q (q + 1)]))) as Hleaf.
    { unfold removeLeaf. rewrite Hk. simpl. rewrite He. simpl. simpl in Hq.
      rewrite Hq. simpl. destruct (Z.ltb_spec q end_); [lia|done]. }
    rewrite Hleaf in Hrest. simpl in Hrest.
    replace (getLength l1 + cachedLength b) with (getLength (l1 ++ [b])) in Hrest
      by (rewrite getLength_app; simpl; lia).
    destruct (scan_spec doc start end_ l2 (l1 ++ [b]) s
                (ops1 ++ [RemoveRangeOp q (q + 1)]) (start', scanned))
      as (s3 & new & [= <- ->] & _); [| |done|].
    - destruct (scan_spec doc start end_ l1 [] start [] (s, ops1))
        as (s0 & new1 & [= <- _] & _ & _ & Hs & _); [simpl; lia|lia|done|].
      simpl in Hs. rewrite getLength_app. simpl. lia.
    - destruct (scan_spec doc start end_ l1 [] start [] (s, ops1))
        as (s0 & new1 & [= <- _] & _ & ? & _); [simpl; lia|lia|done|done].
    - apply elem_of_app. left. apply elem_of_app. right. left. }
  (* every accumulated operation is a removal inside the sequence *)
  set (acc := scanned ++ (if decide (start' ≠ end_)
                          then [RemoveRangeOp start' end_] else [])) in *.
  assert (Forall (fun op => isRemove op ∧ 0 <= pos1 op ∧ pos1 op <= pos2 op
                            ∧ pos2 op <= getLength doc) acc) as Hacc.
  { apply Forall_app. split.
    - eapply Forall_impl; [exact Hpushed|]. intros op. by apply pushed_inside.
    - case_decide; repeat constructor; simpl; lia. }
  assert (ForallOrdPairs (fun x y => before y x) ops) as Hord.
  { apply sorted_separated_before; [done|].
    eapply ForallOrdPairs_Permutation; [apply _|symmetry; exact Hperm|].
    by apply (accumulated_separated start end_ doc). }
  rewrite <- Hperm in Hacc.
  destruct (applyGroup_succeeds ops (mkStore doc next) (getLength doc) Hacc Hord)
    as [st' Hst']; [done|].
  exists ops, st'. split_and!; [done| |done|].
  - rewrite Hperm. apply elem_of_app. by left.
  - destruct (getOppositeMarker_Some _ _ _ _ _ He) as (Hein & He1 & Hem).
    destruct (positionOf_Some _ _ _ Hpos) as (m1 & e' & m2 & Hsplit & Hid & Hm1 & Hn1).
    assert (e' = e) as ->.
    { rewrite Hsplit in Hein, Hd. unfold distinctSegments in Hd.
      rewrite fmap_app, fmap_cons in Hd.
      apply NoDup_app in Hd as (_ & _ & [Hn2 _]%NoDup_cons).
      apply elem_of_app in Hein as [?|[?|?]%elem_of_cons]; [|done|].
      - exfalso. apply Hn1. by apply list_elem_of_fmap_2.
      - exfalso. apply Hn2. rewrite Hid. by apply list_elem_of_fmap_2. }
    assert (∀ l, markerIds l ⊆ segId <$> l) as Hsub.
    { intros l i (x & Hxl & Hx)%list_elem_of_omap.
      destruct x as [|i0 rt0 p0]; [discriminate|]. injection Hx as <-.
      by apply (list_elem_of_fmap_2 segId _ (Marker i0 rt0 p0)). }
    eapply (applyGroup_removes ops (mkStore doc next) st' m1 e m2 q);
      [done|done|done| | | |done| |done].
    + intros ?%Hsub. done.
    + intros Hi%Hsub. rewrite Hsplit in Hd. unfold distinctSegments in Hd.
      rewrite fmap_app, fmap_cons in Hd.
      by apply NoDup_app in Hd as (_ & _ & [? _]%NoDup_cons).
    + eapply Forall_impl; [exact Hacc|]. by intros op [? _].
    + rewrite Hperm. apply elem_of_app. by left.
Qed.

(** ** The store inserting segments *)

Lemma length_sliceTo_slice n t :
  (String.length (sliceTo n t) + String.length (slice n t))%nat = String.length t.
Proof. rewrite length_sliceTo, length_slice. lia. Qed.

Lemma getLength_insertSegment fresh seg doc :
  ∀ p, getLength (insertSegment fresh p seg doc) = getLength doc + cachedLength seg.
Proof.
  induction doc as [|s doc IH]; intros p; simpl; [lia|].
  destruct (p <=? 0); [simpl; lia|].
  destruct (p <? cachedLength s).
  - destruct s as [sid t props|sid rt props]; simpl; [|lia].
    pose proof (length_sliceTo_slice (Z.to_nat p) t). lia.
  - simpl. rewrite IH. lia.
Qed.

Lemma elem_of_insertSegment fresh seg doc :
  ∀ p, seg ∈ insertSegment fresh p seg doc.
Proof.
  induction doc as [|s doc IH]; intros p; simpl; [left|].
  destruct (p <=? 0); [left|].
  destruct (p <? cachedLength s).
  - destruct s as [sid t props|sid rt props]; [right|right]; left.
  - right. apply IH.
Qed.

Lemma idToSegment_insert_other fresh seg doc id :
  getId seg ≠ Some id →
  ∀ p, idToSegment (insertSegment fresh p seg doc) id = idToSegment doc id.
Proof.
  intros Hne.
  assert (∀ rest, idToSegment (seg :: rest) id = idToSegment rest id) as Hskip.
  { intros rest. destruct seg as [sid t props|sid rt props]; simpl; [done|].
    by rewrite decide_False. }
  induction doc as [|s doc IH]; intros p; simpl.
  - apply (Hskip []).
  - destruct (p <=? 0); [apply Hskip|].
    destruct (p <? cachedLength s).
    + destruct s as [sid t props|sid rt props].
      * cbn [idToSegment app]. apply Hskip.
      * cbn [idToSegment]. case_decide; [done|apply Hskip].
    + destruct s as [sid t props|sid rt props]; cbn [idToSegment]; [apply IH|].
      case_decide; [done|apply IH].
Qed.

Lemma idToSegment_insert_fresh fresh sid rt props doc id :
  getId (Marker sid rt props) = Some id → idToSegment doc id = None →
  ∀ p, idToSegment (insertSegment fresh p (Marker sid rt props) doc) id
       = Some (Marker sid rt props).
Proof.
  intros Hid.
  assert (∀ rest, idToSegment (Marker sid rt props :: rest) id
                  = Some (Marker sid rt props)) as Hhit.
  { intros rest. cbn [idToSegment]. by rewrite decide_True. }
  induction doc as [|s doc IH]; intros Hnone p; simpl.
  - apply (Hhit []).
  - destruct (p <=? 0); [apply Hhit|].
    destruct (p <? cachedLength s).
    + destruct s as [sid' t props'|sid' rt' props'].
      * cbn [idToSegment app]. apply Hhit.
      * cbn [idToSegment] in *. case_decide; [done|apply Hhit].
    + destruct s as [sid' t props'|sid' rt' props']; cbn [idToSegment] in *.
      * by apply IH.
      * case_decide; [done|by apply IH].
Qed.

(** ** insertTags *)

Section insertTags_facts.
Variable randomId : nat → string.

  (** What [insertTags] hands to the store and leaves behind. *)
Lemma insertTags_spec tags start end_ w :
    let e := default start end_ in
    let id := randomId (idsDrawn w) in
    let fresh := nextSegId (sharedString w) in
    let endMarker :=
      Marker fresh (Z.lor ReferenceType.Tile ReferenceType.NestEnd)
        (mkProps [kindLabel inclusion; checkpoint] [kindLabel beginTags]
           (Some ("end-" +:+ id)) [] None None) in
    let beginMarker :=
      Marker (S fresh) (Z.lor ReferenceType.Tile ReferenceType.NestBegin)
        (mkProps [kindLabel inclusion; checkpoint] [kindLabel beginTags]
           (Some ("begin-" +:+ id)) tags None None) in
    0 <= start <= FlowDocument_length w → 0 <= e <= FlowDocument_length w →
    ∃ w',
      insertTags randomId tags start end_ w = Ok w'
      ∧ idsDrawn w' = S (idsDrawn w)
      ∧ calls w' = calls w ++ [GroupOperation [InsertSegmentOp e endMarker;
                                               InsertSegmentOp start beginMarker]]
      ∧ mergeTree w'
        = insertSegment (S (S (S fresh))) start beginMarker
            (insertSegment (S (S fresh)) e endMarker (mergeTree w)).
  Proof.
    intros e id fresh endMarker beginMarker Hs He.
    unfold insertTags, groupOperation, FlowDocument_length in *.
    fold e id fresh. fold endMarker. fold beginMarker.
    cbn [app storeApplyAll]. unfold storeApply at 2. cbn [sharedString applyOp segments].
    destruct (Z.leb_spec 0 e); [|lia].
    destruct (Z.leb_spec e (getLength (mergeTree w))); [|lia].
    cbn [andb mbind result_bind nextSegId].
    unfold storeApply. cbn [sharedString applyOp segments].
    rewrite getLength_insertSegment.
    destruct (Z.leb_spec 0 start); [|lia].
    cbn [cachedLength].
    destruct (Z.leb_spec start (getLength (mergeTree w) + 1)); [|lia].
    cbn [andb mbind result_bind nextSegId].
    eexists. split_and!; reflexivity.
  Qed.
End insertTags_facts.

(** C5: one id is drawn and shared, behind the [end-] and [begin-]
    prefixes, by an end tag and a begin tag; the insertion of the end tag at
    [end] comes before the insertion of the begin tag at [start], in the one
    group the call submits. *)
Theorem insertTags_end_before_begin (randomId : nat → string) tagNames start end_ w :
  0 <= start <= FlowDocument_length w →
  0 <= default start end_ <= FlowDocument_length w →
  ∃ w' endMarker beginMarker,
    insertTags randomId tagNames start end_ w = Ok w'
    ∧ idsDrawn w' = S (idsDrawn w)
    ∧ calls w' = calls w ++ [GroupOperation
                               [InsertSegmentOp (default start end_) endMarker;
                                InsertSegmentOp start beginMarker]]
    ∧ getId endMarker = Some ("end-" +:+ randomId (idsDrawn w))
    ∧ getId beginMarker = Some ("begin-" +:+ randomId (idsDrawn w))
    ∧ getDocSegmentKind (Some endMarker) = Ok endTags
    ∧ getDocSegmentKind (Some beginMarker) = Ok beginTags
    ∧ tags (properties beginMarker) = tagNames
    ∧ segId endMarker ≠ segId beginMarker.
Proof.
  intros Hs He.
  destruct (insertTags_spec randomId tagNames start end_ w Hs He)
    as (w' & Hw' & Hdrawn & Hcalls & _).
  eexists w', _, _. split_and!; [exact Hw'|exact Hdrawn|exact Hcalls|..];
    try reflexivity.
  simpl. lia.
Qed.

(** C10: for the pair [insertTags] has put into the document under an id
    no marker carried before, [getEnd] of the begin tag is the end tag
    and [getStart] of the end tag is the begin tag: the lookup swaps the
    prefix and keeps the id. *)
Theorem getEnd_getStart_opposite (randomId : nat → string) tags start end_ w :
  let id := randomId (idsDrawn w) in
  0 <= start <= FlowDocument_length w →
  0 <= default start end_ <= FlowDocument_length w →
  idToSegment (mergeTree w) ("begin-" +:+ id) = None →
  idToSegment (mergeTree w) ("end-" +:+ id) = None →
  "end" +:+ slice 5 ("begin-" +:+ id) = "end-" +:+ id
  ∧ "begin" +:+ slice 3 ("end-" +:+ id) = "begin-" +:+ id
  ∧ ∃ w' beginMarker endMarker,
    insertTags randomId tags start end_ w = Ok w'
    ∧ beginMarker ∈ mergeTree w' ∧ endMarker ∈ mergeTree w'
    ∧ getId beginMarker = Some ("begin-" +:+ id)
    ∧ getId endMarker = Some ("end-" +:+ id)
    ∧ getEnd (mergeTree w') beginMarker = Ok (Some endMarker)
    ∧ getStart (mergeTree w') endMarker = Ok (Some beginMarker)
    ∧ (getEnd (mergeTree w') beginMarker
         ≫= from_option (getStart (mergeTree w')) (Ok None))
      = Ok (Some beginMarker)
    ∧ (getStart (mergeTree w') endMarker
         ≫= from_option (getEnd (mergeTree w')) (Ok None))
      = Ok (Some endMarker).
Proof.
  intros id Hs He Hb Hn. split; [done|]. split; [done|].
  destruct (insertTags_spec randomId tags start end_ w Hs He)
    as (w' & Hw' & _ & _ & Hdoc).
  fold id in Hdoc.
  set (fresh := nextSegId (sharedString w)) in *.
  set (endProps := mkProps _ _ (Some ("end-" +:+ id)) _ _ _) in Hdoc.
  set (beginProps := mkProps _ _ (Some ("begin-" +:+ id)) _ _ _) in Hdoc.
  set (endMarker := Marker fresh _ endProps) in *.
  set (beginMarker := Marker (S fresh) _ beginProps) in *.
  assert (getEnd (mergeTree w') beginMarker = Ok (Some endMarker)) as Hend.
  { unfold getEnd, getOppositeMarker. cbn [getId properties beginMarker beginProps markerId].
    f_equal. change ("end" +:+ slice 5 ("begin-" +:+ id)) with ("end-" +:+ id).
    rewrite Hdoc, idToSegment_insert_other by done.
    by apply idToSegment_insert_fresh. }
  assert (getStart (mergeTree w') endMarker = Ok (Some beginMarker)) as Hstart.
  { unfold getStart, getOppositeMarker. cbn [getId properties endMarker endProps markerId].
    f_equal. change ("begin" +:+ slice 3 ("end-" +:+ id)) with ("begin-" +:+ id).
    rewrite Hdoc. apply idToSegment_insert_fresh; [done|].
    by rewrite idToSegment_insert_other. }
  exists w', beginMarker, endMarker.
  split_and!; [done| | |done|done|done|done|by rewrite Hend|by rewrite Hstart].
  - rewrite Hdoc. apply elem_of_insertSegment.
  - rewrite Hdoc.
    assert (∀ f p seg doc x, x ∈ doc → x = endMarker → x ∈ insertSegment f p seg doc)
      as Hkeep.
    { intros f p seg doc x Hx ->. revert p.
      induction doc as [|s doc IH]; intros p; [by apply elem_of_nil in Hx|].
      simpl. destruct (p <=? 0); [by right|].
      destruct (p <? cachedLength s).
      - apply elem_of_cons in Hx as [<-|Hx].
        + left.
        + destruct s; [by do 3 right|by do 2 right].
      - apply elem_of_cons in Hx as [<-|Hx]; [left|right; by apply IH]. }
    eapply Hkeep; [apply elem_of_insertSegment|done].
Qed.

Example toggle_halfStyled :
  (fun w => (mergeTree w, calls w)) <$> toggleCssClass 0 4 ["x"] halfStyled
  = Ok ([TextSegment 0 "AB" (setClassList (Some EmptyString) empty);
         TextSegment 1 "CD" empty],
        [AnnotateRange 0 2 (Some EmptyString)]).
Proof. vm_compute. reflexivity. Qed.

(** ** Traversals that run to the end *)

Lemma mapRange_foldl {S} (leaf : LeafAction S)
    (g : Z * ISegment * Z * Z → S → S) start end_ doc :
  (∀ p s so eo st, leaf p s so eo st = Ok (true, g (p, s, so, eo) st)) →
  ∀ pos st,
    mapRange leaf st pos start end_ doc
    = Ok (foldl (fun st v => g v st) st (overlapping pos start end_ doc)).
Proof.
  intros Hleaf. induction doc as [|x doc IH]; intros pos st; simpl; [done|].
  destruct (_ <? _); simpl; [|apply IH].
  rewrite Hleaf. simpl. apply IH.
Qed.

Lemma visitRange_foldl {S} (leaf : LeafAction S)
    (g : Z * ISegment * Z * Z → S → S) start end_ doc st :
  (∀ p s so eo st, leaf p s so eo st = Ok (true, g (p, s, so, eo) st)) →
  visitRange leaf st start end_ doc
  = Ok (foldl (fun st v => g v st) st (visited start end_ doc)).
Proof.
  intros Hleaf. unfold visitRange, visited.
  destruct (negb _); [done|]. by apply mapRange_foldl.
Qed.

(** ** CSS classes *)

Lemma calls_annotate_all updates :
  ∀ w, calls (foldl (fun w '(span, cl) =>
                       annotate (startPosition span) (endPosition span) cl w)
                w updates)
       = calls w ++ ((fun '(span, cl) =>
                        AnnotateRange (startPosition span) (endPosition span) cl)
                     <$> updates).
Proof.
  induction updates as [|[span cl] updates IH]; intros w; simpl.
  - by rewrite app_nil_r.
  - rewrite IH. simpl. by rewrite <- app_assoc.
Qed.

(** The state a pass of [updateCssClassList] arrives at, for a callback
    that returns [f classList] and updates its own state by [h]. *)
Lemma updateCssClassList_spec {S} (f : option string → option string)
    (h : option string → S → S) start end_ s0 w :
  updateCssClassList start end_ (fun cl s => (f cl, h cl s)) s0 w
  = Ok (foldl (fun s v => h (classListAt v) s) s0 (visited start end_ (mergeTree w)),
        foldl (fun w '(span, cl) =>
                 annotate (startPosition span) (endPosition span) cl w)
          w ((fun v => (newSegmentSpan v.1.1.1 v.1.1.2 v.1.2 v.2, f (classListAt v)))
             <$> filter (fun v => f (classListAt v) ≠ classListAt v)
                   (visited start end_ (mergeTree w)))).
Proof.
  unfold updateCssClassList.
  rewrite (visitRange_foldl _
             (fun v '(s, updates) =>
                (h (classListAt v) s,
                 if decide (f (classListAt v) ≠ classListAt v)
                 then updates ++ [(newSegmentSpan v.1.1.1 v.1.1.2 v.1.2 v.2,
                                   f (classListAt v))]
                 else updates)));
    [|by intros p s so eo [s1 updates]].
  cbn [mbind result_bind].
  assert (∀ vs s1 updates,
            foldl (fun st v =>
                     (let '(s, updates) := st in
                      (h (classListAt v) s,
                       if decide (f (classListAt v) ≠ classListAt v)
                       then updates ++ [(newSegmentSpan v.1.1.1 v.1.1.2 v.1.2 v.2,
                                         f (classListAt v))]
                       else updates))) (s1, updates) vs
            = (foldl (fun s v => h (classListAt v) s) s1 vs,
               updates ++ ((fun v => (newSegmentSpan v.1.1.1 v.1.1.2 v.1.2 v.2,
                                      f (classListAt v)))
                           <$> filter (fun v => f (classListAt v) ≠ classListAt v) vs)))
    as Hfold.
  { induction vs as [|v vs IH]; intros s1 updates; simpl; [by rewrite app_nil_r|].
    rewrite IH. f_equal. rewrite filter_cons. case_decide; [|done].
    by rewrite fmap_cons, <- app_assoc. }
  by rewrite Hfold.
Qed.

Lemma updateCssClassList_calls {S} (f : option string → option string)
    (h : option string → S → S) start end_ s0 w s1 w' :
  updateCssClassList start end_ (fun cl s => (f cl, h cl s)) s0 w = Ok (s1, w') →
  calls w' = calls w
             ++ (annotationFor f
                 <$> filter (fun v => f (classListAt v) ≠ classListAt v)
                       (visited start end_ (mergeTree w))).
Proof.
  rewrite updateCssClassList_spec. intros [= _ <-].
  rewrite calls_annotate_all. f_equal.
  rewrite <- list_fmap_compose. by apply list_fmap_ext.
Qed.

Lemma computeToggle_toAdd cl toAdd toRemove c :
  c ∈ (TokenList.computeToggle cl toAdd toRemove).1
  ↔ c ∈ toAdd ∧ TokenList.has cl c = false.
Proof. unfold TokenList.computeToggle. simpl. rewrite list_elem_of_filter. tauto. Qed.

Lemma computeToggle_toRemove cl toAdd :
  ∀ toRemove c,
    c ∈ (TokenList.computeToggle cl toAdd toRemove).2
    ↔ c ∈ toRemove ∨ (c ∈ toAdd ∧ TokenList.has cl c = true).
Proof.
  unfold TokenList.computeToggle. simpl.
  induction toAdd as [|t toAdd IH]; intros toRemove c; simpl.
  - rewrite elem_of_nil. tauto.
  - rewrite IH, elem_of_cons.
    destruct (TokenList.has cl t) eqn:Ht; simpl.
    + case_bool_decide as Hin; simpl.
      * split; [tauto|]. intros [?|[[->|?] ?]]; tauto.
      * rewrite elem_of_app, list_elem_of_singleton.
        split; [intros [[?| ->]|?]; tauto|]. intros [?|[[->|?] ?]]; tauto.
    + split; [tauto|]. intros [?|[[->|?] ?]]; [tauto|congruence|tauto].
Qed.

(** The sets the pre-visit of [toggleCssClass] arrives at. *)
Lemma toggle_sets vs :
  ∀ toAdd toRemove c,
    let sets := foldl (fun (sets : list string * list string) v =>
                         TokenList.computeToggle (classListAt v) sets.1 sets.2)
                  (toAdd, toRemove) vs in
    (c ∈ sets.1 ↔ c ∈ toAdd ∧ ∀ v, v ∈ vs → TokenList.has (classListAt v) c = false)
    ∧ (c ∈ sets.2 ↔ c ∈ toRemove
                    ∨ (c ∈ toAdd ∧ ∃ v, v ∈ vs ∧ TokenList.has (classListAt v) c = true)).
Proof.
  induction vs as [|v vs IH]; intros toAdd toRemove c; simpl.
  - split; [split; [intros ?; split; [done|by intros ? ?%elem_of_nil]|tauto]|].
    split; [tauto|]. intros [?|[_ (? & ?%elem_of_nil & _)]]; done.
  - destruct (TokenList.computeToggle (classListAt v) toAdd toRemove) as [a r] eqn:Hstep.
    destruct (IH a r c) as [Ha Hr]. simpl in Ha, Hr.
    pose proof (computeToggle_toAdd (classListAt v) toAdd toRemove c) as Hca.
    pose proof (computeToggle_toRemove (classListAt v) toAdd toRemove c) as Hcr.
    rewrite Hstep in Hca, Hcr. simpl in Hca, Hcr.
    split.
    + rewrite Ha, Hca. split.
      * intros [[? ?] Hvs]. split; [done|]. by intros v' [->|?]%elem_of_cons; auto.
      * intros [? Hvs]. split; [split; [done|apply Hvs; left]|].
        intros v' ?. apply Hvs. by right.
    + rewrite Hr, Hcr, Hca. split.
      * intros [[?|[? ?]]|[[? ?] (v' & ? & ?)]]; [by left|right..].
        -- split; [done|]. exists v. split; [left|done].
        -- split; [done|]. exists v'. split; [by right|done].
      * intros [?|[? (v' & [->|?]%elem_of_cons & Hv')]]; [tauto|tauto|].
        destruct (TokenList.has (classListAt v) c) eqn:Hv; [tauto|].
        right. split; [done|]. by exists v'.
Qed.

Lemma filter_unchanged {A} (g : A → option string) (l : list A) :
  filter (fun v => g v ≠ g v) l = [].
Proof.
  induction l as [|x l IH]; [done|]. rewrite filter_cons. by case_decide.
Qed.

(** C6, as the code has it: the presence of each class is decided once
    for the whole range, in a pre-visit that annotates nothing: a class
    that some visited segment carries is removed over the whole range, a
    class that none carries is added over the whole range; each of the two
    passes annotates exactly the visited segments whose class list it
    changes.  On the half-styled span, toggling "x" takes the class off
    the first half with one annotation and leaves the second half without
    it. *)
Theorem toggleCssClass_decides_over_range :
  (∀ start end_ classNames w,
     ∃ toAdd toRemove w2 w3,
       toggleScan start end_ classNames w = Ok (toAdd, toRemove, w)
       ∧ (∀ c, c ∈ toRemove
               ↔ c ∈ classNames
                 ∧ ∃ v, v ∈ visited start end_ (mergeTree w)
                        ∧ TokenList.has (classListAt v) c = true)
       ∧ (∀ c, c ∈ toAdd
               ↔ c ∈ classNames
                 ∧ ∀ v, v ∈ visited start end_ (mergeTree w)
                        → TokenList.has (classListAt v) c = false)
       ∧ removeCssClass start end_ toRemove w = Ok w2
       ∧ calls w2
         = calls w
           ++ (annotationFor (fun cl => foldl TokenList.unset cl toRemove)
               <$> filter (fun v => foldl TokenList.unset (classListAt v) toRemove
                                    ≠ classListAt v)
                     (visited start end_ (mergeTree w)))
       ∧ addCssClass start end_ toAdd w2 = Ok w3
       ∧ calls w3
         = calls w2
           ++ (if decide (toAdd ≠ []) then
                 annotationFor (fun cl => TokenList.set cl (TokenList.join toAdd))
                 <$> filter (fun v => TokenList.set (classListAt v) (TokenList.join toAdd)
                                      ≠ classListAt v)
                       (visited start end_ (mergeTree w2))
               else [])
       ∧ toggleCssClass start end_ classNames w = Ok w3)
  ∧ (fun w => (mergeTree w, calls w)) <$> toggleCssClass 0 4 ["x"] halfStyled
    = Ok ([TextSegment 0 "AB" (setClassList (Some EmptyString) empty);
           TextSegment 1 "CD" empty],
          [AnnotateRange 0 2 (Some EmptyString)]).
Proof.
  split; [|vm_compute; reflexivity].
  intros start end_ classNames w.
  set (vs := visited start end_ (mergeTree w)).
  set (sets := foldl (fun (sets : list string * list string) v =>
                        TokenList.computeToggle (classListAt v) sets.1 sets.2)
                 (classNames, []) vs).
  assert (toggleScan start end_ classNames w = Ok (sets.1, sets.2, w)) as Hscan.
  { unfold toggleScan.
    rewrite (updateCssClassList_spec (fun cl => cl)
               (fun cl (sets : list string * list string) =>
                  TokenList.computeToggle cl sets.1 sets.2)).
    rewrite (filter_unchanged classListAt). simpl. fold vs. fold sets.
    by destruct sets. }
  destruct (removeCssClass start end_ sets.2 w) as [w2|] eqn:Hrem;
    [|unfold removeCssClass in Hrem; by rewrite updateCssClassList_spec in Hrem].
  destruct (addCssClass start end_ sets.1 w2) as [w3|] eqn:Hadd;
    [|unfold addCssClass in Hadd; case_decide; [|done];
      by rewrite updateCssClassList_spec in Hadd].
  exists sets.1, sets.2, w2, w3. split_and!; [done| | |done| |done| |].
  - intros c. destruct (toggle_sets vs classNames [] c) as [_ Hr]. fold sets in Hr.
    rewrite Hr, elem_of_nil. tauto.
  - intros c. destruct (toggle_sets vs classNames [] c) as [Ha _]. by fold sets in Ha.
  - unfold removeCssClass in Hrem.
    destruct (updateCssClassList _ _ _ _ _) as [[[] w2']|] eqn:Hupd; [|done].
    injection Hrem as ->. by apply updateCssClassList_calls in Hupd.
  - unfold addCssClass in Hadd. case_decide.
    + destruct (updateCssClassList _ _ _ _ _) as [[[] w3']|] eqn:Hupd; [|done].
      injection Hadd as ->. by apply updateCssClassList_calls in Hupd.
    + injection Hadd as ->. by rewrite app_nil_r.
  - unfold toggleCssClass. rewrite Hscan. cbn [mbind result_bind].
    rewrite Hrem. cbn [mbind result_bind]. done.
Qed.

(** ** Local references *)

Lemma getContainingSegment_total doc :
  ∀ p, 0 <= p < getLength doc → ∃ s off, getContainingSegment doc p = Ok (s, off).
Proof.
  induction doc as [|s doc IH]; intros p Hp; simpl in *; [lia|].
  destruct (Z.ltb_spec p 0); [lia|].
  destruct (Z.ltb_spec p (cachedLength s)); [by eexists _, _|].
  apply IH. lia.
Qed.

(** The owner of a position is in the document, the offset lies inside
    it, and the first segment of its identity starts no later than it. *)
Lemma getContainingSegment_inv doc :
  ∀ y s off,
    getContainingSegment doc y = Ok (s, off) →
    s ∈ doc ∧ 0 <= off < cachedLength s ∧ 0 <= y < getLength doc
    ∧ ∃ p, positionOf doc (segId s) = Some p ∧ 0 <= p ∧ p + off <= y.
Proof.
  induction doc as [|x doc IH]; intros y s off; simpl; [discriminate|].
  destruct (Z.ltb_spec y 0); [discriminate|].
  pose proof (cachedLength_nonneg x). pose proof (getLength_nonneg doc).
  destruct (Z.ltb_spec y (cachedLength x)).
  - intros [= <- <-]. split_and!; [left|lia|lia|lia|lia|].
    exists 0. rewrite decide_True by done. split_and!; [done|lia|lia].
  - intros Hrec. destruct (IH _ _ _ Hrec) as (Hin & Hoff & Hy & p & Hp & Hp0 & Hpy).
    split_and!; [by right|lia|lia|lia|lia|].
    case_decide.
    + exists 0. split_and!; [done|lia|lia].
    + exists (cachedLength x + p). rewrite Hp. split_and!; [done|lia|lia].
Qed.

Lemma anchored_resolves doc r :
  anchored doc r →
  ∃ p, localRefToPosition doc r = Ok p ∧ 0 <= p <= getLength doc
       ∧ (refSegment r = None → p = getLength doc).
Proof.
  unfold anchored, localRefToPosition. pose proof (getLength_nonneg doc).
  destruct (refSegment r) as [s|]; [|intros _; exists (getLength doc); by split_and!].
  intros [y Hy]. apply getContainingSegment_inv in Hy as (_ & ? & ? & p & Hp & ? & ?).
  exists (p + refOffset r). unfold toPosition, mergeTree_getPosition. rewrite Hp.
  split_and!; [done|lia|lia|done].
Qed.

Lemma relocate_anchored move doc doc' r :
  registered (relocate move doc doc' r) = registered r
  ∧ (registered r = true → anchored doc' (relocate move doc doc' r)).
Proof.
  unfold relocate. destruct (registered r) eqn:Hreg; [|by split].
  destruct (refSegment r) as [s|] eqn:Hs; [|split; [done|]; intros _;
                                             unfold anchored; by rewrite Hs].
  destruct (positionOf doc (segId s) ≫= _) as [y|]; [|by split].
  destruct (getContainingSegment doc' y) as [[s' off]|] eqn:Hy; [|by split].
  split; [done|]. intros _. unfold anchored. simpl. by exists y.
Qed.

Lemma refsAnchored_relocate move doc' (w w' : World) :
  refsAnchored w →
  mergeTree w' = doc' →
  localRefs w' = relocate move (mergeTree w) doc' <$> localRefs w →
  refsAnchored w'.
Proof.
  intros Hinv Hdoc Hrefs h r Hh Hreg. rewrite Hdoc. rewrite Hrefs in Hh.
  rewrite lookup_fmap in Hh.
  destruct (localRefs w !! h) as [r0|]; [|discriminate]. injection Hh as <-.
  destruct (relocate_anchored move (mergeTree w) doc' r0) as [Hr Ha].
  apply Ha. by rewrite <- Hr.
Qed.

Lemma storeApply_refsAnchored w op w' :
  refsAnchored w → storeApply w op = Ok w' → refsAnchored w'.
Proof.
  intros Hinv Happ. unfold storeApply in Happ.
  apply bind_Ok in Happ as (st' & _ & [= <-]).
  by eapply refsAnchored_relocate.
Qed.

Lemma storeApplyAll_refsAnchored ops :
  ∀ w w', refsAnchored w → storeApplyAll w ops = Ok w' → refsAnchored w'.
Proof.
  induction ops as [|op ops IH]; intros w w' Hinv Happ; simpl in Happ.
  - by injection Happ as <-.
  - apply bind_Ok in Happ as (w1 & Hw1 & Happ).
    eapply IH; [|done]. by eapply storeApply_refsAnchored.
Qed.

Lemma groupOperation_refsAnchored ops w w' :
  refsAnchored w → groupOperation ops w = Ok w' → refsAnchored w'.
Proof.
  intros Hinv Hgrp. unfold groupOperation in Hgrp.
  apply bind_Ok in Hgrp as (w1 & Hw1 & [= <-]).
  apply storeApplyAll_refsAnchored in Hw1; [|done].
  intros h r Hh Hreg. by eapply Hw1.
Qed.

Lemma annotate_refsAnchored start end_ cl w :
  refsAnchored w → refsAnchored (annotate start end_ cl w).
Proof. intros Hinv. by eapply (refsAnchored_relocate Some). Qed.

Lemma updateCssClassList_refsAnchored {S} start end_
    (callback : option string → S → option string * S) s0 w s1 w' :
  refsAnchored w → updateCssClassList start end_ callback s0 w = Ok (s1, w') →
  refsAnchored w'.
Proof.
  intros Hinv Hupd. unfold updateCssClassList in Hupd.
  apply bind_Ok in Hupd as ([s updates] & _ & [= _ <-]).
  clear s. revert w Hinv.
  induction updates as [|[span cl] updates IH]; intros w Hinv; simpl; [done|].
  apply IH. by apply annotate_refsAnchored.
Qed.

Lemma addCssClass_refsAnchored start end_ classNames w w' :
  refsAnchored w → addCssClass start end_ classNames w = Ok w' → refsAnchored w'.
Proof.
  intros Hinv Hadd. unfold addCssClass in Hadd. case_decide; [|by injection Hadd as <-].
  destruct (updateCssClassList _ _ _ _ _) as [[s w1]|] eqn:Hupd; [|done].
  injection Hadd as <-. by eapply updateCssClassList_refsAnchored.
Qed.

Lemma removeCssClass_refsAnchored start end_ classNames w w' :
  refsAnchored w → removeCssClass start end_ classNames w = Ok w' → refsAnchored w'.
Proof.
  intros Hinv Hrem. unfold removeCssClass in Hrem.
  destruct (updateCssClassList _ _ _ _ _) as [[s w1]|] eqn:Hupd; [|done].
  injection Hrem as <-. by eapply updateCssClassList_refsAnchored.
Qed.

(** Every operation keeps the registered references anchored. *)
Lemma step_refsAnchored w w' : step w w' → refsAnchored w → refsAnchored w'.
Proof.
  intros Hstep Hinv.
  destruct Hstep as [position w h w' Hadd|h w|ops w w' Hgrp
                    |randomId tags start end_ w w' Hins|a b cl w
                    |a b classNames w w' Hcss|a b classNames w w' Hcss
                    |a b classNames w w' Hcss].
  - unfold addLocalRef in Hadd.
    destruct (FlowDocument_length w <=? position).
    + injection Hadd as <- <-. intros h r Hh Hreg. cbn [localRefs mergeTree sharedString] in *.
      apply lookup_insert_Some in Hh as [[_ <-]|[_ Hh]]; [done|by eapply Hinv].
    + apply bind_Ok in Hadd as ([segment offset] & Hso & [= <- <-]).
      intros h r Hh Hreg. cbn [localRefs mergeTree sharedString] in *.
      apply lookup_insert_Some in Hh as [[_ <-]|[_ Hh]]; [|by eapply Hinv].
      unfold anchored. simpl. destruct segment as [s|]; [|done].
      unfold getSegmentAndOffset in Hso. case_decide; [done|].
      apply bind_Ok in Hso as ([s' off] & Hc & [= <- <-]). by eexists.
  - unfold removeLocalRef. destruct (localRefs w !! h) as [[[s|] off ty reg]|] eqn:Hh0;
      [|done|done].
    intros h' r Hh Hreg. cbn [localRefs mergeTree sharedString] in *.
    apply lookup_insert_Some in Hh as [[_ <-]|[_ Hh]]; [done|by eapply Hinv].
  - by eapply groupOperation_refsAnchored.
  - unfold insertTags in Hins. eapply groupOperation_refsAnchored; [|exact Hins].
    intros h r Hh Hreg. by eapply Hinv.
  - by apply annotate_refsAnchored.
  - by eapply addCssClass_refsAnchored.
  - by eapply removeCssClass_refsAnchored.
  - unfold toggleCssClass, toggleScan in Hcss.
    apply bind_Ok in Hcss as ([[toAdd toRemove] w1] & Hscan & Hcss).
    apply bind_Ok in Hcss as (w2 & Hrem & Hadd).
    eapply addCssClass_refsAnchored; [|exact Hadd].
    eapply removeCssClass_refsAnchored; [|exact Hrem].
    by eapply updateCssClassList_refsAnchored.
Qed.

(** C7: creating a reference at or past the end gives the reference to the
    end of the document and registers nothing; creating it before the end
    registers a slide-on-remove reference at the segment and offset of the
    position; and whatever the document goes through afterwards, every
    reference in use resolves, to a position of the document, the
    reference to the end resolving to the length. *)
Theorem localRefs_resolve :
  (∀ position w,
     FlowDocument_length w <= position →
     addLocalRef position w
     = Ok (nextRef w,
           mkWorld (sharedString w)
             (<[nextRef w := mkRef endOfTextSegment 0 ReferenceType.Simple false]>
                (localRefs w))
             (S (nextRef w)) (idsDrawn w) (calls w)))
  ∧ (∀ position w,
       0 <= position < FlowDocument_length w →
       ∃ s offset,
         getSegmentAndOffset (mergeTree w) position = Ok (Some s, offset)
         ∧ addLocalRef position w
           = Ok (nextRef w,
                 mkWorld (sharedString w)
                   (<[nextRef w := mkRef (Some s) offset ReferenceType.SlideOnRemove true]>
                      (localRefs w))
                   (S (nextRef w)) (idsDrawn w) (calls w)))
  ∧ (∀ w w' h r,
       refsAnchored w → rtc step w w' →
       localRefs w' !! h = Some r → inUse r →
       ∃ p, localRefToPosition (mergeTree w') r = Ok p
            ∧ 0 <= p <= FlowDocument_length w'
            ∧ (refSegment r = None → p = FlowDocument_length w')).
Proof.
  split_and!.
  - intros position w Hp. unfold addLocalRef.
    by destruct (Z.leb_spec (FlowDocument_length w) position); [|lia].
  - intros position w Hp. unfold addLocalRef, FlowDocument_length in *.
    destruct (Z.leb_spec (getLength (mergeTree w)) position); [lia|].
    destruct (getContainingSegment_total _ _ Hp) as (s & off & Hc).
    exists s, off. unfold getSegmentAndOffset.
    rewrite decide_False by lia. by rewrite Hc.
  - intros w w' h r Hinv Hsteps Hh Huse.
    assert (refsAnchored w') as Hinv'.
    { induction Hsteps as [|w w1 w' Hstep _ IH]; [done|].
      apply IH; [|done]. by eapply step_refsAnchored. }
    apply anchored_resolves. destruct Huse as [Hreg|Hnone].
    + by eapply Hinv'.
    + unfold anchored. by rewrite Hnone.
Qed.

(** ** Positions next to segment boundaries *)

Lemma getContainingSegment_app_l l1 l2 :
  ∀ x, 0 <= x < getLength l1 →
       getContainingSegment (l1 ++ l2) x = getContainingSegment l1 x.
Proof.
  induction l1 as [|s l1 IH]; intros x Hx; simpl in *; [lia|].
  destruct (x <? 0); [done|].
  destruct (Z.ltb_spec x (cachedLength s)); [done|]. apply IH. lia.
Qed.

Lemma getContainingSegment_app_r l1 l2 :
  ∀ x, 0 <= x →
       getContainingSegment (l1 ++ l2) (getLength l1 + x) = getContainingSegment l2 x.
Proof.
  induction l1 as [|s l1 IH]; intros x Hx; simpl.
  - done.
  - pose proof (cachedLength_nonneg s). pose proof (getLength_nonneg l1).
    destruct (Z.ltb_spec (cachedLength s + getLength l1 + x) 0); [lia|].
    destruct (Z.ltb_spec (cachedLength s + getLength l1 + x) (cachedLength s)).
    + assert (getLength l1 = 0 ∧ x = 0) as [Hl ->] by lia. lia.
    + replace (cachedLength s + getLength l1 + x - cachedLength s)
        with (getLength l1 + x) by lia.
      by apply IH.
Qed.

(** The last position of a sequence is the last position of its owner. *)
Lemma getContainingSegment_last doc :
  0 < getLength doc →
  ∃ s, getContainingSegment doc (getLength doc - 1) = Ok (s, cachedLength s - 1).
Proof.
  induction doc as [|s doc IH]; simpl; [lia|]. intros Hlen.
  pose proof (cachedLength_nonneg s). pose proof (getLength_nonneg doc).
  destruct (Z.ltb_spec (cachedLength s + getLength doc - 1) 0); [lia|].
  destruct (Z.ltb_spec (cachedLength s + getLength doc - 1) (cachedLength s)).
  - exists s. do 2 f_equal. lia.
  - destruct IH as [s' Hs']; [lia|]. exists s'.
    by replace (cachedLength s + getLength doc - 1 - cachedLength s)
      with (getLength doc - 1) by lia.
Qed.

Lemma positionOf_split doc s p :
  distinctSegments doc → s ∈ doc → positionOf doc (segId s) = Some p →
  ∃ l1 l2, doc = l1 ++ s :: l2 ∧ getLength l1 = p.
Proof.
  intros Hnd Hin Hp.
  destruct (positionOf_Some _ _ _ Hp) as (l1 & s' & l2 & -> & Hs & Hl & Hn).
  exists l1, l2. split; [|done]. do 2 f_equal.
  unfold distinctSegments in Hnd. rewrite fmap_app, fmap_cons in Hnd.
  apply NoDup_app in Hnd as (_ & _ & [Hn2 _]%NoDup_cons).
  apply elem_of_app in Hin as [Hin|[->|Hin]%elem_of_cons]; [|done|].
  - exfalso. apply Hn. by apply list_elem_of_fmap_2.
  - exfalso. apply Hn2. rewrite Hs. by apply list_elem_of_fmap_2.
Qed.

(** An anchored reference resolves to the position its segment owns at
    its offset. *)
Lemma anchored_owner doc s off :
  distinctSegments doc →
  (∃ y, getContainingSegment doc y = Ok (s, off)) →
  ∃ l1 l2, doc = l1 ++ s :: l2
           ∧ positionOf doc (segId s) = Some (getLength l1)
           ∧ 0 <= off < cachedLength s
           ∧ getContainingSegment doc (getLength l1 + off) = Ok (s, off).
Proof.
  intros Hnd [y Hy].
  apply getContainingSegment_inv in Hy as (Hin & Hoff & _ & p & Hp & _ & _).
  destruct (positionOf_split _ _ _ Hnd Hin Hp) as (l1 & l2 & -> & <-).
  exists l1, l2. split_and!; [done|done|lia|lia|].
  rewrite getContainingSegment_app_r by lia. simpl.
  destruct (Z.ltb_spec off 0); [lia|].
  by destruct (Z.ltb_spec off (cachedLength s)); [|lia].
Qed.

Lemma kind_not_text_length s kind :
  getDocSegmentKind (Some s) = Ok kind → kind ≠ text → cachedLength s = 1.
Proof. destruct s; simpl; [|done]. by intros [= <-]. Qed.

Lemma kind_text_iff s kind :
  getDocSegmentKind (Some s) = Ok kind →
  kind = text ↔ getDocSegmentKind (Some s) = Ok text.
Proof. intros ->. split; [by intros ->|by intros [= ->]]. Qed.

Section Caret_facts.
Context {Node : Type} `{EqDecision Node}.
Variable layout : option ISegment → Z → Node * Z.

  (** Before a boundary at [position], the caret goes to the end of the
      segment that ends there. *)
Lemma left_of_boundary doc l1 l2 ref pres position rightKind rightSegment rightOffset :
    knownKinds doc →
    doc = l1 ++ l2 → getLength l1 = position →
    localRefToPosition doc ref = Ok position →
    getSegmentAndOffset doc position = Ok (rightSegment, rightOffset) →
    getDocSegmentKind (refSegment ref) = Ok rightKind →
    ¬ (position = 0 ∨ rightKind = text) →
    ∃ leftSegment leftOffset,
      getSegmentAndOffset doc (position - 1) = Ok (Some leftSegment, leftOffset)
      ∧ leftOffset = cachedLength leftSegment - 1
      ∧ positionToNodeOffset layout doc ref pres
        = Ok (mapToNode layout (Some leftSegment)
                (if decide (getDocSegmentKind (Some leftSegment) = Ok text)
                 then cachedLength leftSegment else 0) pres).
  Proof.
    intros Hkinds Hdoc Hl1 Hpos Hright Hkind Hnot.
    pose proof (getLength_nonneg l1). pose proof (getLength_nonneg l2).
    assert (0 < getLength l1) as Hpos1 by lia.
    destruct (getContainingSegment_last l1 Hpos1) as [ls Hls].
    assert (getSegmentAndOffset doc (position - 1)
            = Ok (Some ls, cachedLength ls - 1)) as Hleft.
    { unfold getSegmentAndOffset. rewrite decide_False.
      - rewrite Hdoc, getContainingSegment_app_l, <- Hl1, Hls by lia. done.
      - rewrite Hdoc, getLength_app. lia. }
    assert (ls ∈ doc) as Hin.
    { apply getContainingSegment_inv in Hls as (? & _). rewrite Hdoc.
      apply elem_of_app. by left. }
    unfold knownKinds in Hkinds. rewrite Forall_forall in Hkinds.
    destruct (Hkinds _ Hin) as [leftKind HleftKind].
    exists ls, (cachedLength ls - 1). split_and!; [done|done|].
    unfold positionToNodeOffset. rewrite Hpos. cbn [mbind result_bind].
    rewrite Hright. cbn [mbind result_bind]. rewrite Hkind. cbn [mbind result_bind].
    rewrite decide_False by done. rewrite Hleft. cbn [mbind result_bind].
    rewrite HleftKind. cbn [mbind result_bind]. do 2 f_equal.
    destruct (decide (leftKind = text)) as [->|Hne].
    - rewrite decide_True by done. lia.
    - rewrite decide_False by (by intros [= ?]).
      rewrite (kind_not_text_length _ _ HleftKind Hne). lia.
  Qed.

(** C9: the forward mapping of a reference the document anchors.  When
    the reference resolves to position 0, or to a position that a text
    segment owns, the node and the offset are those the layout gives for
    the owning segment and the offset in it.  Otherwise they are those of
    the segment that ends at [position - 1]: at its length when that
    segment is text, at 0 when it is not. *)
Theorem positionToNodeOffset_forward doc ref (pres : Presentation Node) :
    distinctSegments doc → knownKinds doc → anchored doc ref →
    ∃ position segment offset,
      localRefToPosition doc ref = Ok position
      ∧ getSegmentAndOffset doc position = Ok (segment, offset)
      ∧ (position = 0 ∨ getDocSegmentKind segment = Ok text →
           positionToNodeOffset layout doc ref pres
           = Ok (mapToNode layout segment offset pres))
      ∧ (¬ (position = 0 ∨ getDocSegmentKind segment = Ok text) →
           ∃ leftSegment leftOffset,
             getSegmentAndOffset doc (position - 1) = Ok (Some leftSegment, leftOffset)
             ∧ leftOffset = cachedLength leftSegment - 1
             ∧ positionToNodeOffset layout doc ref pres
               = Ok (mapToNode layout (Some leftSegment)
                       (if decide (getDocSegmentKind (Some leftSegment) = Ok text)
                        then cachedLength leftSegment else 0) pres)).
  Proof.
    intros Hnd Hkinds Hanch. unfold anchored in Hanch.
    destruct (refSegment ref) as [s|] eqn:Hseg.
    - destruct (anchored_owner _ _ _ Hnd Hanch) as (l1 & l2 & Hdoc & Hp & Hoff & Hown).
      assert (s ∈ doc) as Hin by (rewrite Hdoc; apply elem_of_app; right; left).
      unfold knownKinds in Hkinds. pose proof Hkinds as Hkinds'.
      rewrite Forall_forall in Hkinds'. destruct (Hkinds' _ Hin) as [kind Hkind].
      assert (localRefToPosition doc ref = Ok (getLength l1 + refOffset ref)) as Hpos.
      { unfold localRefToPosition, toPosition, mergeTree_getPosition.
        by rewrite Hseg, Hp. }
      assert (getSegmentAndOffset doc (getLength l1 + refOffset ref)
              = Ok (Some s, refOffset ref)) as Hright.
      { unfold getSegmentAndOffset. rewrite decide_False, Hown; [done|].
        rewrite Hdoc, getLength_app. simpl. pose proof (getLength_nonneg l2). lia. }
      exists (getLength l1 + refOffset ref), (Some s), (refOffset ref).
      split_and!; [done|done| |].
      + intros Hdirect. unfold positionToNodeOffset.
        rewrite Hpos. cbn [mbind result_bind]. rewrite Hright. cbn [mbind result_bind].
        rewrite Hseg, Hkind. cbn [mbind result_bind].
        rewrite decide_True; [done|].
        destruct Hdirect as [?|Ht]; [by left|right]. congruence.
      + intros Hnot.
        assert (kind ≠ text) as Hne by (intros ->; apply Hnot; by right).
        pose proof (kind_not_text_length _ _ Hkind Hne) as Hone.
        assert (refOffset ref = 0) as Hzero by lia.
        rewrite Hzero, Z.add_0_r in *.
        change (l1 ++ s :: l2) with (l1 ++ (s :: l2)) in Hdoc.
        eapply (left_of_boundary doc l1 (s :: l2)); try done.
        * by rewrite Hseg.
        * intros [?|?]; [|done]. apply Hnot. by left.
    - pose proof (getLength_nonneg doc).
      exists (getLength doc), None, 0.
      assert (localRefToPosition doc ref = Ok (getLength doc)) as Hpos.
      { unfold localRefToPosition. by rewrite Hseg. }
      assert (getSegmentAndOffset doc (getLength doc) = Ok (None, 0)) as Hright.
      { unfold getSegmentAndOffset. by rewrite decide_True. }
      split_and!; [done|done| |].
      + intros [Hzero|?]; [|done]. unfold positionToNodeOffset.
        rewrite Hpos. cbn [mbind result_bind]. rewrite Hright. cbn [mbind result_bind].
        rewrite Hseg. cbn [getDocSegmentKind mbind result_bind].
        rewrite decide_True; [done|by left].
      + intros Hnot.
        eapply (left_of_boundary doc doc []); try done.
        * by rewrite app_nil_r.
        * by rewrite Hseg.
        * intros [?|?]; [|done]. apply Hnot. by left.
  Qed.
End Caret_facts.

Section Caret_sync.
Context {Node : Type} `{EqDecision Node}.
Variable layout : option ISegment → Z → Node * Z.

  (** Where a reference maps to does not depend on the presentation
      layer; each mapping is one call of the layout. *)
Lemma positionToNodeOffset_target doc ref (pres : Presentation Node) result pres' :
    positionToNodeOffset layout doc ref pres = Ok (result, pres') →
    ∃ segment offset,
      ∀ pres0, positionToNodeOffset layout doc ref pres0
               = Ok (mapToNode layout segment offset pres0).
  Proof.
    unfold positionToNodeOffset. intros Hp.
    destruct (localRefToPosition doc ref) as [position|]; [|done].
    cbn [mbind result_bind] in *.
    destruct (getSegmentAndOffset doc position) as [[rightSegment rightOffset]|]; [|done].
    cbn [mbind result_bind] in *.
    destruct (getDocSegmentKind (refSegment ref)) as [rightKind|]; [|done].
    cbn [mbind result_bind] in *.
    case_decide; [by eexists _, _|].
    destruct (getSegmentAndOffset doc (position - 1)) as [[leftSegment leftOffset]|];
      [|done].
    cbn [mbind result_bind] in *.
    destruct (getDocSegmentKind leftSegment) as [leftKind|]; [|done].
    by eexists _, _.
  Qed.

(** C8, as the code has it: a second [sync] with nothing changed in
    between maps the two references again, finds the external selection
    where it would put it, and leaves it alone: two calls of the layout,
    no [setBaseAndExtent], the selection as it was. *)
Theorem sync_twice doc caret (pres pres1 : Presentation Node) :
    sync layout doc caret pres = Ok pres1 →
    ∃ startSegment startOffset endSegment endOffset,
      sync layout doc caret pres1
      = Ok (mkPresentation (selection pres1)
              (effects pres1 ++ [MapToNode startSegment startOffset;
                                 MapToNode endSegment endOffset])).
  Proof.
    unfold sync. intros Hsync.
    destruct (positionToNodeOffset layout doc (startRef caret) pres)
      as [[[startNode startOffset] presA]|] eqn:Hstart; [|done].
    destruct (positionToNodeOffset_target _ _ _ _ _ Hstart) as (s1 & o1 & Hs).
    rewrite Hs in Hstart. injection Hstart as Hn1 <-.
    cbn [mbind result_bind] in Hsync.
    destruct (positionToNodeOffset layout doc (endRef caret) _)
      as [[[endNode endOffset] presB]|] eqn:Hend; [|done].
    destruct (positionToNodeOffset_target _ _ _ _ _ Hend) as (s2 & o2 & He).
    rewrite He in Hend. injection Hend as Hn2 <-.
    cbn [mbind result_bind] in Hsync.
    exists s1, o1, s2, o2.
    rewrite Hs. unfold mapToNode at 1. rewrite Hn1. cbn [mbind result_bind].
    rewrite He. unfold mapToNode at 1. rewrite Hn2. cbn [mbind result_bind].
    cbn [mapToNode selection effects fst snd] in *.
    assert (selection pres1 = mkSelection (Some startNode) startOffset
                                (Some endNode) endOffset) as Hsel.
    { case_decide as Hdiff.
      - by injection Hsync as <-.
      - injection Hsync as <-. simpl.
        destruct (selection pres) as [an ao fn fo]. simpl in Hdiff.
        destruct (decide (endOffset = fo)) as [->|]; [|tauto].
        destruct (decide (Some endNode = fn)) as [<-|]; [|tauto].
        destruct (decide (startOffset = ao)) as [->|]; [|tauto].
        destruct (decide (Some startNode = an)) as [<-|]; [|tauto].
        done. }
    rewrite Hsel. cbn [focusOffset focusNode anchorOffset anchorNode].
    rewrite decide_False by tauto.
    by rewrite <- app_assoc.
  Qed.
End Caret_sync.

(** ** The theorems at work on the example documents *)

Lemma scenario2_distinct : distinctSegments scenario2.
Proof. unfold distinctSegments. by_computation. Defined.

Lemma scenario2_uniqueEnds : uniqueEnds scenario2.
Proof. unfold uniqueEnds. by_computation. Defined.

Lemma remove_begin_removes_end_witness :
  distinctSegments scenario2 ∧ uniqueEnds scenario2
  ∧ 0 <= 0 ∧ 2 <= getLength scenario2
  ∧ 0 <= getLength [] < 2
  ∧ getDocSegmentKind (Some scenario2Begin) = Ok beginTags
  ∧ getEnd scenario2 scenario2Begin = Ok (Some scenario2End)
  ∧ getPosition scenario2 (Some scenario2End) = Ok 3
  ∧ 2 <= 3
  ∧ ∃ ops st',
      [GroupOperation [RemoveRangeOp 3 4; RemoveRangeOp 0 2]] = [GroupOperation ops]
      ∧ RemoveRangeOp 3 (3 + 1) ∈ ops
      ∧ applyGroup (mkStore scenario2 3) ops = Ok st'
      ∧ segId scenario2End ∉ markerIds (segments st').
Proof.
  split_and!;
    try first [exact scenario2_distinct|exact scenario2_uniqueEnds|reflexivity
              |simpl; lia].
  apply (proj1 remove_begin_removes_end 0 2 (mkStore scenario2 3)
           [] scenario2Begin [TextSegment 1 "AB" empty; scenario2End] scenario2End 3);
    [exact scenario2_distinct|exact scenario2_uniqueEnds|lia|simpl; lia|reflexivity
    |simpl; lia|reflexivity|reflexivity|reflexivity|lia|vm_compute; reflexivity].
Defined.

Lemma remove_preserves_end_tag_witness :
  taggedThenText = [scenario2Begin; TextSegment 1 "A" empty]
                   ++ scenario2End :: [TextSegment 3 "B" empty]
  ∧ 1 <= getLength [scenario2Begin; TextSegment 1 "A" empty] < 4
  ∧ getDocSegmentKind (Some scenario2End) = Ok endTags
  ∧ getStart taggedThenText scenario2End = Ok (Some scenario2Begin)
  ∧ getPosition taggedThenText (Some scenario2Begin) = Ok 0
  ∧ 0 < 1
  ∧ removeScan 1 4 taggedThenText = Ok (3, [RemoveRangeOp 1 2])
  ∧ 2 + 1 <= 3 <= 4
  ∧ ∃ submitted,
      remove 1 4 taggedThenText = Ok [GroupOperation submitted]
      ∧ submitted ≡ₚ [RemoveRangeOp 1 2]
                     ++ (if bool_decide (3 < 4) then [RemoveRangeOp 3 4] else [])
      ∧ ∀ op, op ∈ submitted → ¬ (pos1 op <= 2 < pos2 op).
Proof.
  assert (removeScan 1 4 taggedThenText = Ok (3, [RemoveRangeOp 1 2])) as Hscan
    by (vm_compute; reflexivity).
  split_and!; try first [reflexivity|exact Hscan|simpl; lia];
    apply (remove_preserves_end_tag 1 4 taggedThenText
             [scenario2Begin; TextSegment 1 "A" empty] scenario2End
             [TextSegment 3 "B" empty] (Some scenario2Begin) 0 3 [RemoveRangeOp 1 2]);
    first [reflexivity|exact Hscan|simpl; lia].
Defined.

Lemma remove_submits_one_sorted_group_witness :
  uniqueEnds scenario2
  ∧ remove 0 2 scenario2 = Ok [GroupOperation [RemoveRangeOp 3 4; RemoveRangeOp 0 2]]
  ∧ ∃ start' scanned ops,
      removeScan 0 2 scenario2 = Ok (start', scanned)
      ∧ [GroupOperation [RemoveRangeOp 3 4; RemoveRangeOp 0 2]] = [GroupOperation ops]
      ∧ ops ≡ₚ scanned ++ (if decide (start' ≠ 2)
                           then [RemoveRangeOp start' 2] else [])
      ∧ StronglySorted descending ops
      ∧ ForallOrdPairs rangesDisjoint ops.
Proof.
  split_and!; [exact scenario2_uniqueEnds|vm_compute; reflexivity|].
  apply (proj1 (remove_submits_one_sorted_group 0 2 scenario2 scenario2_uniqueEnds)).
  vm_compute; reflexivity.
Defined.

Lemma getPosition_getSegmentAndOffset_witness :
  distinctSegments scenario2 ∧ 0 <= 2 <= getLength scenario2
  ∧ ∃ segment offset,
      getSegmentAndOffset scenario2 2 = Ok (segment, offset)
      ∧ (fun start => start + offset) <$> getPosition scenario2 segment = Ok 2
      ∧ (2 = getLength scenario2 → segment = endOfTextSegment ∧ offset = 0).
Proof.
  split_and!; try first [exact scenario2_distinct|simpl; lia].
  apply getPosition_getSegmentAndOffset; [exact scenario2_distinct|simpl; lia].
Defined.

(** C4 as the specification words it: the segment alone does not lead back
    to a position inside a text segment. *)
Lemma roundtrip_without_offset_fails :
  (getSegmentAndOffset [TextSegment 0 "AB" empty] 1
     ≫= fun '(segment, _) => getPosition [TextSegment 0 "AB" empty] segment)
  = Ok 0
  ∧ (getSegmentAndOffset [TextSegment 0 "AB" empty] 1
       ≫= fun '(segment, _) => getPosition [TextSegment 0 "AB" empty] segment)
    ≠ Ok 1.
Proof. split; [reflexivity|discriminate]. Qed.

Lemma insertTags_end_before_begin_witness :
  0 <= 0 <= FlowDocument_length plainText
  ∧ 0 <= default 0 (Some 4) <= FlowDocument_length plainText
  ∧ ∃ w' endMarker beginMarker,
      insertTags exampleId ["b"] 0 (Some 4) plainText = Ok w'
      ∧ idsDrawn w' = S (idsDrawn plainText)
      ∧ calls w' = calls plainText
                   ++ [GroupOperation [InsertSegmentOp (default 0 (Some 4)) endMarker;
                                       InsertSegmentOp 0 beginMarker]]
      ∧ getId endMarker = Some ("end-" +:+ exampleId (idsDrawn plainText))
      ∧ getId beginMarker = Some ("begin-" +:+ exampleId (idsDrawn plainText))
      ∧ getDocSegmentKind (Some endMarker) = Ok endTags
      ∧ getDocSegmentKind (Some beginMarker) = Ok beginTags
      ∧ tags (properties beginMarker) = ["b"]
      ∧ segId endMarker ≠ segId beginMarker.
Proof.
  assert (0 <= 0 <= FlowDocument_length plainText) as H0 by (vm_compute; split; discriminate).
  assert (0 <= default 0 (Some 4) <= FlowDocument_length plainText) as H4
    by (vm_compute; split; discriminate).
  split_and!; [apply H0|apply H0|apply H4|apply H4|].
  exact (insertTags_end_before_begin exampleId ["b"] 0 (Some 4) plainText H0 H4).
Defined.

Lemma getEnd_getStart_opposite_witness :
  0 <= 0 <= FlowDocument_length plainText
  ∧ 0 <= default 0 (Some 4) <= FlowDocument_length plainText
  ∧ idToSegment (mergeTree plainText) ("begin-" +:+ exampleId (idsDrawn plainText)) = None
  ∧ idToSegment (mergeTree plainText) ("end-" +:+ exampleId (idsDrawn plainText)) = None
  ∧ "end" +:+ slice 5 ("begin-" +:+ exampleId (idsDrawn plainText))
    = "end-" +:+ exampleId (idsDrawn plainText)
  ∧ "begin" +:+ slice 3 ("end-" +:+ exampleId (idsDrawn plainText))
    = "begin-" +:+ exampleId (idsDrawn plainText)
  ∧ ∃ w' beginMarker endMarker,
      insertTags exampleId ["b"] 0 (Some 4) plainText = Ok w'
      ∧ beginMarker ∈ mergeTree w' ∧ endMarker ∈ mergeTree w'
      ∧ getId beginMarker = Some ("begin-" +:+ exampleId (idsDrawn plainText))
      ∧ getId endMarker = Some ("end-" +:+ exampleId (idsDrawn plainText))
      ∧ getEnd (mergeTree w') beginMarker = Ok (Some endMarker)
      ∧ getStart (mergeTree w') endMarker = Ok (Some beginMarker)
      ∧ (getEnd (mergeTree w') beginMarker
           ≫= from_option (getStart (mergeTree w')) (Ok None))
        = Ok (Some beginMarker)
      ∧ (getStart (mergeTree w') endMarker
           ≫= from_option (getEnd (mergeTree w')) (Ok None))
        = Ok (Some endMarker).
Proof.
  assert (0 <= 0 <= FlowDocument_length plainText) as H0 by (vm_compute; split; discriminate).
  assert (0 <= default 0 (Some 4) <= FlowDocument_length plainText) as H4
    by (vm_compute; split; discriminate).
  split_and!; [apply H0|apply H0|apply H4|apply H4|reflexivity|reflexivity|..];
    apply (getEnd_getStart_opposite exampleId ["b"] 0 (Some 4) plainText H0 H4
             eq_refl eq_refl).
Defined.

(** C6 as the specification words it: after the toggle the second half
    does not carry "x", and one annotation was made, not two. *)
Lemma toggle_leaves_second_half_plain :
  ∃ w', toggleCssClass 0 4 ["x"] halfStyled = Ok w'
        ∧ (∃ s off, getContainingSegment (mergeTree w') 2 = Ok (s, off)
                    ∧ TokenList.has (classList (getCss s)) "x" = false)
        ∧ calls w' = [AnnotateRange 0 2 (Some EmptyString)].
Proof.
  eexists. split; [vm_compute; reflexivity|]. split; [|reflexivity].
  eexists _, _. split; reflexivity.
Qed.

Lemma localRefs_resolve_witness :
  FlowDocument_length plainText <= 4
  ∧ 0 <= 1 < FlowDocument_length plainText
  ∧ refsAnchored plainText
  ∧ rtc step plainText afterRemoval
  ∧ localRefs afterRemoval !! 0%nat = Some slidReference
  ∧ inUse slidReference
  ∧ addLocalRef 4 plainText
    = Ok (nextRef plainText,
          mkWorld (sharedString plainText)
            (<[nextRef plainText := mkRef endOfTextSegment 0 ReferenceType.Simple false]>
               (localRefs plainText))
            (S (nextRef plainText)) (idsDrawn plainText) (calls plainText))
  ∧ (∃ s offset,
       getSegmentAndOffset (mergeTree plainText) 1 = Ok (Some s, offset)
       ∧ addLocalRef 1 plainText
         = Ok (nextRef plainText,
               mkWorld (sharedString plainText)
                 (<[nextRef plainText := mkRef (Some s) offset
                                           ReferenceType.SlideOnRemove true]>
                    (localRefs plainText))
                 (S (nextRef plainText)) (idsDrawn plainText) (calls plainText)))
  ∧ ∃ p, localRefToPosition (mergeTree afterRemoval) slidReference = Ok p
         ∧ 0 <= p <= FlowDocument_length afterRemoval
         ∧ (refSegment slidReference = None → p = FlowDocument_length afterRemoval).
Proof.
  assert (FlowDocument_length plainText <= 4) as H4 by (vm_compute; discriminate).
  assert (0 <= 1 < FlowDocument_length plainText) as H1 by (vm_compute; split; [discriminate|reflexivity]).
  assert (refsAnchored plainText) as Hinv by (intros h r Hh; vm_compute in Hh; discriminate).
  assert (rtc step plainText afterRemoval) as Hsteps.
  { eapply rtc_l; [apply (step_addLocalRef 1 plainText 0 withReference);
                   vm_compute; reflexivity|].
    eapply rtc_l; [apply (step_groupOperation [RemoveRangeOp 0 2] withReference afterRemoval);
                   vm_compute; reflexivity|].
    apply rtc_refl. }
  assert (localRefs afterRemoval !! 0%nat = Some slidReference) as Hh
    by (vm_compute; reflexivity).
  assert (inUse slidReference) as Huse by (left; reflexivity).
  destruct localRefs_resolve as (Hend & Hin & Hres).
  split_and!; try first [exact Hinv|exact Hsteps|exact Hh|exact Huse|apply H4|apply H1].
  - exact (Hend 4 plainText H4).
  - exact (Hin 1 plainText H1).
  - exact (Hres plainText afterRemoval 0%nat slidReference Hinv Hsteps Hh Huse).
Defined.

Lemma scenario2_knownKinds : knownKinds scenario2.
Proof. repeat (constructor; [eexists; vm_compute; reflexivity|]). constructor. Defined.

Lemma positionToNodeOffset_forward_witness :
  distinctSegments scenario2 ∧ knownKinds scenario2
  ∧ anchored scenario2 (mkRef (Some scenario2End) 0 ReferenceType.SlideOnRemove true)
  ∧ ∃ position segment offset,
      localRefToPosition scenario2
        (mkRef (Some scenario2End) 0 ReferenceType.SlideOnRemove true) = Ok position
      ∧ getSegmentAndOffset scenario2 position = Ok (segment, offset)
      ∧ (position = 0 ∨ getDocSegmentKind segment = Ok text →
           positionToNodeOffset exampleLayout scenario2
             (mkRef (Some scenario2End) 0 ReferenceType.SlideOnRemove true) noSelection
           = Ok (mapToNode exampleLayout segment offset noSelection))
      ∧ (¬ (position = 0 ∨ getDocSegmentKind segment = Ok text) →
           ∃ leftSegment leftOffset,
             getSegmentAndOffset scenario2 (position - 1) = Ok (Some leftSegment, leftOffset)
             ∧ leftOffset = cachedLength leftSegment - 1
             ∧ positionToNodeOffset exampleLayout scenario2
                 (mkRef (Some scenario2End) 0 ReferenceType.SlideOnRemove true) noSelection
               = Ok (mapToNode exampleLayout (Some leftSegment)
                       (if decide (getDocSegmentKind (Some leftSegment) = Ok text)
                        then cachedLength leftSegment else 0) noSelection)).
Proof.
  assert (anchored scenario2 (mkRef (Some scenario2End) 0 ReferenceType.SlideOnRemove true))
    as Hanch by (exists 3; reflexivity).
  split_and!; [exact scenario2_distinct|exact scenario2_knownKinds|exact Hanch|].
  exact (positionToNodeOffset_forward exampleLayout scenario2 _ noSelection
           scenario2_distinct scenario2_knownKinds Hanch).
Defined.

(** The caret of the examples goes to the end of the text of scenario 2:
    the end tag is no text, so the mapping takes the segment before it. *)
Example positionToNodeOffset_before_end_tag :
  positionToNodeOffset exampleLayout scenario2
    (mkRef (Some scenario2End) 0 ReferenceType.SlideOnRemove true) noSelection
  = Ok (mapToNode exampleLayout (Some (TextSegment 1 "AB" empty)) 2 noSelection).
Proof. vm_compute. reflexivity. Qed.

Lemma sync_twice_witness :
  sync exampleLayout scenario2 exampleCaret noSelection = Ok synced
  ∧ ∃ startSegment startOffset endSegment endOffset,
      sync exampleLayout scenario2 exampleCaret synced
      = Ok (mkPresentation (selection synced)
              (effects synced ++ [MapToNode startSegment startOffset;
                                  MapToNode endSegment endOffset])).
Proof.
  assert (sync exampleLayout scenario2 exampleCaret noSelection = Ok synced) as Hsync
    by (vm_compute; reflexivity).
  split; [exact Hsync|].
  exact (sync_twice exampleLayout scenario2 exampleCaret noSelection synced Hsync).
Defined.

(** C8 as the specification words it: the second [sync] does call the
    coordinate mapping, twice. *)
Lemma second_sync_maps_again :
  ∃ again,
    sync exampleLayout scenario2 exampleCaret noSelection = Ok synced
    ∧ sync exampleLayout scenario2 exampleCaret synced = Ok again
    ∧ mappingCalls synced = 2%nat
    ∧ mappingCalls again = 4%nat
    ∧ mappingCalls again ≠ mappingCalls synced.
Proof.
  eexists. split_and!; [vm_compute; reflexivity|vm_compute; reflexivity
                       |reflexivity|reflexivity|discriminate].
Qed.

(** A reference created at 1 in "ABCD" resolves to 3 once two units have
    been inserted before it, and to 0 once its unit has been removed
    together with the one before it. *)
Example reference_follows_insertion :
  (fun w => (fun r => localRefToPosition (mergeTree w) r) <$> localRefs w !! 0%nat)
  <$> groupOperation [InsertSegmentOp 0 (TextSegment 7 "xy" empty)] withReference
  = Ok (Some (Ok 3)).
Proof. vm_compute. reflexivity. Qed.

Example reference_slides_on_removal :
  localRefToPosition (mergeTree afterRemoval) slidReference = Ok 0
  ∧ FlowDocument_length afterRemoval = 2.
Proof. split; vm_compute; reflexivity. Qed.

(** * More of the document, the caret and the channel connection *)

(** ** [remove] on ranges of whole tag pairs *)

Lemma removeLeaf_closedTag doc start end_ position s so eo ops :
  closedTag doc start end_ s →
  removeLeaf doc end_ position s so eo (start, ops) = Ok (true, (start, ops)).
Proof.
  unfold closedTag, removeLeaf.
  destruct (getDocSegmentKind (Some s)) as [kind|]; [|done].
  destruct kind; simpl; try done.
  - intros (e & q & -> & Hq & Hlt). simpl.
    unfold mergeTree_getPosition. rewrite Hq. simpl.
    by destruct (Z.ltb_spec q end_); [|lia].
  - intros (startTag & startPos & -> & Hp & Hle). simpl. rewrite Hp. simpl.
    by destruct (Z.leb_spec start startPos); [|lia].
Qed.

Lemma mapRange_closedTags doc start end_ rest :
  ∀ pos ops,
    Forall (fun v => closedTag doc start end_ v.1.1.2) (overlapping pos start end_ rest) →
    mapRange (removeLeaf doc end_) (start, ops) pos start end_ rest = Ok (start, ops).
Proof.
  induction rest as [|x rest IH]; intros pos ops Hall; [done|].
  cbn [mapRange]. cbn [overlapping] in Hall.
  destruct (_ <? _); [|by apply IH].
  apply Forall_app in Hall as [[Hx _]%Forall_cons Hall]. cbn [fst snd] in Hx.
  rewrite (removeLeaf_closedTag _ _ _ _ _ _ _ _ Hx). cbn [mbind result_bind].
  by apply IH.
Qed.

(** X1: a range that cuts no tag pair goes in one piece. *)
Theorem remove_whole_pairs start end_ doc :
  start < end_ →
  Forall (fun v => closedTag doc start end_ v.1.1.2) (visited start end_ doc) →
  remove start end_ doc = Ok [GroupOperation [RemoveRangeOp start end_]].
Proof.
  intros Hlt Hall. unfold remove, removeScan, visitRange. unfold visited in Hall.
  destruct (Z.ltb_spec start end_); [|lia]. simpl in *.
  rewrite mapRange_closedTags by done. simpl.
  rewrite decide_True by lia. done.
Qed.

Lemma remove_whole_pairs_witness :
  0 < 4
  ∧ Forall (fun v => closedTag scenario2 0 4 v.1.1.2) (visited 0 4 scenario2)
  ∧ remove 0 4 scenario2 = Ok [GroupOperation [RemoveRangeOp 0 4]].
Proof.
  assert (Forall (fun v => closedTag scenario2 0 4 v.1.1.2) (visited 0 4 scenario2))
    as Hall.
  { repeat constructor.
    - exists scenario2End, 3. split_and!; [reflexivity|reflexivity|lia].
    - exists (Some scenario2Begin), 0. split_and!; [reflexivity|reflexivity|lia]. }
  split_and!; [lia|exact Hall|].
  apply remove_whole_pairs; [lia|exact Hall].
Defined.

(** ** What [remove] takes away *)

Lemma covered_mono p ops ops' : ops ⊆ ops' → covered p ops → covered p ops'.
Proof. intros Hsub (op & Hin & Hp). exists op. split; [by apply Hsub|done]. Qed.

Lemma steppedOver_mono doc p ops ops' :
  ops ⊆ ops' → steppedOver doc p ops → steppedOver doc p ops'.
Proof.
  intros Hsub (l1 & e & l2 & st & sp & s & ? & ? & ? & ? & ? & ? & ? & Hin).
  exists l1, e, l2, st, sp, s. split_and!; try done. by apply Hsub.
Qed.

(** What lies between the start active before a stretch of the scan and
    the start active after it is removed by what the stretch pushes, or
    is an end tag the scan steps over. *)
Lemma scan_cover doc start end_ rest :
  ∀ prefix s ops st',
    doc = prefix ++ rest →
    s <= Z.max start (getLength prefix) →
    mapRange (removeLeaf doc end_) (s, ops) (getLength prefix) start end_ rest = Ok st' →
    ∃ s' new,
      st' = (s', ops ++ new)
      ∧ ∀ p, s <= p < s' → covered p new ∨ steppedOver doc p new.
Proof.
  induction rest as [|x rest IH]; intros prefix s ops st' Hdoc Hs Hscan.
  - simpl in Hscan. injection Hscan as <-. exists s, [].
    rewrite app_nil_r. split; [done|]. intros p Hp. lia.
  - cbn [mapRange] in Hscan.
    assert (getLength (prefix ++ [x]) = getLength prefix + cachedLength x) as Hlen.
    { rewrite getLength_app. simpl. lia. }
    pose proof (cachedLength_nonneg x) as Hx0.
    assert (doc = (prefix ++ [x]) ++ rest) as Hdoc' by (by rewrite <- app_assoc).
    destruct (Z.ltb_spec (Z.max 0 (start - getLength prefix))
                (Z.min (cachedLength x) (end_ - getLength prefix))) as [Hvis|Hnot].
    + apply bind_Ok in Hscan as ([go [s1 ops1]] & Hleaf & Hscan).
      apply (removeLeaf_spec _ _ _ _ 0 0) in Hleaf as [-> Hstep].
      rewrite <- Hlen in Hscan.
      inversion Hstep as [Hs1 Hops1|e q Hk He Hq Hqe Hs1 Hops1
                          |startTag startPos Hk Hst Hsp Hlt Hs1 Hops1]; subst s1 ops1.
      * destruct (IH (prefix ++ [x]) s ops st' Hdoc') as (s' & new & -> & Hcov);
          [lia|done|].
        by exists s', new.
      * destruct (IH (prefix ++ [x]) s (ops ++ [RemoveRangeOp q (q + 1)]) st' Hdoc')
          as (s' & new & -> & Hcov); [lia|done|].
        exists s', (RemoveRangeOp q (q + 1) :: new).
        split; [by rewrite <- app_assoc|].
        intros p Hp. destruct (Hcov p Hp) as [?|?]; [left|right].
        -- eapply covered_mono; [|done]. by apply list_subseteq_cons.
        -- eapply steppedOver_mono; [|done]. by apply list_subseteq_cons.
      * pose proof (kind_endTags_marker _ Hk) as Hx1.
        destruct (IH (prefix ++ [x]) (getLength prefix + 1)
                    (ops ++ [RemoveRangeOp s (getLength prefix)]) st' Hdoc')
          as (s' & new & -> & Hcov); [lia|done|].
        exists s', (RemoveRangeOp s (getLength prefix) :: new).
        split; [by rewrite <- app_assoc|].
        intros p Hp.
        destruct (Z.lt_trichotomy p (getLength prefix)) as [Hlt'|[->|Hgt]].
        -- left. exists (RemoveRangeOp s (getLength prefix)). split; [left|simpl; lia].
        -- right. exists prefix, x, rest, startTag, startPos, s.
           split_and!; try done; [lia|left].
        -- destruct (Hcov p) as [?|?]; [lia|left|right].
           ++ eapply covered_mono; [|done]. by apply list_subseteq_cons.
           ++ eapply steppedOver_mono; [|done]. by apply list_subseteq_cons.
    + rewrite <- Hlen in Hscan.
      destruct (IH (prefix ++ [x]) s ops st' Hdoc') as (s' & new & -> & Hcov);
        [lia|done|].
      by exists s', new.
Qed.



(** ** [remove] and a begin tag without its end tag *)



(** ** Where inserted segments are *)

Lemma positionOf_insertSegment_new fresh seg doc :
  segId seg ∉ segId <$> doc →
  ∀ p, 0 <= p <= getLength doc →
       positionOf (insertSegment fresh p seg doc) (segId seg) = Some p.
Proof.
  induction doc as [|s doc IH]; intros Hnew p Hp; simpl in *.
  - rewrite decide_True by done. f_equal. lia.
  - apply not_elem_of_cons in Hnew as [Hne Hnew].
    pose proof (cachedLength_nonneg s). pose proof (getLength_nonneg doc).
    destruct (Z.leb_spec p 0).
    + simpl. rewrite decide_True by done. f_equal. lia.
    + destruct (Z.ltb_spec p (cachedLength s)).
      * destruct s as [sid t props|sid rt props]; simpl in *; [|lia].
        rewrite decide_False by done. rewrite decide_True by done. simpl.
        rewrite length_sliceTo. f_equal. lia.
      * simpl. rewrite decide_False by done. rewrite IH by (done || lia).
        simpl. f_equal. lia.
Qed.

Lemma positionOf_insertSegment_after fresh seg doc i :
  i ≠ segId seg → i ≠ fresh →
  ∀ p q, positionOf doc i = Some q → p <= q →
         positionOf (insertSegment fresh p seg doc) i = Some (q + cachedLength seg).
Proof.
  intros Hseg Hfresh.
  induction doc as [|s doc IH]; intros p q Hq Hpq; simpl in *; [done|].
  pose proof (cachedLength_nonneg s).
  destruct (Z.leb_spec p 0).
  - simpl. rewrite decide_False by done. rewrite Hq. simpl. f_equal. lia.
  - destruct (decide (segId s = i)) as [Hi|Hi]; [injection Hq as <-; lia|].
    destruct (positionOf doc i) as [q'|] eqn:Hq'; [|done]. injection Hq as <-.
    destruct (Z.ltb_spec p (cachedLength s)).
    + destruct s as [sid t props|sid rt props]; simpl in *.
      * rewrite !decide_False by done. rewrite Hq'. simpl.
        pose proof (length_sliceTo_slice (Z.to_nat p) t). f_equal. lia.
      * rewrite !decide_False by done. rewrite Hq'. simpl. f_equal. lia.
    + simpl. rewrite decide_False by done.
      rewrite (IH (p - cachedLength s) q') by (done || lia). simpl. f_equal. lia.
Qed.

Lemma segIds_insertSegment fresh seg doc :
  ∀ p i, i ∈ segId <$> insertSegment fresh p seg doc →
         i = segId seg ∨ i = fresh ∨ i ∈ segId <$> doc.
Proof.
  induction doc as [|s doc IH]; intros p i; simpl.
  - intros ->%list_elem_of_singleton. by left.
  - destruct (p <=? 0).
    + rewrite !fmap_cons, !elem_of_cons. tauto.
    + destruct (p <? cachedLength s).
      * destruct s as [sid t props|sid rt props]; simpl;
          rewrite ?fmap_cons, ?elem_of_cons; tauto.
      * rewrite !fmap_cons, !elem_of_cons. intros [?|Hin]; [tauto|].
        destruct (IH _ _ Hin) as [?|[?|?]]; tauto.
Qed.

Lemma allocated_not_elem st (i : SegId) :
  allocated st → (nextSegId st <= i)%nat → i ∉ segId <$> segments st.
Proof.
  unfold allocated. rewrite Forall_forall. intros Hall Hi (s & -> & Hin)%list_elem_of_fmap.
  specialize (Hall _ Hin). lia.
Qed.

(** X4: with [start <= end], [insertTags] leaves the begin tag at
    [start] and the end tag at [end + 1], one unit further than asked
    because the begin tag went in before it: the begin tag precedes the
    end tag, with the [end - start] units of the range between them, and
    the document is two units longer. *)
Theorem insertTags_positions (randomId : nat → string) tagNames start end_ w :
  allocated (sharedString w) →
  0 <= start → start <= end_ → end_ <= FlowDocument_length w →
  ∃ w' beginMarker endMarker,
    insertTags randomId tagNames start (Some end_) w = Ok w'
    ∧ getDocSegmentKind (Some beginMarker) = Ok beginTags
    ∧ getDocSegmentKind (Some endMarker) = Ok endTags
    ∧ getPosition (mergeTree w') (Some beginMarker) = Ok start
    ∧ getPosition (mergeTree w') (Some endMarker) = Ok (end_ + 1)
    ∧ FlowDocument_length w' = FlowDocument_length w + 2.
Proof.
  intros Halloc H0 Hse Hend.
  destruct (insertTags_spec randomId tagNames start (Some end_) w)
    as (w' & Hw' & _ & _ & Hdoc); [lia|simpl; lia|].
  cbn [default from_option] in Hdoc. unfold id in Hdoc.
  set (fresh := nextSegId (sharedString w)) in *.
  set (endMarker := Marker fresh _ _) in *.
  set (beginMarker := Marker (S fresh) _ _) in *.
  set (doc1 := insertSegment (S (S fresh)) end_ endMarker (mergeTree w)) in *.
  unfold FlowDocument_length in *.
  assert (positionOf doc1 (segId endMarker) = Some end_) as He.
  { apply positionOf_insertSegment_new; [|lia].
    apply (allocated_not_elem (sharedString w)); [done|]. simpl. lia. }
  assert (segId beginMarker ∉ segId <$> doc1) as Hb.
  { intros [?|[?|Hin]]%segIds_insertSegment; simpl in *; [lia|lia|].
    revert Hin. apply (allocated_not_elem (sharedString w)); [done|]. fold fresh. lia. }
  exists w', beginMarker, endMarker.
  split_and!; [done|reflexivity|reflexivity| | |].
  - rewrite Hdoc. simpl. unfold mergeTree_getPosition.
    rewrite positionOf_insertSegment_new; [done|done|].
    unfold doc1. rewrite getLength_insertSegment. simpl. lia.
  - rewrite Hdoc. simpl. unfold mergeTree_getPosition.
    fold doc1.
    assert (segId endMarker ≠ segId beginMarker) as Hne
      by (unfold endMarker, beginMarker; simpl; lia).
    assert (segId endMarker ≠ S (S (S fresh))) as Hnf
      by (unfold endMarker; simpl; lia).
    by rewrite (positionOf_insertSegment_after (S (S (S fresh))) beginMarker doc1
                  (segId endMarker) Hne Hnf start end_ He Hse).
  - rewrite Hdoc. unfold doc1. rewrite !getLength_insertSegment. simpl. lia.
Qed.

Lemma plainText_allocated : allocated (sharedString plainText).
Proof. repeat constructor. Defined.

Lemma insertTags_positions_witness :
  allocated (sharedString plainText)
  ∧ 0 <= 1 ∧ 1 <= 3 ∧ 3 <= FlowDocument_length plainText
  ∧ ∃ w' beginMarker endMarker,
      insertTags exampleId ["b"] 1 (Some 3) plainText = Ok w'
      ∧ getDocSegmentKind (Some beginMarker) = Ok beginTags
      ∧ getDocSegmentKind (Some endMarker) = Ok endTags
      ∧ getPosition (mergeTree w') (Some beginMarker) = Ok 1
      ∧ getPosition (mergeTree w') (Some endMarker) = Ok (3 + 1)
      ∧ FlowDocument_length w' = FlowDocument_length plainText + 2.
Proof.
  assert (3 <= FlowDocument_length plainText) as H3 by (vm_compute; discriminate).
  split_and!; [exact plainText_allocated|lia|lia|exact H3|].
  apply insertTags_positions; [exact plainText_allocated|lia|lia|exact H3].
Defined.

(** ** toString *)

Example toString_scenario1 :
  (fun w => toString (mergeTree w))
  <$> insertTags exampleId ["b"] 0 (Some 4) plainText
  = Ok (Ok "<b>ABCD</b>").
Proof. vm_compute. reflexivity. Qed.

Lemma append_cons c (s1 s2 : string) : String c s1 +:+ s2 = String c (s1 +:+ s2).
Proof. done. Qed.

Lemma append_nil (s : string) : EmptyString +:+ s = s.
Proof. done. Qed.

Lemma append_assoc_string (s1 s2 s3 : string) : (s1 +:+ s2) +:+ s3 = s1 +:+ (s2 +:+ s3).
Proof. induction s1 as [|c s1 IH]; [done|]. by rewrite !append_cons, IH. Qed.

Lemma append_empty_r s : s +:+ EmptyString = s.
Proof. induction s as [|c s IH]; [done|]. by rewrite append_cons, IH. Qed.

Lemma length_append (s1 s2 : string) :
  String.length (s1 +:+ s2) = (String.length s1 + String.length s2)%nat.
Proof.
  induction s1 as [|c s1 IH]; [done|]. rewrite append_cons. simpl. by rewrite IH.
Qed.

Lemma joinStrings_cons x l : joinStrings (x :: l) = x +:+ joinStrings l.
Proof. done. Qed.

Lemma joinStrings_app l1 l2 : joinStrings (l1 ++ l2) = joinStrings l1 +:+ joinStrings l2.
Proof.
  induction l1 as [|x l1 IH]; [done|].
  by rewrite <- app_comm_cons, !joinStrings_cons, IH, append_assoc_string.
Qed.

Lemma toStringLeaf_pieces doc position segment so eo s :
  toStringLeaf doc position segment so eo s
  = (fun new => (true, s ++ new)) <$> pieces doc segment.
Proof.
  unfold pieces, toStringLeaf.
  destruct (getDocSegmentKind (Some segment)) as [kind|]; [|done].
  destruct kind; simpl; try done.
  destruct (getStart doc segment) as [[b|]|]; done.
Qed.

(** What [toString] joins is what the callback pushes for each segment
    in turn; a text segment without units is not visited, and has nothing
    to add. *)
Lemma mapRangeToInfinity_pieces doc part :
  ∀ pos s (texts : list (list string)),
    0 <= pos →
    Forall2 (fun segment text => pieces doc segment = Ok text
                                 ∧ (cachedLength segment = 0 → joinStrings text = EmptyString))
      part texts →
    ∃ s', mapRangeToInfinity (toStringLeaf doc) s pos 0 part = Ok s'
          ∧ joinStrings s' = joinStrings s +:+ joinStrings (joinStrings <$> texts).
Proof.
  induction part as [|x part IH]; intros pos s texts Hpos Hall.
  - apply Forall2_nil_inv_l in Hall as ->. exists s.
    split; [done|]. by rewrite append_empty_r.
  - apply Forall2_cons_inv_l in Hall as (text & texts' & [Hx Hzero] & Hall & ->).
    pose proof (cachedLength_nonneg x).
    cbn [mapRangeToInfinity].
    replace (Z.max 0 (0 - pos)) with 0 by lia.
    destruct (Z.ltb_spec 0 (cachedLength x)).
    + rewrite toStringLeaf_pieces, Hx. cbn [fmap result_fmap mbind result_bind].
      destruct (IH (pos + cachedLength x) (s ++ text) texts') as (s' & -> & Hs');
        [lia|done|].
      exists s'. split; [done|].
      by rewrite Hs', joinStrings_app, fmap_cons, joinStrings_cons, append_assoc_string.
    + destruct (IH (pos + cachedLength x) s texts') as (s' & -> & Hs'); [lia|done|].
      exists s'. split; [done|].
      rewrite Hs', fmap_cons, joinStrings_cons, Hzero by lia. done.
Qed.

Lemma length_textOf s : isText s → Z.of_nat (String.length (textOf s)) = cachedLength s.
Proof. by destruct s. Qed.

Lemma pieces_text doc s :
  isText s → pieces doc s = Ok [textOf s].
Proof. by destruct s. Qed.

Lemma textContent_cons s doc : textContent (s :: doc) = textOf s +:+ textContent doc.
Proof. done. Qed.

Lemma getLength_textContent doc :
  Forall isText doc → Z.of_nat (String.length (textContent doc)) = getLength doc.
Proof.
  induction 1 as [|s doc Hs _ IH]; [done|].
  rewrite textContent_cons, length_append, Nat2Z.inj_add, IH, length_textOf by done.
  done.
Qed.

Lemma sliceTo_0 s : sliceTo 0 s = EmptyString.
Proof. by destruct s. Qed.

Lemma sliceTo_append n s1 s2 :
  sliceTo n (s1 +:+ s2)
  = if decide (n <= String.length s1)%nat then sliceTo n s1
    else s1 +:+ sliceTo (n - String.length s1) s2.
Proof.
  revert n. induction s1 as [|c s1 IH]; intros n.
  - rewrite append_nil. cbn [String.length]. case_decide; [|by rewrite Nat.sub_0_r].
    assert (n = 0%nat) as -> by lia. by rewrite !sliceTo_0.
  - rewrite append_cons. destruct n as [|n]; [done|].
    cbn [sliceTo String.length]. rewrite IH.
    repeat case_decide; try lia; [done|]. by rewrite append_cons.
Qed.

Lemma slice_append n s1 s2 :
  slice n (s1 +:+ s2)
  = if decide (n <= String.length s1)%nat then slice n s1 +:+ s2
    else slice (n - String.length s1) s2.
Proof.
  revert n. induction s1 as [|c s1 IH]; intros n.
  - rewrite append_nil. cbn [String.length]. case_decide; [|by rewrite Nat.sub_0_r].
    by assert (n = 0%nat) as -> by lia.
  - rewrite append_cons. destruct n as [|n]; [done|].
    cbn [slice String.length]. rewrite IH.
    repeat case_decide; try lia; done.
Qed.

Lemma sliceTo_all n s : (String.length s <= n)%nat → sliceTo n s = s.
Proof.
  revert n. induction s as [|c s IH]; intros [|n] Hn; simpl in *; try done; [lia|].
  rewrite IH; [done|lia].
Qed.

Lemma slice_all n s : (String.length s <= n)%nat → slice n s = EmptyString.
Proof.
  revert n. induction s as [|c s IH]; intros [|n] Hn; simpl in *; try done; [lia|].
  apply IH. lia.
Qed.

Lemma sliceTo_sliceTo n m s : (n <= m)%nat → sliceTo n (sliceTo m s) = sliceTo n s.
Proof.
  revert n m. induction s as [|c s IH]; intros [|n] [|m] Hnm; simpl; try done; [lia|].
  rewrite IH; [done|lia].
Qed.

(** Inserting into a run of text cuts the run in two at the position. *)
Lemma insertSegment_text fresh seg texts :
  Forall isText texts →
  ∀ p rest, 0 <= p <= getLength texts →
    ∃ before after,
      insertSegment fresh p seg (texts ++ rest) = before ++ seg :: after ++ rest
      ∧ Forall isText before ∧ Forall isText after
      ∧ textContent before = sliceTo (Z.to_nat p) (textContent texts)
      ∧ textContent after = slice (Z.to_nat p) (textContent texts).
Proof.
  induction 1 as [|s texts Hs Htexts IH]; intros p rest Hp; simpl in Hp.
  - assert (p = 0) as -> by lia. exists [], [].
    split_and!; [|done|done|done|done].
    simpl. destruct rest; [done|]. simpl. done.
  - pose proof (cachedLength_nonneg s). pose proof (getLength_nonneg texts).
    rewrite <- app_comm_cons. cbn [insertSegment].
    destruct (Z.leb_spec p 0).
    + assert (p = 0) as -> by lia. exists [], (s :: texts).
      split_and!; [done|done|by constructor|done|done].
    + destruct (Z.ltb_spec p (cachedLength s)).
      * destruct s as [sid t props|]; [|done]. cbn [cachedLength] in *.
        exists [TextSegment sid (sliceTo (Z.to_nat p) t) props],
               (TextSegment fresh (slice (Z.to_nat p) t) props :: texts).
        split_and!; [done|by repeat constructor|by constructor| |].
        -- rewrite !textContent_cons. cbn [textOf].
           change (textContent []) with EmptyString.
           rewrite append_empty_r, sliceTo_append.
           rewrite decide_True by lia. done.
        -- rewrite !textContent_cons. cbn [textOf]. rewrite slice_append.
           rewrite decide_True by lia. done.
      * destruct (IH (p - cachedLength s) rest) as (before & after & -> & ? & ? & Hb & Ha);
          [lia|].
        exists (s :: before), after.
        pose proof (length_textOf s Hs) as Hlen.
        split_and!; [done|by constructor|done| |].
        -- rewrite !textContent_cons, Hb, sliceTo_append.
           case_decide.
           ++ assert (Z.to_nat p = String.length (textOf s)) as Heq by lia.
              rewrite Heq, (sliceTo_all _ (textOf s)) by lia.
              replace (Z.to_nat (p - cachedLength s)) with 0%nat by lia.
              by rewrite sliceTo_0, append_empty_r.
           ++ do 2 f_equal. lia.
        -- rewrite !textContent_cons, Ha, slice_append.
           case_decide.
           ++ assert (Z.to_nat p = String.length (textOf s)) as Heq by lia.
              rewrite Heq, (slice_all _ (textOf s)) by lia.
              replace (Z.to_nat (p - cachedLength s)) with 0%nat by lia.
              done.
           ++ f_equal. lia.
Qed.

Lemma idToSegment_text_app texts rest id :
  Forall isText texts → idToSegment (texts ++ rest) id = idToSegment rest id.
Proof. induction 1 as [|[] texts Hs _ IH]; done. Qed.

Lemma textOf_empty s : isText s → cachedLength s = 0 → textOf s = EmptyString.
Proof. destruct s as [sid [|c t] props|]; simpl; [done|lia|done]. Qed.

Lemma pieces_texts doc texts :
  Forall isText texts →
  Forall2 (fun segment text => pieces doc segment = Ok text
                               ∧ (cachedLength segment = 0 → joinStrings text = EmptyString))
    texts ((fun s => [textOf s]) <$> texts).
Proof.
  induction 1 as [|s texts Hs _ IH]; constructor; [|done].
  split; [by apply pieces_text|].
  intros Hzero. by rewrite joinStrings_cons, textOf_empty.
Qed.

Lemma joinStrings_texts texts :
  joinStrings (joinStrings <$> ((fun s => [textOf s]) <$> texts)) = textContent texts.
Proof.
  induction texts as [|s texts IH]; [done|].
  rewrite !fmap_cons, !joinStrings_cons, textContent_cons, IH.
  change (joinStrings []) with EmptyString. by rewrite append_empty_r.
Qed.

(** X5 (FlowDocument.toString after insertTags): in a document of text
    only, tagging the range from [start] to [end] makes the document read
    as the text before the range, the opening tags in the order given, the
    text of the range, the closing tags in the opposite order, and the
    text after the range. *)
Theorem toString_insertTags (randomId : nat → string) tagNames start end_ w :
  Forall isText (mergeTree w) →
  0 <= start → start <= end_ → end_ <= FlowDocument_length w →
  let t := textContent (mergeTree w) in
  ∃ w',
    insertTags randomId tagNames start (Some end_) w = Ok w'
    ∧ toString (mergeTree w')
      = Ok (sliceTo (Z.to_nat start) t
            +:+ openTags tagNames
            +:+ slice (Z.to_nat start) (sliceTo (Z.to_nat end_) t)
            +:+ closeTags tagNames
            +:+ slice (Z.to_nat end_) t).
Proof.
  intros Htext H0 Hse Hend t.
  destruct (insertTags_spec randomId tagNames start (Some end_) w)
    as (w' & Hw' & _ & _ & Hdoc); [lia|simpl; lia|].
  cbn [default from_option] in Hdoc. unfold id in Hdoc.
  set (fresh := nextSegId (sharedString w)) in *.
  set (endMarker := Marker fresh _ _) in *.
  set (beginMarker := Marker (S fresh) _ _) in *.
  unfold FlowDocument_length in *.
  exists w'. split; [done|]. rewrite Hdoc.
  destruct (insertSegment_text (S (S fresh)) endMarker (mergeTree w) Htext end_ [])
    as (before & after & Hdoc1 & Hbefore & Hafter & Hb & Ha); [lia|].
  rewrite !app_nil_r in Hdoc1. rewrite Hdoc1. fold t in Hb, Ha.
  assert (getLength before = end_) as Hlen.
  { rewrite <- getLength_textContent, Hb, length_sliceTo by done.
    pose proof (getLength_textContent _ Htext). fold t in H. lia. }
  destruct (insertSegment_text (S (S (S fresh))) beginMarker before Hbefore start
              (endMarker :: after))
    as (before' & inside & -> & Hbefore' & Hinside & Hb' & Hi); [lia|].
  rewrite Hb in Hb', Hi. rewrite sliceTo_sliceTo in Hb' by lia.
  set (doc := before' ++ beginMarker :: inside ++ endMarker :: after).
  assert (pieces doc beginMarker = Ok ((fun tag => "<" +:+ tag +:+ ">") <$> tagNames))
    as HpiecesB by reflexivity.
  assert (pieces doc endMarker
          = Ok ((fun tag => "</" +:+ tag +:+ ">") <$> reverse tagNames)) as HpiecesE.
  { unfold pieces, toStringLeaf.
    assert (getDocSegmentKind (Some endMarker) = Ok endTags) as -> by reflexivity.
    cbn [mbind result_bind]. unfold getStart, getOppositeMarker.
    assert (getId endMarker = Some ("end-" +:+ randomId (idsDrawn w))) as -> by reflexivity.
    assert ("begin" +:+ slice 3 ("end-" +:+ randomId (idsDrawn w))
            = "begin-" +:+ randomId (idsDrawn w)) as -> by reflexivity.
    unfold doc. rewrite idToSegment_text_app by done.
    cbn [idToSegment]. rewrite decide_True by reflexivity.
    reflexivity. }
  unfold toString, visitRangeDefault.
  destruct (mapRangeToInfinity_pieces doc doc 0 []
              (((fun s => [textOf s]) <$> before')
               ++ ((fun tag => "<" +:+ tag +:+ ">") <$> tagNames)
               :: ((fun s => [textOf s]) <$> inside)
               ++ ((fun tag => "</" +:+ tag +:+ ">") <$> reverse tagNames)
               :: ((fun s => [textOf s]) <$> after)))
    as (s' & -> & Hs'); [lia| |].
  { unfold doc at 2. apply Forall2_app; [by apply pieces_texts|].
    constructor; [split; [done|intros [=]]|].
    apply Forall2_app; [by apply pieces_texts|].
    constructor; [split; [done|intros [=]]|].
    by apply pieces_texts. }
  cbn [mbind result_bind]. f_equal. rewrite Hs'.
  change (joinStrings []) with EmptyString. rewrite append_nil.
  rewrite fmap_app, joinStrings_app, fmap_cons, joinStrings_cons.
  rewrite fmap_app, joinStrings_app, fmap_cons, joinStrings_cons.
  rewrite !joinStrings_texts, Hb', Hi, Ha.
  reflexivity.
Qed.

Lemma toString_insertTags_witness :
  Forall isText (mergeTree plainText)
  ∧ 0 <= 1 ∧ 1 <= 3 ∧ 3 <= FlowDocument_length plainText
  ∧ ∃ w',
      insertTags exampleId ["b"; "i"] 1 (Some 3) plainText = Ok w'
      ∧ toString (mergeTree w') = Ok "A<b><i>BC</i></b>D".
Proof.
  assert (Forall isText (mergeTree plainText)) as Htext by (repeat constructor).
  assert (3 <= FlowDocument_length plainText) as H3 by (vm_compute; discriminate).
  split_and!; [exact Htext|lia|lia|exact H3|].
  exact (toString_insertTags exampleId ["b"; "i"] 1 3 plainText Htext
           ltac:(lia) ltac:(lia) H3).
Defined.

(** ** References created at a position *)

(** X6 (FlowDocument.addLocalRef, then localRefToPosition): a reference
    created at a position resolves, before anything else happens to the
    document, to that position, or to the length of the document when the
    position lies at or beyond the end; creating it leaves the document
    and the references there were as they are. *)
Theorem addLocalRef_resolves position w :
  distinctSegments (mergeTree w) → 0 <= position →
  ∃ h w' r,
    addLocalRef position w = Ok (h, w')
    ∧ mergeTree w' = mergeTree w
    ∧ localRefs w' !! h = Some r
    ∧ (∀ h', h' ≠ h → localRefs w' !! h' = localRefs w !! h')
    ∧ localRefToPosition (mergeTree w') r
      = Ok (Z.min position (FlowDocument_length w)).
Proof.
  intros Hnd H0. unfold addLocalRef, FlowDocument_length.
  destruct (Z.leb_spec (getLength (mergeTree w)) position) as [Hend|Hin].
  - eexists _, _, _. split_and!; [done|done|apply lookup_insert_eq| |].
    + intros h' Hh'. by apply lookup_insert_ne.
    + change (Ok (getLength (mergeTree w))
              = Ok (Z.min position (getLength (mergeTree w)))).
      f_equal. lia.
  - unfold getSegmentAndOffset. rewrite decide_False by lia.
    destruct (getContainingSegment_spec (mergeTree w) position Hnd)
      as (s & off & -> & _ & _ & Hpos); [lia|].
    cbn [mbind result_bind].
    eexists _, _, _. split_and!; [done|done|apply lookup_insert_eq| |].
    + intros h' Hh'. by apply lookup_insert_ne.
    + unfold localRefToPosition, toPosition, mergeTree_getPosition.
      cbn [refSegment refOffset].
      change (mergeTree (mkWorld _ _ _ _ _)) with (mergeTree w).
      rewrite Hpos. cbn [fmap result_fmap]. f_equal. lia.
Qed.

Lemma plainText_distinct : distinctSegments (mergeTree plainText).
Proof. apply NoDup_singleton. Defined.

Lemma addLocalRef_resolves_witness :
  distinctSegments (mergeTree plainText) ∧ 0 <= 9
  ∧ ∃ h w' r,
      addLocalRef 9 plainText = Ok (h, w')
      ∧ mergeTree w' = mergeTree plainText
      ∧ localRefs w' !! h = Some r
      ∧ (∀ h', h' ≠ h → localRefs w' !! h' = localRefs plainText !! h')
      ∧ localRefToPosition (mergeTree w') r
        = Ok (Z.min 9 (FlowDocument_length plainText)).
Proof.
  split_and!; [exact plainText_distinct|lia|].
  apply addLocalRef_resolves; [exact plainText_distinct|lia].
Defined.

(** ** The selection of the caret *)

Lemma mergeTree_removeLocalRef h w : mergeTree (removeLocalRef h w) = mergeTree w.
Proof.
  unfold removeLocalRef.
  destruct (localRefs w !! h) as [[[s|] off ty reg]|]; done.
Qed.

Lemma removeLocalRef_resolves h w h' r :
  localRefs w !! h' = Some r →
  ∃ r', localRefs (removeLocalRef h w) !! h' = Some r'
        ∧ localRefToPosition (mergeTree w) r' = localRefToPosition (mergeTree w) r.
Proof.
  intros Hr. unfold removeLocalRef.
  destruct (localRefs w !! h) as [[[s|] off ty reg]|] eqn:Hh; [|by exists r..].
  cbn [localRefs]. destruct (decide (h' = h)) as [->|Hne].
  - rewrite lookup_insert_eq. eexists. split; [done|].
    rewrite Hh in Hr. by injection Hr as <-.
  - rewrite lookup_insert_ne by done. by exists r.
Qed.

Lemma updateRef_resolves ref position w :
  distinctSegments (mergeTree w) → 0 <= position →
  ∃ h w' r,
    CaretSelection.updateRef ref position w = Ok (h, w')
    ∧ h = nextRef w ∧ nextRef w' = S h
    ∧ mergeTree w' = mergeTree w
    ∧ localRefs w' !! h = Some r
    ∧ localRefToPosition (mergeTree w) r = Ok (Z.min position (FlowDocument_length w))
    ∧ (∀ h' r', h' ≠ h → localRefs w !! h' = Some r' →
         ∃ r'', localRefs w' !! h' = Some r''
                ∧ localRefToPosition (mergeTree w) r''
                  = localRefToPosition (mergeTree w) r').
Proof.
  intros Hnd H0. unfold CaretSelection.updateRef.
  pose proof (mergeTree_removeLocalRef ref w) as Hdoc.
  assert (nextRef (removeLocalRef ref w) = nextRef w) as Hnext.
  { unfold removeLocalRef.
    destruct (localRefs w !! ref) as [[[s|] off ty reg]|]; done. }
  unfold addLocalRef, FlowDocument_length. rewrite Hdoc.
  assert (∀ r0 h' r',
            h' ≠ nextRef (removeLocalRef ref w) → localRefs w !! h' = Some r' →
            ∃ r'', <[nextRef (removeLocalRef ref w) := r0]>
                     (localRefs (removeLocalRef ref w)) !! h' = Some r''
                   ∧ localRefToPosition (mergeTree w) r''
                     = localRefToPosition (mergeTree w) r') as Hothers.
  { intros r0 h' r' Hne Hr'. rewrite lookup_insert_ne by done.
    by apply removeLocalRef_resolves. }
  destruct (Z.leb_spec (getLength (mergeTree w)) position) as [Hend|Hin].
  - eexists _, _, _.
    split_and!; [done|done|by rewrite Hnext|done|apply lookup_insert_eq| |apply Hothers].
    cbn [localRefToPosition refSegment endOfTextSegment]. f_equal. lia.
  - unfold getSegmentAndOffset. rewrite decide_False by lia.
    destruct (getContainingSegment_spec (mergeTree w) position Hnd)
      as (s & off & -> & _ & _ & Hpos); [lia|].
    cbn [mbind result_bind].
    eexists _, _, _.
    split_and!; [done|done|by rewrite Hnext|done|apply lookup_insert_eq| |apply Hothers].
    unfold localRefToPosition, toPosition, mergeTree_getPosition.
    cbn [refSegment refOffset]. rewrite Hpos. cbn [fmap result_fmap]. f_equal. lia.
Qed.

(** After [setSelection], the two references of the caret resolve to the
    two positions, the length of the document standing for any position
    beyond its end. *)
Lemma setSelection_resolves start end_ caret w :
  distinctSegments (mergeTree w) → 0 <= start → 0 <= end_ →
  let len := FlowDocument_length w in
  ∃ caret' w',
    CaretSelection.setSelection start end_ caret w = Ok (caret', w')
    ∧ mergeTree w' = mergeTree w
    ∧ CaretSelection.anchor caret' w' = Ok (Z.min start len)
    ∧ CaretSelection.position caret' w' = Ok (Z.min end_ len).
Proof.
  intros Hnd Hs He len. unfold CaretSelection.setSelection.
  destruct (updateRef_resolves (CaretSelection.startRef caret) start w Hnd Hs)
    as (h1 & w1 & r1 & -> & Hh1 & Hnext1 & Hdoc1 & Hr1 & Hp1 & _).
  cbn [mbind result_bind].
  destruct (updateRef_resolves (CaretSelection.endRef caret) end_ w1)
    as (h2 & w2 & r2 & -> & Hh2 & _ & Hdoc2 & Hr2 & Hp2 & Hothers);
    [by rewrite Hdoc1|done|].
  cbn [mbind result_bind].
  pose proof (getLength_nonneg (mergeTree w)) as Hlen.
  unfold FlowDocument_length in *. rewrite Hdoc1 in *.
  exists (CaretSelection.mkCaret h1 h2), w2. split_and!; [done|by rewrite Hdoc2| |].
  - unfold CaretSelection.anchor, CaretSelection.deref, FlowDocument_length.
    cbn [CaretSelection.startRef]. rewrite Hdoc2.
    destruct (Hothers h1 r1 ltac:(lia) Hr1) as (r & -> & Hr).
    cbn [mbind result_bind]. rewrite Hr, Hp1. cbn [mbind result_bind].
    unfold CaretSelection.clamp. f_equal. fold len. lia.
  - unfold CaretSelection.position, CaretSelection.deref, FlowDocument_length.
    cbn [CaretSelection.endRef]. rewrite Hdoc2, Hr2. cbn [mbind result_bind].
    rewrite Hp2. cbn [mbind result_bind].
    unfold CaretSelection.clamp. f_equal. fold len. lia.
Qed.

Lemma selection_bounds caret w start end_ :
  CaretSelection.selection caret w = Ok (start, end_) →
  0 <= start ∧ start <= end_ ∧ end_ <= FlowDocument_length w.
Proof.
  unfold CaretSelection.selection, CaretSelection.anchor, CaretSelection.position.
  pose proof (getLength_nonneg (mergeTree w)) as Hlen. fold (FlowDocument_length w) in Hlen.
  intros H.
  apply bind_Ok in H as (a & Ha & H). apply bind_Ok in H as (p & Hp & H).
  apply bind_Ok in Ha as (r1 & _ & Ha). apply bind_Ok in Ha as (p1 & _ & [= <-]).
  apply bind_Ok in Hp as (r2 & _ & Hp). apply bind_Ok in Hp as (p2 & _ & [= <-]).
  unfold CaretSelection.clamp in H.
  case_decide; injection H as <- <-; lia.
Qed.

(** X7 (Caret.setSelection, then Caret.selection): after
    [setSelection(start, end)] the selection is the two positions in
    order, the smaller first, a position beyond the end of the document
    counting as the end; the document itself is not touched. *)
Theorem setSelection_selection start end_ caret w :
  distinctSegments (mergeTree w) → 0 <= start → 0 <= end_ →
  let len := FlowDocument_length w in
  ∃ caret' w',
    CaretSelection.setSelection start end_ caret w = Ok (caret', w')
    ∧ mergeTree w' = mergeTree w
    ∧ CaretSelection.selection caret' w'
      = Ok (Z.min (Z.min start len) (Z.min end_ len),
            Z.max (Z.min start len) (Z.min end_ len)).
Proof.
  intros Hnd Hs He len.
  destruct (setSelection_resolves start end_ caret w Hnd Hs He)
    as (caret' & w' & Hset & Hdoc & Ha & Hp).
  exists caret', w'. split_and!; [done|done|].
  unfold CaretSelection.selection. rewrite Ha, Hp. cbn [mbind result_bind].
  fold len. case_decide; do 2 f_equal; lia.
Qed.

Lemma setSelection_selection_witness :
  distinctSegments (mergeTree plainText) ∧ 0 <= 3 ∧ 0 <= 1
  ∧ ∃ caret' w',
      CaretSelection.setSelection 3 1 (CaretSelection.mkCaret 0 0) plainText
      = Ok (caret', w')
      ∧ mergeTree w' = mergeTree plainText
      ∧ CaretSelection.selection caret' w' = Ok (1, 3).
Proof.
  split_and!; [exact plainText_distinct|lia|lia|].
  exact (setSelection_selection 3 1 (CaretSelection.mkCaret 0 0) plainText
           plainText_distinct ltac:(lia) ltac:(lia)).
Defined.

(** X8 (Caret.collapseForward): collapsing a selection puts both ends of
    it where its end was, and leaves the document alone. *)
Theorem collapseForward_selection caret w start end_ :
  distinctSegments (mergeTree w) →
  CaretSelection.selection caret w = Ok (start, end_) →
  ∃ caret' w',
    CaretSelection.collapseForward caret w = Ok (caret', w')
    ∧ mergeTree w' = mergeTree w
    ∧ CaretSelection.selection caret' w' = Ok (end_, end_).
Proof.
  intros Hnd Hsel. destruct (selection_bounds _ _ _ _ Hsel) as (H0 & Hse & Hend).
  unfold CaretSelection.collapseForward. rewrite Hsel. cbn [mbind result_bind].
  destruct (setSelection_resolves end_ end_ caret w Hnd)
    as (caret' & w' & Hset & Hdoc & Ha & Hp); [lia|lia|].
  exists caret', w'. split_and!; [done|done|].
  unfold CaretSelection.selection. rewrite Ha, Hp. cbn [mbind result_bind].
  rewrite decide_False by lia. do 2 f_equal; lia.
Qed.

Lemma collapseForward_selection_witness :
  distinctSegments (mergeTree selected.2)
  ∧ CaretSelection.selection selected.1 selected.2 = Ok (1, 3)
  ∧ ∃ caret' w',
      CaretSelection.collapseForward selected.1 selected.2 = Ok (caret', w')
      ∧ mergeTree w' = mergeTree selected.2
      ∧ CaretSelection.selection caret' w' = Ok (3, 3).
Proof.
  assert (distinctSegments (mergeTree selected.2)) as Hnd by apply NoDup_singleton.
  assert (CaretSelection.selection selected.1 selected.2 = Ok (1, 3)) as Hsel
    by (vm_compute; reflexivity).
  split_and!; [exact Hnd|exact Hsel|].
  exact (collapseForward_selection selected.1 selected.2 1 3 Hnd Hsel).
Defined.

(** ** From a reference to the presentation layer and back *)

Lemma tilesAndRanges_not_endOfText label : tilesAndRanges label ≠ Some endOfText.
Proof. unfold tilesAndRanges. repeat case_decide; done. Qed.

Lemma kind_segment_not_endOfText s : getDocSegmentKind (Some s) ≠ Ok endOfText.
Proof.
  destruct s as [sid t props|sid rt props]; cbn [getDocSegmentKind]; [done|].
  case_decide.
  - destruct (orElse _ _) as [label|]; cbn [mbind option_bind]; [|done].
    pose proof (tilesAndRanges_not_endOfText label).
    destruct (tilesAndRanges label); [|done]. congruence.
  - unfold assert. repeat case_match; done.
Qed.

Section CaretReverse_facts.
Context {Node : Type} `{EqDecision Node}.
Variable layout : option ISegment → Z → Node * Z.
Variable nodeToSegment : Node → option ISegment.
Variable isBr : Node → bool.

(** X9 (Caret.positionToNodeOffset, then Caret.nodeOffsetToPosition): in
    a layout that keeps offsets and finds the segment of each node again,
    the node and offset a reference maps to map back to the position of
    the reference, unless the reference is on a marker at position 0:
    there the way back lands after the marker, at position 1.  The node
    is not a line-break element. *)
Theorem nodeOffsetToPosition_positionToNodeOffset doc ref
    (pres pres' : Presentation Node) node nodeOffset :
  distinctSegments doc → anchored doc ref →
  (∀ segment offset,
     (∀ s, segment = Some s → s ∈ doc) →
     nodeToSegment (layout segment offset).1 = segment
     ∧ (layout segment offset).2 = offset) →
  positionToNodeOffset layout doc ref pres = Ok ((node, nodeOffset), pres') →
  isBr node = false →
  ∃ position kind,
    localRefToPosition doc ref = Ok position
    ∧ getDocSegmentKind (refSegment ref) = Ok kind
    ∧ nodeOffsetToPosition nodeToSegment isBr doc node nodeOffset
      = Ok (if decide (position = 0 ∧ kind ≠ text ∧ kind ≠ endOfText)
            then 1 else position).
Proof.
  intros Hnd Hanch Hlayout Hmap Hbr.
  pose proof (getLength_nonneg doc) as Hlen.
  (* what the reference resolves to, and what owns that position *)
  assert (∃ position,
            localRefToPosition doc ref = Ok position
            ∧ 0 <= position <= getLength doc
            ∧ getSegmentAndOffset doc position = Ok (refSegment ref, 
                 match refSegment ref with Some _ => refOffset ref | None => 0 end)
            ∧ getPosition doc (refSegment ref)
              = Ok (position - match refSegment ref with
                               | Some _ => refOffset ref | None => 0 end)
            ∧ (∀ s, refSegment ref = Some s → s ∈ doc))
    as (position & Hpos & Hrange & Hright & Hstart & Hin).
  { unfold anchored, localRefToPosition in *.
    destruct (refSegment ref) as [s|] eqn:Hs.
    - destruct (anchored_owner doc s (refOffset ref) Hnd Hanch)
        as (l1 & l2 & Hdoc & Hp & Hoff & Hown).
      pose proof (getLength_nonneg l1). pose proof (getLength_nonneg l2).
      exists (getLength l1 + refOffset ref).
      unfold toPosition, mergeTree_getPosition, getSegmentAndOffset, getPosition,
        mergeTree_getPosition.
      rewrite Hp. cbn [fmap result_fmap].
      assert (getLength doc = getLength l1 + (cachedLength s + getLength l2)) as Hl
        by (rewrite Hdoc, getLength_app; done).
      rewrite decide_False by lia. rewrite Hown. cbn [mbind result_bind].
      split_and!; [done|lia|lia|done|f_equal; lia|].
      intros ? [= <-]. rewrite Hdoc. apply elem_of_app. right. left.
    - exists (getLength doc). unfold getSegmentAndOffset, getPosition.
      rewrite decide_True by done.
      split_and!; [done|lia|lia|done|f_equal; lia|done]. }
  unfold positionToNodeOffset in Hmap. rewrite Hpos in Hmap.
  cbn [mbind result_bind] in Hmap. rewrite Hright in Hmap.
  cbn [mbind result_bind] in Hmap.
  destruct (getDocSegmentKind (refSegment ref)) as [rightKind|] eqn:Hkind; [|done].
  cbn [mbind result_bind] in Hmap.
  exists position, rightKind. split_and!; [done|done|].
  unfold nodeOffsetToPosition.
  case_decide as Hcase.
  - (* mapped directly *)
    injection Hmap as Hnode _. 
    destruct (Hlayout (refSegment ref)
                (match refSegment ref with Some _ => refOffset ref | None => 0 end) Hin)
      as [Hseg Hoff].
    rewrite Hnode in Hseg, Hoff. cbn [fst snd] in Hseg, Hoff.
    rewrite Hseg, Hkind. cbn [mbind result_bind]. rewrite Hstart.
    cbn [mbind result_bind]. rewrite Hbr, Hoff. f_equal.
    destruct (decide (rightKind = text ∨ rightKind = endOfText ∨ false = true))
      as [Hk|Hk].
    + rewrite decide_False by (intros (_ & ? & ?); destruct Hk as [?|[?|?]]; done).
      lia.
    + assert (position = 0) as Hp0 by tauto.
      rewrite decide_True by tauto. lia.
  - (* mapped to the end of what lies before *)
    assert (position ≠ 0 ∧ rightKind ≠ text) as [Hp0 Hnt] by tauto.
    unfold getSegmentAndOffset in Hmap. rewrite decide_False in Hmap by lia.
    destruct (getContainingSegment_spec doc (position - 1) Hnd)
      as (leftSegment & leftOffset & Hleft & HinL & HoffL & HposL); [lia|].
    rewrite Hleft in Hmap. cbn [mbind result_bind] in Hmap.
    destruct (getDocSegmentKind (Some leftSegment)) as [leftKind|] eqn:HkindL; [|done].
    cbn [mbind result_bind] in Hmap. injection Hmap as Hnode _.
    destruct (Hlayout (Some leftSegment)
                (leftOffset + if decide (leftKind = text) then 1 else 0))
      as [Hseg Hoff]; [by intros ? [= <-]|].
    rewrite Hnode in Hseg, Hoff. cbn [fst snd] in Hseg, Hoff.
    rewrite Hseg, HkindL. cbn [mbind result_bind].
    unfold getPosition, mergeTree_getPosition. rewrite HposL.
    cbn [mbind result_bind]. rewrite Hbr, Hoff. f_equal.
    rewrite (decide_False (P := position = 0 ∧ _)) by tauto.
    destruct (decide (leftKind = text)) as [->|HntL].
    + rewrite decide_True by tauto. lia.
    + pose proof (kind_not_text_length _ _ HkindL HntL).
      assert (leftKind ≠ endOfText)
        by (intros ->; by apply (kind_segment_not_endOfText leftSegment)).
      rewrite decide_False by (intros [?|[?|?]]; done). lia.
Qed.
End CaretReverse_facts.

Lemma nodeOffsetToPosition_positionToNodeOffset_witness :
  distinctSegments scenario2 ∧ anchored scenario2 endTagReference
  ∧ (∀ segment offset,
       (∀ s, segment = Some s → s ∈ scenario2) →
       id (segmentLayout segment offset).1 = segment
       ∧ (segmentLayout segment offset).2 = offset)
  ∧ positionToNodeOffset segmentLayout scenario2 endTagReference nothingSelected
    = Ok ((Some (TextSegment 1 "AB" empty), 2),
          mkPresentation (mkSelection None 0 None 0)
            [MapToNode (Some (TextSegment 1 "AB" empty)) 2])
  ∧ ∃ position kind,
      localRefToPosition scenario2 endTagReference = Ok position
      ∧ getDocSegmentKind (refSegment endTagReference) = Ok kind
      ∧ nodeOffsetToPosition id (fun _ => false) scenario2
          (Some (TextSegment 1 "AB" empty)) 2
        = Ok (if decide (position = 0 ∧ kind ≠ text ∧ kind ≠ endOfText)
              then 1 else position).
Proof.
  assert (anchored scenario2 endTagReference) as Hanch by (exists 3; reflexivity).
  assert (∀ segment offset,
            (∀ s, segment = Some s → s ∈ scenario2) →
            id (segmentLayout segment offset).1 = segment
            ∧ (segmentLayout segment offset).2 = offset) as Hlayout
    by (intros; split; reflexivity).
  assert (positionToNodeOffset segmentLayout scenario2 endTagReference nothingSelected
          = Ok ((Some (TextSegment 1 "AB" empty), 2),
                mkPresentation (mkSelection None 0 None 0)
                  [MapToNode (Some (TextSegment 1 "AB" empty)) 2])) as Hmap
    by (vm_compute; reflexivity).
  split_and!; [exact scenario2_distinct|exact Hanch|exact Hlayout|exact Hmap|].
  exact (nodeOffsetToPosition_positionToNodeOffset segmentLayout id (fun _ => false)
           scenario2 endTagReference nothingSelected _ _ _
           scenario2_distinct Hanch Hlayout Hmap eq_refl).
Defined.

(** * ChannelDeltaConnection *)

Section ChannelDeltaConnection_facts.
Import ChannelDeltaConnection.
Context {Message Content Metadata Stashed Thrown : Type}.
Variable assertionError : Z → Thrown.
Variable rollbackError : Thrown.
Variable wrapIfUnrecognized : Thrown → string → Message → Thrown.

Local Abbreviation Connection := (@Connection Message Content Metadata Stashed Thrown).
Local Abbreviation IDeltaHandler := (@IDeltaHandler Message Content Metadata Stashed Thrown).
Local Abbreviation Call := (@Call Message Content Metadata Stashed Thrown).
Local Abbreviation call := (call assertionError rollbackError wrapIfUnrecognized).
Local Abbreviation callAll := (callAll assertionError rollbackError wrapIfUnrecognized).

Lemma callAll_cons (what : Call) rest (c : Connection) :
  callAll (what :: rest) c
  = ((callAll rest (call what c).1).1, (call what c).2 :: (callAll rest (call what c).1).2).
Proof.
  cbn [ChannelDeltaConnection.callAll].
  destruct (call what c) as [c1 r]. cbn [fst snd].
  by destruct (callAll rest c1) as [c2 rs].
Qed.

Lemma call_connected (what : Call) (c : Connection) :
  _connected (call what c).1 = default (_connected c) (requested what).
Proof.
  destruct what as [h| | | | |]; cbn [ChannelDeltaConnection.call requested default from_option];
    unfold attach, setConnectionState, process, reSubmit, rollback, applyStashedOp,
      handler, invoke, discard; cbn [_handler _connected taken];
    destruct (_handler c) as [h0|]; cbn [fst _connected]; try done;
    repeat (case_match; cbn [fst _connected]; try done).
Qed.

Lemma call_attached (what : Call) (c : Connection) h :
  _handler c = Some h →
  _handler (call what c).1 = Some h
  ∧ taken (call what c).1 = taken c ++ option_list (forwarded h what).
Proof.
  intros Hh.
  destruct what as [h'| | | | |];
    cbn [ChannelDeltaConnection.call forwarded option_list];
    unfold attach, setConnectionState, process, reSubmit, rollback, applyStashedOp,
      handler, invoke, discard; cbn [_handler _connected taken]; rewrite Hh;
    repeat (case_match; simplify_eq; cbn [fst _handler taken option_list]);
    rewrite ?app_nil_r; done.
Qed.

Lemma call_unattached (what : Call) (c : Connection) :
  _handler c = None → ¬ isAttach what →
  call what c
  = (mkConnection None (default (_connected c) (requested what)) (taken c),
     unattached assertionError wrapIfUnrecognized what).
Proof.
  intros Hh Hna. destruct c as [h b t]. cbn [_handler] in Hh. subst h.
  destruct what as [h'| | | | |]; [exfalso; apply Hna; exact I|reflexivity..].
Qed.

Lemma last_requested (what : Call) rest (before : bool) :
  default before (last (omap requested (what :: rest)))
  = default (default before (requested what)) (last (omap requested rest)).
Proof.
  change (omap requested (what :: rest))
    with (match requested what with
          | Some b => b :: omap requested rest
          | None => omap requested rest
          end).
  destruct (requested what) as [b|]; cbn [default from_option]; [|done].
  rewrite last_cons. by destruct (last (omap requested rest)).
Qed.

(** X10 (ChannelDeltaConnection.attach): once a handler is attached it
    stays the handler, whatever is called afterwards and however the
    calls end, and every further [attach] fails with assertion 0x178. *)
Theorem handler_attached_once (c : Connection) h calls h' :
  _handler c = Some h →
  _handler (callAll calls c).1 = Some h
  ∧ (attach assertionError h' (callAll calls c).1).2 = Throws (assertionError 0x178).
Proof.
  intros Hh.
  assert (_handler (callAll calls c).1 = Some h) as Hkept.
  { revert c Hh. induction calls as [|what rest IH]; intros c Hh; [done|].
    rewrite callAll_cons. cbn [fst]. apply IH. by apply call_attached. }
  split; [done|]. unfold attach. by rewrite Hkept.
Qed.

(** X11 (ChannelDeltaConnection.setConnectionState): [connected] is what
    the last [setConnectionState] asked for, also when that call threw
    because no handler was attached or because the handler threw; without
    such a call it is what it was. *)
Theorem connected_last_requested (c : Connection) calls :
  connected (callAll calls c).1
  = default (_connected c) (last (omap requested calls)).
Proof.
  unfold connected. revert c. induction calls as [|what rest IH]; intros c; [done|].
  rewrite callAll_cons, last_requested. cbn [fst].
  by rewrite IH, call_connected.
Qed.

(** X12 (ChannelDeltaConnection, forwarding): with a handler attached,
    the handler takes one call for each call of the connection, in their
    order and with their arguments, whether or not earlier calls threw;
    only [attach], and [rollback] when the handler has none, do not reach
    it. *)
Theorem calls_forwarded_in_order (c : Connection) h calls :
  _handler c = Some h →
  taken (callAll calls c).1 = taken c ++ omap (forwarded h) calls.
Proof.
  revert c. induction calls as [|what rest IH]; intros c Hh.
  - by rewrite app_nil_r.
  - destruct (call_attached what c h Hh) as [Hh' Htaken].
    rewrite callAll_cons. cbn [fst]. rewrite (IH _ Hh'), Htaken, <- app_assoc.
    f_equal.
    change (omap (forwarded h) (what :: rest))
      with (match forwarded h what with
            | Some x => x :: omap (forwarded h) rest
            | None => omap (forwarded h) rest
            end).
    by destruct (forwarded h what).
Qed.

(** X13 (ChannelDeltaConnection without a handler): until a handler is
    attached every call throws assertion 0x177 and reaches no handler;
    [process] throws it wrapped by [wrapIfUnrecognized] with the code
    [channelDeltaConnectionFailedToProcessMessage] and the message; and
    [setConnectionState] has changed [connected] all the same. *)
Theorem unattached_calls_throw (c : Connection) calls :
  _handler c = None → Forall (fun what => ¬ isAttach what) calls →
  callAll calls c
  = (mkConnection None (default (_connected c) (last (omap requested calls))) (taken c),
     unattached assertionError wrapIfUnrecognized <$> calls).
Proof.
  revert c. induction calls as [|what rest IH]; intros c Hh Hall.
  - destruct c as [h b t]. cbn [_handler] in Hh. by subst h.
  - apply Forall_cons in Hall as [Hna Hall].
    rewrite callAll_cons, last_requested, (call_unattached what c Hh Hna). cbn [fst snd].
    by rewrite IH.
Qed.
End ChannelDeltaConnection_facts.

Lemma handler_attached_once_witness :
  ChannelDeltaConnection._handler attachedConnection = Some quietHandler
  ∧ ChannelDeltaConnection._handler
      (ChannelDeltaConnection.callAll exampleAssertion "no rollback" exampleWrap
         (ChannelDeltaConnection.Attach quietHandler :: exampleCalls)
         attachedConnection).1
    = Some quietHandler
  ∧ (ChannelDeltaConnection.attach exampleAssertion quietHandler
       (ChannelDeltaConnection.callAll exampleAssertion "no rollback" exampleWrap
          (ChannelDeltaConnection.Attach quietHandler :: exampleCalls)
          attachedConnection).1).2
    = ChannelDeltaConnection.Throws "0x178".
Proof.
  split; [reflexivity|].
  exact (handler_attached_once exampleAssertion "no rollback" exampleWrap
           attachedConnection quietHandler
           (ChannelDeltaConnection.Attach quietHandler :: exampleCalls) quietHandler
           eq_refl).
Defined.

Lemma calls_forwarded_in_order_witness :
  ChannelDeltaConnection._handler attachedConnection = Some quietHandler
  ∧ ChannelDeltaConnection.taken
      (ChannelDeltaConnection.callAll exampleAssertion "no rollback" exampleWrap
         exampleCalls attachedConnection).1
    = [ChannelDeltaConnection.HandlerSetConnectionState true;
       ChannelDeltaConnection.HandlerProcess "m" false tt;
       ChannelDeltaConnection.HandlerApplyStashedOp "op"].
Proof.
  split; [reflexivity|].
  exact (calls_forwarded_in_order exampleAssertion "no rollback" exampleWrap
           attachedConnection quietHandler exampleCalls eq_refl).
Defined.

Lemma unattached_calls_throw_witness :
  ChannelDeltaConnection._handler (ChannelDeltaConnection.create false)
  = (None : option (@ChannelDeltaConnection.IDeltaHandler string string unit string string))
  ∧ Forall (fun what => ¬ ChannelDeltaConnection.isAttach what) exampleCalls
  ∧ ChannelDeltaConnection.callAll exampleAssertion "no rollback" exampleWrap
      exampleCalls (ChannelDeltaConnection.create false)
    = (ChannelDeltaConnection.mkConnection None true [],
       [ChannelDeltaConnection.Throws "0x177";
        ChannelDeltaConnection.Throws
          "channelDeltaConnectionFailedToProcessMessage: 0x177";
        ChannelDeltaConnection.Throws "0x177";
        ChannelDeltaConnection.Throws "0x177"]).
Proof.
  assert (Forall (fun what => ¬ @ChannelDeltaConnection.isAttach
                                  string string unit string string what) exampleCalls)
    as Hall by (repeat constructor; intros []).
  split_and!; [reflexivity|exact Hall|].
  exact (unattached_calls_throw exampleAssertion "no rollback" exampleWrap
           (ChannelDeltaConnection.create false) exampleCalls eq_refl Hall).
Defined.

(** * Lock-file handlers *)

Lemma some_private_url matches :
  PackageLock.some
    (fun value results =>
       if String.prefix PackageLock.registry value then (false, results)
       else (true, results ++ [value]))
    matches []
  = match List.find (fun value => negb (String.prefix PackageLock.registry value)) matches with
    | Some value => (true, [value])
    | None => (false, [])
    end.
Proof.
  induction matches as [|value rest IH]; [done|].
  cbn [PackageLock.some List.find].
  destruct (String.prefix PackageLock.registry value); [|done].
  cbn [negb]. apply IH.
Qed.

(** X14 (package-lockfiles-no-private-url): the handler reports a lock
    file exactly when one of the URLs found in it does not start with the
    public registry, and the report names the first such URL only: the
    scan stops there, so later private URLs are not listed. *)
Theorem noPrivateUrl_reports_first readFile matchUrlPattern file :
  PackageLock.noPrivateUrl readFile matchUrlPattern file
  = bad ← (matchUrlPattern (readFile file)
           ≫= List.find (fun value => negb (String.prefix PackageLock.registry value)));
    Some ("A private registry URL is in lock file: " +:+ file +:+ ":"
          +:+ PackageLock.newline +:+ bad).
Proof.
  unfold PackageLock.noPrivateUrl.
  destruct (matchUrlPattern (readFile file)) as [matches|]; [|done].
  rewrite some_private_url. cbn [mbind option_bind].
  by destruct (List.find _ matches).
Qed.

(** * The class lists of a range *)


Lemma unitProperties_cons s doc :
  unitProperties (s :: doc)
  = replicate (Z.to_nat (cachedLength s)) (properties s) ++ unitProperties doc.
Proof. done. Qed.

Lemma unitProperties_app l1 l2 :
  unitProperties (l1 ++ l2) = unitProperties l1 ++ unitProperties l2.
Proof. unfold unitProperties. apply bind_app. Qed.

Lemma length_unitProperties doc :
  Z.of_nat (length (unitProperties doc)) = getLength doc.
Proof.
  induction doc as [|s doc IH]; [done|].
  rewrite unitProperties_cons, length_app, length_replicate, Nat2Z.inj_add, IH.
  pose proof (cachedLength_nonneg s). cbn [getLength]. simpl. lia.
Qed.

Lemma lookup_paint a b cl units i :
  paint a b cl units !! i
  = (fun props => if decide (a <= Z.of_nat i < b) then setClassList cl props else props)
    <$> units !! i.
Proof. unfold paint. by rewrite list_lookup_imap. Qed.

Lemma length_paint a b cl units : length (paint a b cl units) = length units.
Proof. unfold paint. by rewrite length_imap. Qed.

Lemma paint_app a b cl u1 u2 :
  paint a b cl (u1 ++ u2)
  = paint a b cl u1 ++ paint (a - Z.of_nat (length u1)) (b - Z.of_nat (length u1)) cl u2.
Proof.
  unfold paint. rewrite imap_app. f_equal. apply imap_ext. intros i props _.
  cbn. repeat case_decide; try done; lia.
Qed.

Lemma paint_outside a b cl units :
  (∀ i, (i < length units)%nat → ¬ (a <= Z.of_nat i < b)) →
  paint a b cl units = units.
Proof.
  intros Hout. apply list_eq. intros i. rewrite lookup_paint.
  destruct (units !! i) as [props|] eqn:Hi; [|done]. cbn.
  apply lookup_lt_Some in Hi. by rewrite decide_False by by apply Hout.
Qed.

Lemma paint_inside a b cl n props :
  a <= 0 → Z.of_nat n <= b →
  paint a b cl (replicate n props) = replicate n (setClassList cl props).
Proof.
  intros Ha Hb. apply list_eq. intros i. rewrite lookup_paint.
  destruct (decide (i < n)%nat) as [Hi|Hi].
  - rewrite !lookup_replicate_2 by done. cbn. by rewrite decide_True by lia.
  - assert (∀ x : PropertySet, replicate n x !! i = None) as Hnone
      by (intros x; apply lookup_replicate_None; lia).
    by rewrite !Hnone.
Qed.

Lemma unitProperties_text sid t props :
  unitProperties [TextSegment sid t props] = replicate (String.length t) props.
Proof.
  unfold unitProperties. cbn [mbind list_bind]. rewrite app_nil_r.
  cbn [cachedLength properties]. by rewrite Nat2Z.id.
Qed.

(** Annotating a segment paints the units of it that lie in the range. *)
Lemma unitProperties_annotateSegment fresh a b cl s :
  unitProperties (annotateSegment fresh a b cl s)
  = paint a b cl (replicate (Z.to_nat (cachedLength s)) (properties s)).
Proof.
  unfold annotateSegment. pose proof (cachedLength_nonneg s) as Hn.
  destruct ((b <=? 0) || (cachedLength s <=? a) || (b <=? a)) eqn:Hguard.
  - rewrite paint_outside.
    + unfold unitProperties. cbn [mbind list_bind]. by rewrite app_nil_r.
    + intros i Hi. rewrite length_replicate in Hi.
      apply orb_true_iff in Hguard as [[?%Z.leb_le|?%Z.leb_le]%orb_true_iff|?%Z.leb_le];
        lia.
  - apply orb_false_iff in Hguard as [[Hb%Z.leb_gt Ha%Z.leb_gt]%orb_false_iff Hab%Z.leb_gt].
    destruct s as [sid t props|sid rt props].
    + cbn [cachedLength properties] in *. rewrite Nat2Z.id.
      set (N := String.length t) in *.
      set (lo := Z.to_nat (Z.max 0 a)). set (hi := Z.to_nat (Z.min (Z.of_nat N) b)).
      assert (lo <= hi ∧ hi <= N)%nat as [Hlohi HhiN] by (unfold lo, hi; lia).
      transitivity (replicate lo props ++ replicate (hi - lo) (setClassList cl props)
                    ++ replicate (N - hi) props).
      * rewrite !unitProperties_app.
        destruct (Z.ltb_spec 0 a); destruct (Z.ltb_spec b (Z.of_nat N));
          rewrite ?unitProperties_text, ?length_sliceTo, ?length_slice;
          (f_equal; [|f_equal]);
          first [ f_equal; unfold lo, hi in *; lia
                | replace lo with 0%nat by (unfold lo; lia); done
                | replace (N - hi)%nat with 0%nat by (unfold hi; lia); done ].
      * replace N with (lo + ((hi - lo) + (N - hi)))%nat at 2 by lia.
        rewrite !replicate_add, !paint_app, !length_replicate.
        rewrite paint_outside, paint_inside, paint_outside; [done| | | |].
        -- intros i Hi. rewrite length_replicate in Hi. unfold lo, hi in *. lia.
        -- unfold lo. lia.
        -- unfold lo, hi. lia.
        -- intros i Hi. rewrite length_replicate in Hi. unfold lo. lia.
    + cbn [cachedLength properties] in *.
      unfold unitProperties. cbn [mbind list_bind cachedLength properties].
      rewrite app_nil_r. change (Z.to_nat 1) with 1%nat.
      by rewrite paint_inside by lia.
Qed.

Lemma unitProperties_annotateSegments fresh cl doc :
  ∀ a b, unitProperties (annotateSegments fresh a b cl doc)
         = paint a b cl (unitProperties doc).
Proof.
  induction doc as [|s doc IH]; intros a b; [done|].
  cbn [annotateSegments]. pose proof (cachedLength_nonneg s).
  rewrite unitProperties_app, unitProperties_cons, paint_app, length_replicate.
  rewrite unitProperties_annotateSegment, IH. do 3 f_equal; lia.
Qed.

Lemma unitProperties_annotate a b cl w :
  unitProperties (mergeTree (annotate a b cl w)) = paint a b cl (unitProperties (mergeTree w)).
Proof. apply unitProperties_annotateSegments. Qed.

Lemma unitProperties_annotate_all updates :
  ∀ w,
    unitProperties
      (mergeTree (foldl (fun w '(span, cl) =>
                           annotate (startPosition span) (endPosition span) cl w)
                    w updates))
    = foldl (fun units '(span, cl) =>
               paint (startPosition span) (endPosition span) cl units)
        (unitProperties (mergeTree w)) updates.
Proof.
  induction updates as [|[span cl] updates IH]; intros w; [done|].
  cbn [foldl]. by rewrite IH, unitProperties_annotate.
Qed.

Lemma lookup_paint_all (updates : list (SegmentSpan * option string)) :
  ∀ units i,
    foldl (fun units '(span, cl) =>
             paint (startPosition span) (endPosition span) cl units) units updates !! i
    = (fun props =>
         foldl (fun props '(span, cl) =>
                  if decide (startPosition span <= Z.of_nat i < endPosition span)
                  then setClassList cl props else props) props updates)
      <$> units !! i.
Proof.
  induction updates as [|[span cl] updates IH]; intros units i.
  - cbn [foldl]. by destruct (units !! i).
  - cbn [foldl]. rewrite IH, lookup_paint. by destruct (units !! i).
Qed.

(** The visits of a traversal that cover a unit are visits of the segment
    of that unit, and the unit lies in the range. *)
Lemma overlapping_covers start end_ doc :
  ∀ pos v x,
    v ∈ overlapping pos start end_ doc → covers v x →
    ∃ j, x = pos + Z.of_nat j
         ∧ unitProperties doc !! j = Some (properties v.1.1.2)
         ∧ start <= x < end_.
Proof.
  induction doc as [|s doc IH]; intros pos v x Hv Hx; [by apply elem_of_nil in Hv|].
  cbn [overlapping] in Hv. pose proof (cachedLength_nonneg s) as Hs.
  apply elem_of_app in Hv as [Hv|Hv].
  - destruct (_ <? _); [|by apply elem_of_nil in Hv].
    apply list_elem_of_singleton in Hv as ->. unfold covers in Hx. cbn [fst snd] in *.
    exists (Z.to_nat (x - pos)). split_and!; [lia| |lia|lia].
    rewrite unitProperties_cons, lookup_app_l by (rewrite length_replicate; lia).
    apply lookup_replicate_2. lia.
  - destruct (IH _ _ _ Hv Hx) as (j & -> & Hj & Hrange).
    exists (Z.to_nat (cachedLength s) + j)%nat. split_and!; [lia| |lia|lia].
    rewrite unitProperties_cons, lookup_app_r by (rewrite length_replicate; lia).
    rewrite length_replicate. by replace (_ + j - _)%nat with j by lia.
Qed.

(** Every unit of the range is covered by a visit. *)
Lemma overlapping_covered start end_ doc :
  ∀ pos j,
    (j < length (unitProperties doc))%nat →
    start <= pos + Z.of_nat j < end_ →
    ∃ v, v ∈ overlapping pos start end_ doc ∧ covers v (pos + Z.of_nat j).
Proof.
  induction doc as [|s doc IH]; intros pos j Hj Hrange; [simpl in Hj; lia|].
  cbn [overlapping]. pose proof (cachedLength_nonneg s) as Hs.
  rewrite unitProperties_cons, length_app, length_replicate in Hj.
  destruct (decide (Z.of_nat j < cachedLength s)) as [Hhead|Htail].
  - exists (pos, s, Z.max 0 (start - pos), Z.min (cachedLength s) (end_ - pos)).
    split; [|unfold covers; cbn [fst snd]; lia].
    apply elem_of_app. left.
    destruct (Z.ltb_spec (Z.max 0 (start - pos)) (Z.min (cachedLength s) (end_ - pos)));
      [left|lia].
  - destruct (IH (pos + cachedLength s) (j - Z.to_nat (cachedLength s))%nat)
      as (v & Hv & Hcov); [lia|lia|].
    exists v. split; [apply elem_of_app; by right|].
    by replace (pos + Z.of_nat j)
      with (pos + cachedLength s + Z.of_nat (j - Z.to_nat (cachedLength s))) by lia.
Qed.

Lemma setClassList_setClassList c c' props :
  setClassList c (setClassList c' props) = setClassList c props.
Proof. done. Qed.

Lemma setClassList_classList props : setClassList (classList props) props = props.
Proof. by destruct props. Qed.

(** What a pass of annotations makes of one unit: the class list [f]
    gives, if an annotation covers the unit. *)
Lemma annotations_on_unit (f : option string → option string) x p0
    (vs : list (Z * ISegment * Z * Z)) :
  (∀ v, v ∈ vs → covers v x → classListAt v = classList p0) →
  ∀ p, p = p0 ∨ p = setClassList (f (classList p0)) p0 →
    let result :=
      foldl (fun props '(span, cl) =>
               if decide (startPosition span <= x < endPosition span)
               then setClassList cl props else props) p
        ((fun v => (newSegmentSpan v.1.1.1 v.1.1.2 v.1.2 v.2, f (classListAt v)))
         <$> vs) in
    ((∃ v, v ∈ vs ∧ covers v x) → result = setClassList (f (classList p0)) p0)
    ∧ ((∀ v, v ∈ vs → ¬ covers v x) → result = p).
Proof.
  induction vs as [|v vs IH]; intros Hcl p Hp; cbn zeta.
  - split; [intros (v & Hv & _); by apply elem_of_nil in Hv|done].
  - rewrite fmap_cons. cbn [foldl].
    change (startPosition (newSegmentSpan v.1.1.1 v.1.1.2 v.1.2 v.2)
            <= x < endPosition (newSegmentSpan v.1.1.1 v.1.1.2 v.1.2 v.2))
      with (covers v x).
    assert (∀ v', v' ∈ vs → covers v' x → classListAt v' = classList p0) as Hcl'
      by (intros v' Hv'; apply Hcl; by right).
    destruct (decide (covers v x)) as [Hcov|Hcov].
    + assert (setClassList (f (classListAt v)) p = setClassList (f (classList p0)) p0)
        as ->.
      { rewrite (Hcl v) by (done || left). by destruct Hp as [->| ->]. }
      destruct (IH Hcl' (setClassList (f (classList p0)) p0)) as [Hsome Hnone];
        [by right|].
      split.
      * intros _. destruct (decide (Exists (fun v' => covers v' x) vs)) as [Hex|Hex].
        -- apply Hsome. apply Exists_exists in Hex as (v' & ? & ?). by exists v'.
        -- apply Hnone. intros v' Hv' Hc. apply Hex, Exists_exists. by exists v'.
      * intros Hno. destruct (Hno v); [left|done].
    + destruct (IH Hcl' p Hp) as [Hsome Hnone]. split.
      * intros (v' & [->|Hv']%elem_of_cons & Hc); [done|]. apply Hsome. by exists v'.
      * intros Hno. apply Hnone. intros v' Hv'. apply Hno. by right.
Qed.

Lemma lookup_restyle f start end_ units i :
  restyle f start end_ units !! i
  = (fun props => if decide (start <= Z.of_nat i < end_)
                  then setClassList (f (classList props)) props else props)
    <$> units !! i.
Proof. unfold restyle. by rewrite list_lookup_imap. Qed.

(** A pass of [updateCssClassList] gives each unit of the range the
    class list its callback makes of the one the unit has, and leaves the
    other units, and the length of the document, as they are. *)
Lemma updateCssClassList_units {S} (f : option string → option string)
    (h : option string → S → S) start end_ s0 w :
  ∃ s1 w',
    updateCssClassList start end_ (fun cl s => (f cl, h cl s)) s0 w = Ok (s1, w')
    ∧ unitProperties (mergeTree w') = restyle f start end_ (unitProperties (mergeTree w))
    ∧ FlowDocument_length w' = FlowDocument_length w.
Proof.
  rewrite updateCssClassList_spec. eexists _, _. split; [done|].
  set (doc := mergeTree w).
  set (vs := filter (fun v => f (classListAt v) ≠ classListAt v) (visited start end_ doc)).
  assert (unitProperties
            (mergeTree
               (foldl (fun w '(span, cl) =>
                         annotate (startPosition span) (endPosition span) cl w) w
                  ((fun v => (newSegmentSpan v.1.1.1 v.1.1.2 v.1.2 v.2, f (classListAt v)))
                   <$> vs)))
          = restyle f start end_ (unitProperties doc)) as Hunits.
  { rewrite unitProperties_annotate_all. fold doc. apply list_eq. intros i.
    rewrite lookup_paint_all, lookup_restyle.
    destruct (unitProperties doc !! i) as [p0|] eqn:Hi; [|done].
    cbn [fmap option_fmap option_map]. f_equal.
    assert (∀ v, v ∈ visited start end_ doc → covers v (Z.of_nat i) →
                 classListAt v = classList p0 ∧ start <= Z.of_nat i < end_) as Hvisit.
    { intros v Hv Hcov. unfold visited in Hv.
      destruct (negb _); [by apply elem_of_nil in Hv|].
      destruct (overlapping_covers _ _ _ _ _ _ Hv Hcov) as (j & Hj & Hp & Hrange).
      assert (j = i) as -> by lia. rewrite Hi in Hp. injection Hp as ->. done. }
    destruct (annotations_on_unit f (Z.of_nat i) p0 vs) with (p := p0)
      as [Hsome Hnone]; [|by left|].
    { intros v [_ Hv]%list_elem_of_filter Hcov. by apply Hvisit. }
    case_decide as Hrange.
    - destruct (overlapping_covered start end_ doc 0 i) as (v & Hv & Hcov);
        [by eapply lookup_lt_Some|lia|].
      assert (v ∈ visited start end_ doc) as Hv'.
      { unfold visited. by destruct (Z.ltb_spec start end_); [|lia]. }
      destruct (Hvisit v Hv' Hcov) as [Hcl _].
      destruct (decide (f (classListAt v) = classListAt v)) as [Hsame|Hchanged].
      + rewrite Hcl in Hsame. rewrite Hsame, setClassList_classList.
        destruct (decide (Exists (fun v' => covers v' (Z.of_nat i)) vs)) as [Hex|Hex].
        * rewrite Hsome; [|apply Exists_exists in Hex as (v' & ? & ?); by exists v'].
          by rewrite Hsame, setClassList_classList.
        * apply Hnone. intros v' ? ?. apply Hex, Exists_exists. by exists v'.
      + apply Hsome. exists v. split; [|done]. by apply list_elem_of_filter.
    - apply Hnone. intros v [_ Hv]%list_elem_of_filter Hcov.
      by destruct (Hvisit v Hv Hcov). }
  split; [done|].
  unfold FlowDocument_length. rewrite <- !length_unitProperties, Hunits.
  unfold restyle. by rewrite length_imap.
Qed.

(** X15 (FlowDocument.addCssClass): adding classes to a range gives every
    unit of the range the class list [TokenList.set] makes of the one the
    unit had and the classes joined by spaces; the other units keep their
    class lists, and all units keep their other properties and their
    places. *)
Theorem addCssClass_units start end_ classNames w :
  classNames ≠ [] →
  ∃ w',
    addCssClass start end_ classNames w = Ok w'
    ∧ unitProperties (mergeTree w')
      = restyle (fun classList => TokenList.set classList (TokenList.join classNames))
          start end_ (unitProperties (mergeTree w))
    ∧ FlowDocument_length w' = FlowDocument_length w.
Proof.
  intros Hnames. unfold addCssClass. rewrite decide_True by done.
  destruct (updateCssClassList_units
              (fun classList => TokenList.set classList (TokenList.join classNames))
              (fun _ (_ : unit) => tt) start end_ tt w)
    as (s1 & w' & -> & Hunits & Hlen).
  by exists w'.
Qed.

Lemma addCssClass_units_witness :
  ["y"] ≠ []
  ∧ ∃ w',
      addCssClass 1 3 ["y"] halfStyled = Ok w'
      ∧ unitProperties (mergeTree w')
        = restyle (fun classList => TokenList.set classList (TokenList.join ["y"]))
            1 3 (unitProperties (mergeTree halfStyled))
      ∧ FlowDocument_length w' = FlowDocument_length halfStyled.
Proof.
  assert (["y"] ≠ ([] : list string)) as Hnames by discriminate.
  split; [exact Hnames|].
  exact (addCssClass_units 1 3 ["y"] halfStyled Hnames).
Defined.

(** X16 (FlowDocument.removeCssClass): removing classes from a range
    gives every unit of the range the class list left when
    [TokenList.unset] has taken each of the classes, in their order, from
    the one the unit had; the other units keep their class lists, and all
    units keep their other properties and their places. *)
Theorem removeCssClass_units start end_ classNames w :
  ∃ w',
    removeCssClass start end_ classNames w = Ok w'
    ∧ unitProperties (mergeTree w')
      = restyle (fun classList => foldl TokenList.unset classList classNames)
          start end_ (unitProperties (mergeTree w))
    ∧ FlowDocument_length w' = FlowDocument_length w.
Proof.
  unfold removeCssClass.
  destruct (updateCssClassList_units
              (fun classList => foldl TokenList.unset classList classNames)
              (fun _ (_ : unit) => tt) start end_ tt w)
    as (s1 & w' & -> & Hunits & Hlen).
  by exists w'.
Qed.

(** * Ranges that are empty or inverted *)

(** X17 (FlowDocument.remove, no range): when [end] is not after [start]
    nothing is visited; an empty range submits a group without operations,
    and an inverted range submits the one removal from [start] to [end] as
    it was given, its end before its start. *)
Theorem remove_without_range start end_ doc :
  end_ <= start →
  remove start end_ doc
  = Ok [GroupOperation (if decide (start = end_) then []
                        else [RemoveRangeOp start end_])].
Proof.
  intros Hrange. unfold remove, removeScan, visitRange.
  destruct (Z.ltb_spec start end_); [lia|]. cbn [negb mbind result_bind].
  case_decide; [by rewrite decide_False by done|by rewrite decide_True by done].
Qed.

Lemma remove_without_range_witness :
  1 <= 3
  ∧ remove 3 1 scenario2 = Ok [GroupOperation [RemoveRangeOp 3 1]].
Proof.
  split; [lia|].
  exact (remove_without_range 3 1 scenario2 ltac:(lia)).
Defined.

(** * What [sync] leaves selected *)

Section Caret_sync_selection.
Context {Node : Type} `{EqDecision Node}.
Variable layout : option ISegment → Z → Node * Z.

(** X18 (Caret.sync): after [sync] the external selection is at the node
    and offset the layout gives for the start reference and at the node
    and offset it gives for the end reference, whether [sync] had to set
    it or found it there. *)
Theorem sync_selects doc caret (pres pres1 : Presentation Node) :
  sync layout doc caret pres = Ok pres1 →
  ∃ startSegment startOffset endSegment endOffset,
    (∀ pres0, positionToNodeOffset layout doc (startRef caret) pres0
              = Ok (mapToNode layout startSegment startOffset pres0))
    ∧ (∀ pres0, positionToNodeOffset layout doc (endRef caret) pres0
                = Ok (mapToNode layout endSegment endOffset pres0))
    ∧ selection pres1
      = mkSelection (Some (layout startSegment startOffset).1)
          (layout startSegment startOffset).2
          (Some (layout endSegment endOffset).1)
          (layout endSegment endOffset).2.
Proof.
  unfold sync. intros Hsync.
  apply bind_Ok in Hsync as ([[startNode startAt] pres2] & Hstart & Hsync).
  apply bind_Ok in Hsync as ([[endNode endAt] pres3] & Hend & Hsync).
  destruct (positionToNodeOffset_target layout _ _ _ _ _ Hstart)
    as (startSegment & startOffset & Hs).
  destruct (positionToNodeOffset_target layout _ _ _ _ _ Hend)
    as (endSegment & endOffset & He).
  exists startSegment, startOffset, endSegment, endOffset.
  split_and!; [done|done|].
  rewrite Hs in Hstart. rewrite He in Hend. unfold mapToNode in Hstart, Hend.
  injection Hstart as Hstart <-. injection Hend as Hend <-.
  rewrite Hstart, Hend. cbn [fst snd].
  case_decide as Hdiffers; injection Hsync as <-; [done|].
  cbn [selection] in *. destruct (selection pres) as [an ao fn fo].
  cbn [anchorNode anchorOffset focusNode focusOffset] in Hdiffers.
  destruct (decide (endAt = fo)); [|tauto].
  destruct (decide (Some endNode = fn)); [|tauto].
  destruct (decide (startAt = ao)); [|tauto].
  destruct (decide (Some startNode = an)); [|tauto].
  by subst.
Qed.
End Caret_sync_selection.

Lemma sync_selects_witness :
  sync exampleLayout scenario2 exampleCaret noSelection = Ok synced
  ∧ ∃ startSegment startOffset endSegment endOffset,
      (∀ pres0, positionToNodeOffset exampleLayout scenario2 (startRef exampleCaret) pres0
                = Ok (mapToNode exampleLayout startSegment startOffset pres0))
      ∧ (∀ pres0, positionToNodeOffset exampleLayout scenario2 (endRef exampleCaret) pres0
                  = Ok (mapToNode exampleLayout endSegment endOffset pres0))
      ∧ selection synced
        = mkSelection (Some (exampleLayout startSegment startOffset).1)
            (exampleLayout startSegment startOffset).2
            (Some (exampleLayout endSegment endOffset).1)
            (exampleLayout endSegment endOffset).2.
Proof.
  assert (sync exampleLayout scenario2 exampleCaret noSelection = Ok synced) as Hsync
    by (vm_compute; reflexivity).
  split; [exact Hsync|].
  exact (sync_selects exampleLayout scenario2 exampleCaret noSelection synced Hsync).
Defined.

(** * Tag pairs that overlap without nesting *)

(** At an end tag whose begin tag lies before the active start, the scan
    flushes the removal up to the tag and goes on after it. *)
Lemma scan_flush doc start end_ prefix e rest s ops startTag startPos :
  start <= getLength prefix < end_ →
  getDocSegmentKind (Some e) = Ok endTags →
  getStart doc e = Ok startTag →
  getPosition doc startTag = Ok startPos →
  startPos < s →
  mapRange (removeLeaf doc end_) (s, ops) (getLength prefix) start end_ (e :: rest)
  = mapRange (removeLeaf doc end_)
      (getLength prefix + 1, ops ++ [RemoveRangeOp s (getLength prefix)])
      (getLength (prefix ++ [e])) start end_ rest.
Proof.
  intros Hp Hk Hst Hsp Hlt. pose proof (kind_endTags_marker _ Hk) as He1.
  set (p := getLength prefix) in *.
  assert (removeLeaf doc end_ p e (Z.max 0 (start - p)) (Z.min (cachedLength e) (end_ - p))
            (s, ops) = Ok (true, (p + 1, ops ++ [RemoveRangeOp s p]))) as Hleaf.
  { unfold removeLeaf. rewrite Hk. simpl. rewrite Hst. simpl. rewrite Hsp. simpl.
    destruct (Z.leb_spec s startPos); [lia|done]. }
  cbn [mapRange].
  destruct (Z.ltb_spec (Z.max 0 (start - p)) (Z.min (cachedLength e) (end_ - p))); [|lia].
  rewrite Hleaf. cbn [mbind result_bind].
  rewrite getLength_app. fold p.
  assert (getLength [e] = 1) as -> by (simpl; lia).
  by rewrite He1.
Qed.

Lemma getLength_cons x (doc : MergeTree) :
  getLength (x :: doc) = cachedLength x + getLength doc.
Proof. done. Qed.

Lemma getLength_snoc (doc : MergeTree) x :
  getLength (doc ++ [x]) = getLength doc + cachedLength x.
Proof. rewrite getLength_app, getLength_cons. simpl. lia. Qed.

(** Two ways of cutting a document at the same position before a segment
    that has units cut it before the same segment. *)
Lemma split_unique (l1 m1 : MergeTree) x y l2 m2 :
  l1 ++ x :: l2 = m1 ++ y :: m2 → getLength l1 = getLength m1 →
  0 < cachedLength x → 0 < cachedLength y → x = y.
Proof.
  revert m1. induction l1 as [|a l1 IH]; intros m1 Heq Hlen Hx Hy.
  - destruct m1 as [|b m1]; [by injection Heq|].
    injection Heq as -> _. pose proof (getLength_nonneg m1).
    rewrite getLength_cons in Hlen. simpl in Hlen. lia.
  - destruct m1 as [|b m1].
    + injection Heq as -> _. pose proof (getLength_nonneg l1).
      rewrite getLength_cons in Hlen. simpl in Hlen. lia.
    + injection Heq as -> Heq. rewrite !getLength_cons in Hlen.
      apply (IH m1 Heq); [lia|done|done].
Qed.

Lemma removed_or_stepped start end_ doc ops :
  start < end_ → remove start end_ doc = Ok [GroupOperation ops] →
  ∀ p, start <= p < end_ → covered p ops ∨ steppedOver doc p ops.
Proof.
  intros Hlt Hrem p Hp.
  destruct (remove_group _ _ _ _ Hrem)
    as (start' & scanned & ops' & Hscan & [= <-] & Hperm & _).
  destruct (removeScan_spec _ _ _ _ _ Hlt Hscan) as (Hs1 & Hs2 & _ & _).
  unfold removeScan, visitRange in Hscan.
  destruct (Z.ltb_spec start end_); [|lia]. simpl in Hscan.
  destruct (scan_cover doc start end_ doc [] start [] (start', scanned))
    as (s' & new & [= Hs' Hnew] & Hcov); [done|simpl; lia|done|].
  simpl in Hnew. subst start' scanned.
  assert (new ⊆ ops) as Hsub.
  { intros op Hop. rewrite Hperm. apply elem_of_app. by left. }
  destruct (Z.lt_ge_cases p s') as [Hin|Hout].
  - destruct (Hcov p) as [?|?]; [lia|left|right].
    + by eapply covered_mono.
    + by eapply steppedOver_mono.
  - left. exists (RemoveRangeOp s' end_). split; [|simpl; lia].
    rewrite Hperm. apply elem_of_app. right.
    rewrite decide_True by lia. left.
Qed.

(** X19 (FlowDocument.remove, overlapping pairs): when the range holds a
    begin tag, then an end tag whose own begin tag lies before the range,
    then the end tag of the first begin tag, the scan has moved its start
    past the begin tag when it reaches that end tag, takes the begin tag
    for one outside the range and keeps the end tag: the submitted
    removals take the begin tag away and leave its end tag. *)
Theorem remove_keeps_end_of_removed_begin start end_ doc l0 b m e0 l2 e l3
    startTag0 startPos0 startTag calls :
  doc = l0 ++ b :: m ++ e0 :: l2 ++ e :: l3 →
  start <= getLength l0 →
  getLength (l0 ++ b :: m ++ e0 :: l2) < end_ →
  getDocSegmentKind (Some b) = Ok beginTags →
  getDocSegmentKind (Some e0) = Ok endTags →
  getStart doc e0 = Ok startTag0 →
  getPosition doc startTag0 = Ok startPos0 →
  startPos0 < start →
  getDocSegmentKind (Some e) = Ok endTags →
  getStart doc e = Ok startTag →
  getPosition doc startTag = Ok (getLength l0) →
  remove start end_ doc = Ok calls →
  ∃ ops,
    calls = [GroupOperation ops]
    ∧ covered (getLength l0) ops
    ∧ ¬ covered (getLength (l0 ++ b :: m ++ e0 :: l2)) ops.
Proof.
  intros Hdoc Hstart Hend Hkb Hk0 Hst0 Hsp0 Hlt0 Hk Hst Hsp Hrem.
  pose proof (kind_beginTags_marker _ Hkb) as Hb1.
  pose proof (kind_endTags_marker _ Hk0) as He01.
  pose proof (kind_endTags_marker _ Hk) as He1.
  pose proof (getLength_nonneg l0). pose proof (getLength_nonneg m).
  pose proof (getLength_nonneg l2).
  set (A := l0 ++ b :: m) in *.
  assert (getLength A = getLength l0 + 1 + getLength m) as HA.
  { unfold A. rewrite getLength_app, getLength_cons. lia. }
  assert (l0 ++ b :: m ++ e0 :: l2 = (A ++ [e0]) ++ l2) as Hq.
  { unfold A. by rewrite <- !app_assoc. }
  rewrite Hq in *.
  set (Q := (A ++ [e0]) ++ l2) in *.
  assert (getLength (A ++ [e0]) = getLength A + 1) as HAe.
  { rewrite getLength_snoc. lia. }
  assert (getLength Q = getLength A + 1 + getLength l2) as HQ.
  { unfold Q. rewrite getLength_app. lia. }
  assert (doc = A ++ e0 :: l2 ++ e :: l3) as Hdoc'.
  { rewrite Hdoc. unfold A. by rewrite <- !app_assoc. }
  destruct (remove_group _ _ _ _ Hrem)
    as (start' & scanned & ops & Hscan & -> & Hperm & _).
  exists ops. split; [done|].
  assert (start < end_) as Hlt by lia.
  split.
  - (* the begin tag is taken away *)
    destruct (removed_or_stepped start end_ doc ops Hlt Hrem (getLength l0))
      as [?|Hstepped]; [lia|done|].
    destruct Hstepped as (l1' & e' & l2' & st & sp & s & Hsplit & Hlen & Hke & _).
    pose proof (kind_endTags_marker _ Hke) as He'1.
    rewrite Hdoc in Hsplit.
    assert (b = e') as <- by (eapply split_unique; [exact Hsplit|lia|lia|lia]).
    rewrite Hkb in Hke. discriminate.
  - (* its end tag is left *)
    unfold removeScan, visitRange in Hscan.
    destruct (Z.ltb_spec start end_) as [_|?]; [|lia]. cbn [negb] in Hscan.
    rewrite Hdoc' in Hscan at 2.
    rewrite mapRange_removeLeaf_app in Hscan.
    apply bind_Ok in Hscan as ([s1 ops1] & Hscan1 & Hscan).
    destruct (scan_spec doc start end_ A [] start [] (s1, ops1))
      as (s1' & new1 & [= <- Hops1] & Hs1 & _ & Hs1' & Hp1 & _);
      [simpl; lia|lia|done|].
    simpl in Hops1, Hs1'. subst new1.
    rewrite Z.add_0_l in Hscan.
    rewrite (scan_flush doc start end_ A e0 _ s1 ops1 startTag0 startPos0) in Hscan;
      [|lia|done|done|done|lia].
    replace (l2 ++ e :: l3) with (l2 ++ [e] ++ l3) in Hscan by done.
    rewrite mapRange_removeLeaf_app in Hscan.
    apply bind_Ok in Hscan as ([s2 ops2] & Hscan2 & Hscan).
    destruct (scan_spec doc start end_ l2 (A ++ [e0]) (getLength A + 1)
                (ops1 ++ [RemoveRangeOp s1 (getLength A)]) (s2, ops2))
      as (s2' & new2 & [= <- ->] & Hs2 & _ & Hs2' & Hp2 & _); [lia|lia|done|].
    fold Q in Hs2'. rewrite <- getLength_app in Hscan. fold Q in Hscan.
    cbn [app] in Hscan.
    rewrite (scan_flush doc start end_ Q e _ s2 _ startTag (getLength l0)) in Hscan;
      [|lia|done|done|done|lia].
    destruct (scan_spec doc start end_ l3 (Q ++ [e]) (getLength Q + 1)
                (((ops1 ++ [RemoveRangeOp s1 (getLength A)]) ++ new2)
                 ++ [RemoveRangeOp s2 (getLength Q)]) (start', scanned))
      as (s3 & new3 & [= <- ->] & Hs3 & Hs3' & _ & Hp3 & _).
    { rewrite getLength_snoc. lia. }
    { lia. }
    { done. }
    intros (op & Hop & Hcov). rewrite Hperm in Hop.
    rewrite !elem_of_app in Hop.
    destruct Hop as [[[[[Hop|Hop]|Hop]|Hop]|Hop]|Hop].
    + rewrite Forall_forall in Hp1.
      eapply (pushed_not_covering doc end_ start s1 A op (getLength Q));
        [lia|right; lia|by apply Hp1|done].
    + apply list_elem_of_singleton in Hop as ->. simpl in Hcov. lia.
    + rewrite Forall_forall in Hp2.
      eapply (pushed_not_covering doc end_ (getLength A + 1) s2 l2 op (getLength Q));
        [lia|right; lia|by apply Hp2|done].
    + apply list_elem_of_singleton in Hop as ->. simpl in Hcov. lia.
    + rewrite Forall_forall in Hp3.
      eapply (pushed_not_covering doc end_ (getLength Q + 1) start' l3 op (getLength Q));
        [lia|left; lia|by apply Hp3|done].
    + case_decide; [|by apply elem_of_nil in Hop].
      apply list_elem_of_singleton in Hop as ->. simpl in Hcov. lia.
Qed.

Lemma remove_keeps_end_of_removed_begin_witness :
  overlappingTags
  = [beginMarkerOf 0 ["b"] "a"; TextSegment 1 "x" empty]
    ++ beginMarkerOf 2 ["i"] "b" :: [] ++ endMarkerOf 3 "a" :: []
    ++ endMarkerOf 4 "b" :: [TextSegment 5 "y" empty]
  ∧ 1 <= 2 ∧ 4 < 6 ∧ 0 < 1
  ∧ remove 1 6 overlappingTags
    = Ok [GroupOperation [RemoveRangeOp 5 6; RemoveRangeOp 4 4; RemoveRangeOp 1 3]]
  ∧ ∃ ops,
      [GroupOperation [RemoveRangeOp 5 6; RemoveRangeOp 4 4; RemoveRangeOp 1 3]]
      = [GroupOperation ops]
      ∧ covered 2 ops ∧ ¬ covered 4 ops.
Proof.
  assert (remove 1 6 overlappingTags
          = Ok [GroupOperation [RemoveRangeOp 5 6; RemoveRangeOp 4 4; RemoveRangeOp 1 3]])
    as Hrem by (vm_compute; reflexivity).
  split_and!; [reflexivity|lia|lia|lia|exact Hrem|].
  exact (remove_keeps_end_of_removed_begin 1 6 overlappingTags
           [beginMarkerOf 0 ["b"] "a"; TextSegment 1 "x" empty]
           (beginMarkerOf 2 ["i"] "b") [] (endMarkerOf 3 "a") [] (endMarkerOf 4 "b")
           [TextSegment 5 "y" empty]
           (Some (beginMarkerOf 0 ["b"] "a")) 0 (Some (beginMarkerOf 2 ["i"] "b")) _
           eq_refl ltac:(simpl; lia) ltac:(simpl; lia) eq_refl eq_refl eq_refl eq_refl
           ltac:(lia) eq_refl eq_refl eq_refl Hrem).
Defined.

(** On that document the store is left with the end tag of a begin tag
    that is gone, and [toString] fails on it. *)
Example overlapping_pairs_applied :
  (st ← applyGroup (mkStore overlappingTags 6)
          [RemoveRangeOp 5 6; RemoveRangeOp 4 4; RemoveRangeOp 1 3];
   Ok (segments st, toString (segments st)))
  = Ok ([beginMarkerOf 0 ["b"] "a"; endMarkerOf 3 "a"; endMarkerOf 4 "b"],
        Throw TypeError).
Proof. vm_compute. reflexivity. Qed.

(** * Tag pairs that nest *)

Lemma positionOf_middle (prefix : MergeTree) x rest :
  distinctSegments (prefix ++ x :: rest) →
  positionOf (prefix ++ x :: rest) (segId x) = Some (getLength prefix).
Proof.
  unfold distinctSegments. induction prefix as [|a prefix IH]; intros Hnd.
  - cbn [app positionOf]. by rewrite decide_True.
  - rewrite <- app_comm_cons, fmap_cons in Hnd. apply NoDup_cons in Hnd as [Hnotin Hnd].
    rewrite <- app_comm_cons. cbn [positionOf]. rewrite decide_False.
    + rewrite (IH Hnd). cbn [fmap option_fmap option_map]. by rewrite getLength_cons.
    + intros Heq. apply Hnotin. rewrite Heq. apply list_elem_of_fmap_2.
      apply elem_of_app. right. left.
Qed.

(** A segment that starts inside the stretch of another is that other
    segment. *)
Lemma split_overlap (prefix l1 : MergeTree) x e rest l2 :
  prefix ++ x :: rest = l1 ++ e :: l2 →
  getLength prefix <= getLength l1 < getLength prefix + cachedLength x →
  0 < cachedLength e →
  x = e ∧ getLength l1 = getLength prefix.
Proof.
  revert l1. induction prefix as [|a prefix IH]; intros l1 Heq Hlen He.
  - destruct l1 as [|b l1]; [by injection Heq|].
    injection Heq as -> _. pose proof (getLength_nonneg l1).
    rewrite getLength_cons in Hlen. simpl in Hlen. lia.
  - destruct l1 as [|b l1].
    + injection Heq as -> _. pose proof (getLength_nonneg prefix).
      rewrite getLength_cons in Hlen. simpl in Hlen. lia.
    + injection Heq as -> Heq. rewrite !getLength_cons in Hlen.
      destruct (IH l1 Heq) as [-> Hl]; [lia|done|].
      split; [done|]. rewrite !getLength_cons. lia.
Qed.

Lemma positionOf_overlap doc prefix x rest e y :
  distinctSegments doc → doc = prefix ++ x :: rest →
  e ∈ doc → positionOf doc (segId e) = Some y → 0 < cachedLength e →
  getLength prefix <= y < getLength prefix + cachedLength x →
  x = e ∧ y = getLength prefix.
Proof.
  intros Hnd Hdoc Hin Hy He Hrange.
  destruct (positionOf_split _ _ _ Hnd Hin Hy) as (l1 & l2 & Hsplit & Hl1).
  rewrite Hdoc in Hsplit.
  destruct (split_overlap prefix l1 x e rest l2 Hsplit) as [-> ?]; [lia|done|].
  split; [done|lia].
Qed.

Lemma same_position doc a b p :
  distinctSegments doc → a ∈ doc → b ∈ doc →
  positionOf doc (segId a) = Some p → positionOf doc (segId b) = Some p →
  cachedLength a = 1 → cachedLength b = 1 → a = b.
Proof.
  intros Hnd Ha Hb Hpa Hpb Hla Hlb.
  destruct (positionOf_split _ _ _ Hnd Ha Hpa) as (l1 & l2 & Hsplit & Hl1).
  destruct (positionOf_overlap doc l1 a l2 b p Hnd Hsplit Hb Hpb) as [-> _]; [lia|lia|done].
Qed.

Lemma same_identity doc a b :
  distinctSegments doc → a ∈ doc → b ∈ doc → segId a = segId b → a = b.
Proof.
  unfold distinctSegments. intros Hnd Ha Hb Hid.
  apply list_elem_of_lookup in Ha as [i Hi]. apply list_elem_of_lookup in Hb as [j Hj].
  assert (i = j) as ->.
  { eapply NoDup_lookup; [exact Hnd| |].
    - rewrite list_lookup_fmap, Hi. done.
    - rewrite list_lookup_fmap, Hj. simpl. by rewrite Hid. }
  congruence.
Qed.

Lemma pairs_elem_of doc pb pe :
  (pb, pe) ∈ pairs doc ↔
  ∃ b e, b ∈ doc ∧ getDocSegmentKind (Some b) = Ok beginTags
         ∧ getEnd doc b = Ok (Some e)
         ∧ positionOf doc (segId b) = Some pb ∧ positionOf doc (segId e) = Some pe.
Proof.
  unfold pairs. rewrite list_elem_of_omap. split.
  - intros (b & Hb & Hpair). unfold pairOf in Hpair.
    destruct (getDocSegmentKind (Some b)) as [[]|] eqn:Hk; try done.
    destruct (getEnd doc b) as [[e|]|] eqn:He; try done.
    destruct (positionOf doc (segId b)) as [pb'|] eqn:Hpb; [|done].
    destruct (positionOf doc (segId e)) as [pe'|] eqn:Hpe; [|done].
    injection Hpair as <- <-. by exists b, e.
  - intros (b & e & Hb & Hk & He & Hpb & Hpe). exists b. split; [done|].
    unfold pairOf. by rewrite Hk, He, Hpb, Hpe.
Qed.

(** In a document whose tags have their partners, a pair is a begin tag
    and an end tag that name each other, the begin tag first. *)
Lemma pairs_partners doc pb pe :
  distinctSegments doc → wellPaired doc → (pb, pe) ∈ pairs doc →
  ∃ b e, b ∈ doc ∧ e ∈ doc
         ∧ getDocSegmentKind (Some b) = Ok beginTags
         ∧ getDocSegmentKind (Some e) = Ok endTags
         ∧ getEnd doc b = Ok (Some e) ∧ getStart doc e = Ok (Some b)
         ∧ positionOf doc (segId b) = Some pb ∧ positionOf doc (segId e) = Some pe
         ∧ pb < pe.
Proof.
  intros Hnd Hwp (b & e & Hb & Hk & He & Hpb & Hpe)%pairs_elem_of.
  unfold wellPaired in Hwp. rewrite Forall_forall in Hwp.
  pose proof (Hwp b Hb) as Hpaired. unfold pairedSegment in Hpaired.
  rewrite Hk, He, Hpb, Hpe in Hpaired.
  apply andb_true_iff in Hpaired as [[Hke%bool_decide_eq_true Hback]%andb_true_iff Hlt%Z.ltb_lt].
  destruct (getStart doc e) as [[b'|]|] eqn:Hst; try done.
  apply bool_decide_eq_true in Hback.
  destruct (getOppositeMarker_Some _ _ _ _ _ He) as (Hein & _ & _).
  destruct (getOppositeMarker_Some _ _ _ _ _ Hst) as (Hb'in & _ & _).
  assert (b' = b) as -> by by apply (same_identity doc).
  by exists b, e.
Qed.

Lemma pairs_same_end doc pb pb' pe :
  distinctSegments doc → wellPaired doc →
  (pb, pe) ∈ pairs doc → (pb', pe) ∈ pairs doc → pb = pb'.
Proof.
  intros Hnd Hwp H1 H2.
  destruct (pairs_partners _ _ _ Hnd Hwp H1)
    as (b & e & Hb & He & Hkb & Hke & Hend & Hst & Hpb & Hpe & _).
  destruct (pairs_partners _ _ _ Hnd Hwp H2)
    as (b' & e' & Hb' & He' & Hkb' & Hke' & Hend' & Hst' & Hpb' & Hpe' & _).
  assert (e = e') as <-.
  { apply (same_position doc e e' pe); try done; by apply kind_endTags_marker. }
  rewrite Hst in Hst'. injection Hst' as <-. congruence.
Qed.

Lemma pairs_begin_not_end doc p q pb :
  distinctSegments doc → wellPaired doc →
  (p, q) ∈ pairs doc → (pb, p) ∈ pairs doc → False.
Proof.
  intros Hnd Hwp H1 H2.
  destruct (pairs_partners _ _ _ Hnd Hwp H1)
    as (b & e & Hb & He & Hkb & Hke & Hend & Hst & Hpb & Hpe & _).
  destruct (pairs_partners _ _ _ Hnd Hwp H2)
    as (b' & e' & Hb' & He' & Hkb' & Hke' & Hend' & Hst' & Hpb' & Hpe' & _).
  assert (b = e') as ->.
  { apply (same_position doc b e' p); try done;
      [by apply kind_beginTags_marker|by apply kind_endTags_marker]. }
  congruence.
Qed.

Lemma pairs_inside doc pb pe :
  distinctSegments doc → wellPaired doc → (pb, pe) ∈ pairs doc →
  0 <= pb ∧ pb < pe ∧ pe < getLength doc.
Proof.
  intros Hnd Hwp H.
  destruct (pairs_partners _ _ _ Hnd Hwp H)
    as (b & e & Hb & He & Hkb & Hke & Hend & Hst & Hpb & Hpe & Hlt).
  destruct (positionOf_bounds _ _ _ Hnd Hb Hpb).
  destruct (positionOf_bounds _ _ _ Hnd He Hpe).
  apply kind_endTags_marker in Hke. lia.
Qed.

(** What the scan finds at an end tag. *)
Lemma end_tag_pair doc prefix x rest :
  distinctSegments doc → wellPaired doc → doc = prefix ++ x :: rest →
  getDocSegmentKind (Some x) = Ok endTags →
  ∃ b pb, getStart doc x = Ok (Some b) ∧ getPosition doc (Some b) = Ok pb
          ∧ (pb, getLength prefix) ∈ pairs doc ∧ pb < getLength prefix.
Proof.
  intros Hnd Hwp Hdoc Hk.
  assert (x ∈ doc) as Hx by (rewrite Hdoc; apply elem_of_app; right; left).
  assert (positionOf doc (segId x) = Some (getLength prefix)) as Hpx.
  { rewrite Hdoc. apply positionOf_middle. by rewrite <- Hdoc. }
  pose proof Hwp as Hwp'. unfold wellPaired in Hwp'. rewrite Forall_forall in Hwp'.
  pose proof (Hwp' x Hx) as Hpaired. unfold pairedSegment in Hpaired. rewrite Hk in Hpaired.
  destruct (getStart doc x) as [[b|]|] eqn:Hst; try done.
  apply andb_true_iff in Hpaired as [Hkb%bool_decide_eq_true Hback].
  destruct (getEnd doc b) as [[e|]|] eqn:Hend; try done.
  apply bool_decide_eq_true in Hback.
  destruct (getOppositeMarker_Some _ _ _ _ _ Hst) as (Hbin & _ & _).
  destruct (getOppositeMarker_Some _ _ _ _ _ Hend) as (Hein & _ & _).
  assert (e = x) as -> by by apply (same_identity doc).
  destruct (positionOf_elem_of _ _ Hbin) as [pb Hpb].
  assert ((pb, getLength prefix) ∈ pairs doc) as Hpair.
  { apply pairs_elem_of. by exists b, x. }
  exists b, pb. split_and!; [done| |done|].
  - cbn [getPosition]. unfold mergeTree_getPosition. by rewrite Hpb.
  - by destruct (pairs_inside _ _ _ Hnd Hwp Hpair) as (_ & ? & _).
Qed.

(** What the scan finds at a begin tag. *)
Lemma begin_tag_pair doc prefix x rest :
  distinctSegments doc → wellPaired doc → doc = prefix ++ x :: rest →
  getDocSegmentKind (Some x) = Ok beginTags →
  ∃ e q, getEnd doc x = Ok (Some e) ∧ getPosition doc (Some e) = Ok q
         ∧ (getLength prefix, q) ∈ pairs doc.
Proof.
  intros Hnd Hwp Hdoc Hk.
  assert (x ∈ doc) as Hx by (rewrite Hdoc; apply elem_of_app; right; left).
  assert (positionOf doc (segId x) = Some (getLength prefix)) as Hpx.
  { rewrite Hdoc. apply positionOf_middle. by rewrite <- Hdoc. }
  pose proof Hwp as Hwp'. unfold wellPaired in Hwp'. rewrite Forall_forall in Hwp'.
  pose proof (Hwp' x Hx) as Hpaired. unfold pairedSegment in Hpaired. rewrite Hk in Hpaired.
  destruct (getEnd doc x) as [[e|]|] eqn:Hend; try done.
  destruct (getOppositeMarker_Some _ _ _ _ _ Hend) as (Hein & _ & _).
  destruct (positionOf_elem_of _ _ Hein) as [q Hq].
  exists e, q. split_and!; [done| |].
  - cbn [getPosition]. unfold mergeTree_getPosition. by rewrite Hq.
  - apply pairs_elem_of. by exists x, e.
Qed.

Lemma pairs_same_begin doc pb pe pe' :
  distinctSegments doc → wellPaired doc →
  (pb, pe) ∈ pairs doc → (pb, pe') ∈ pairs doc → pe = pe'.
Proof.
  intros Hnd Hwp H1 H2.
  destruct (pairs_partners _ _ _ Hnd Hwp H1)
    as (b & e & Hb & He & Hkb & Hke & Hend & Hst & Hpb & Hpe & _).
  destruct (pairs_partners _ _ _ Hnd Hwp H2)
    as (b' & e' & Hb' & He' & Hkb' & Hke' & Hend' & Hst' & Hpb' & Hpe' & _).
  assert (b = b') as <-.
  { apply (same_position doc b b' pb); try done; by apply kind_beginTags_marker. }
  rewrite Hend in Hend'. injection Hend' as <-. congruence.
Qed.

(** The segment of the scan on which a tag of a pair lies is that tag. *)
Lemma pair_end_here doc prefix x rest pb pe :
  distinctSegments doc → wellPaired doc → doc = prefix ++ x :: rest →
  (pb, pe) ∈ pairs doc →
  getLength prefix <= pe < getLength prefix + cachedLength x →
  getDocSegmentKind (Some x) = Ok endTags ∧ pe = getLength prefix.
Proof.
  intros Hnd Hwp Hdoc Hpair Hrange.
  destruct (pairs_partners _ _ _ Hnd Hwp Hpair)
    as (b & e & Hb & He & Hkb & Hke & Hend & Hst & Hpb & Hpe & _).
  pose proof (kind_endTags_marker _ Hke).
  destruct (positionOf_overlap doc prefix x rest e pe Hnd Hdoc He Hpe) as [-> ->];
    [lia|done|done].
Qed.

Lemma pair_begin_here doc prefix x rest pb pe :
  distinctSegments doc → wellPaired doc → doc = prefix ++ x :: rest →
  (pb, pe) ∈ pairs doc →
  getLength prefix <= pb < getLength prefix + cachedLength x →
  getDocSegmentKind (Some x) = Ok beginTags ∧ pb = getLength prefix.
Proof.
  intros Hnd Hwp Hdoc Hpair Hrange.
  destruct (pairs_partners _ _ _ Hnd Hwp Hpair)
    as (b & e & Hb & He & Hkb & Hke & Hend & Hst & Hpb & Hpe & _).
  pose proof (kind_beginTags_marker _ Hkb).
  destruct (positionOf_overlap doc prefix x rest b pb Hnd Hdoc Hb Hpb) as [-> ->];
    [lia|done|done].
Qed.

Lemma covered_app p ops new : covered p (ops ++ new) ↔ covered p ops ∨ covered p new.
Proof.
  unfold covered. split.
  - intros (op & [?|?]%elem_of_app & ?); [left|right]; by exists op.
  - intros [(op & ? & ?)|(op & ? & ?)]; exists op; (split; [|done]);
      apply elem_of_app; [by left|by right].
Qed.

Lemma covered_singleton p a b : covered p [RemoveRangeOp a b] ↔ a <= p < b.
Proof.
  unfold covered. split.
  - intros (op & ->%list_elem_of_singleton & ?). done.
  - intros ?. exists (RemoveRangeOp a b). split; [left|done].
Qed.

Section nested_pairs.
Variable doc : MergeTree.
Variables start end_ : Z.
Hypothesis Hdistinct : distinctSegments doc.
Hypothesis Hpaired : wellPaired doc.
Hypothesis Hnested : nested doc.

Lemma not_crossing x y : x ∈ pairs doc → y ∈ pairs doc → ¬ crossing x y.
Proof.
  intros Hx Hy. unfold nested in Hnested. rewrite Forall_forall in Hnested.
  pose proof (Hnested x Hx) as Hall. rewrite Forall_forall in Hall. by apply Hall.
Qed.

(** Going past a segment that changes nothing. *)
Lemma scanState_skip prefix x rest s ops :
  doc = prefix ++ x :: rest →
  scanState doc start end_ prefix s ops →
  (∀ y, kept doc start end_ y →
        getLength prefix <= y < getLength prefix + cachedLength x → False) →
  (∀ pb q, (pb, q) ∈ pairs doc → start <= pb < end_ →
           getLength prefix <= pb < getLength prefix + cachedLength x →
           end_ <= q → covered q ops) →
  scanState doc start end_ (prefix ++ [x]) s ops.
Proof.
  intros Hdoc ((J1a & J1b & J1c) & J2 & J4 & J5 & J6 & J7 & J8) Hkept Hbegin.
  pose proof (cachedLength_nonneg x). unfold scanState. rewrite getLength_snoc.
  split_and!; try done; [lia| |].
  - intros y Hy Hlt. destruct (decide (y < getLength prefix)); [by apply J6|].
    destruct (Hkept y Hy). lia.
  - intros pb q Hpair Hpb Hlt Hq.
    destruct (decide (pb < getLength prefix)); [by eapply J7|].
    eapply Hbegin; [done|done|lia|done].
Qed.

(** The scan, one segment further. *)
Lemma scan_paired_step prefix x rest s ops :
  doc = prefix ++ x :: rest →
  scanState doc start end_ prefix s ops →
  ∃ s1 ops1,
    scanState doc start end_ (prefix ++ [x]) s1 ops1
    ∧ mapRange (removeLeaf doc end_) (s, ops) (getLength prefix) start end_ (x :: rest)
      = mapRange (removeLeaf doc end_) (s1, ops1) (getLength (prefix ++ [x]))
          start end_ rest.
Proof.
  intros Hdoc Hstate.
  pose proof Hstate as ((J1a & J1b & J1c) & J2 & J4 & J5 & J6 & J7 & J8).
  pose proof (cachedLength_nonneg x) as Hx0.
  set (p := getLength prefix) in *.
  assert (x ∈ doc) as Hxin by (rewrite Hdoc; apply elem_of_app; right; left).
  assert (∃ kind, getDocSegmentKind (Some x) = Ok kind) as [kind Hkind].
  { unfold wellPaired in Hpaired. rewrite Forall_forall in Hpaired.
    pose proof (Hpaired x Hxin) as Hp. unfold pairedSegment in Hp.
    destruct (getDocSegmentKind (Some x)) as [kind|]; [by exists kind|done]. }
  (* a tag of a pair on [x] makes [x] that tag *)
  assert (∀ pb pe, (pb, pe) ∈ pairs doc → p <= pe < p + cachedLength x →
                   kind = endTags ∧ pe = p) as Hend_here.
  { intros pb pe Hpair Hrange.
    destruct (pair_end_here doc prefix x rest pb pe Hdistinct Hpaired Hdoc Hpair Hrange)
      as [Hk ->].
    rewrite Hkind in Hk. by injection Hk as ->. }
  assert (∀ pb pe, (pb, pe) ∈ pairs doc → p <= pb < p + cachedLength x →
                   kind = beginTags ∧ pb = p) as Hbegin_here.
  { intros pb pe Hpair Hrange.
    destruct (pair_begin_here doc prefix x rest pb pe Hdistinct Hpaired Hdoc Hpair Hrange)
      as [Hk ->].
    rewrite Hkind in Hk. by injection Hk as ->. }
  cbn [mapRange]. fold p. rewrite getLength_snoc. fold p.
  destruct (Z.ltb_spec (Z.max 0 (start - p)) (Z.min (cachedLength x) (end_ - p)))
    as [Hvisible|Hhidden].
  - (* [x] is visited *)
    destruct (decide (kind = beginTags)) as [->|Hnb];
      [|destruct (decide (kind = endTags)) as [->|Hne]].
    + (* a begin tag *)
      pose proof (kind_beginTags_marker _ Hkind) as Hx1.
      destruct (begin_tag_pair doc prefix x rest Hdistinct Hpaired Hdoc Hkind)
        as (e & q & Hend & Hq & Hpair). fold p in Hpair.
      assert (∀ y, kept doc start end_ y → p <= y < p + cachedLength x → False)
        as Hnokept.
      { intros y (_ & pb & Hy & _) Hrange.
        destruct (Hend_here _ _ Hy Hrange) as [? _]. done. }
      assert (removeLeaf doc end_ p x (Z.max 0 (start - p))
                (Z.min (cachedLength x) (end_ - p)) (s, ops)
              = Ok (true, (s, if q <? end_ then ops
                              else ops ++ [RemoveRangeOp q (q + 1)]))) as ->.
      { unfold removeLeaf. rewrite Hkind. cbn [mbind result_bind].
        rewrite Hend. cbn [mbind result_bind]. rewrite Hq. cbn [mbind result_bind].
        by destruct (q <? end_). }
      cbn [mbind result_bind].
      destruct (Z.ltb_spec q end_) as [Hin|Hout].
      * exists s, ops. split; [|done].
        apply (scanState_skip prefix x rest); [done|done|done|].
        intros pb q' Hpair' Hpb Hrange Hq'.
        destruct (Hbegin_here _ _ Hpair' Hrange) as [_ ->].
        rewrite (pairs_same_begin doc p q' q Hdistinct Hpaired Hpair' Hpair) in Hq'. lia.
      * exists s, (ops ++ [RemoveRangeOp q (q + 1)]). split; [|done].
        unfold scanState. rewrite getLength_snoc. fold p.
        split_and!; try done; [lia| | | | |].
        -- intros y Hy. destruct (J4 y Hy); [left|by right].
           apply covered_app. by left.
        -- intros y Hy [Hc|Hc%covered_singleton]%covered_app; [by eapply J5|].
           destruct Hy as [? _]. lia.
        -- intros y Hy Hlt. destruct (decide (y < p)); [by apply J6|].
           destruct (Hnokept y Hy). lia.
        -- intros pb q' Hpair' Hpb Hlt Hq'. apply covered_app.
           destruct (decide (pb < p)); [left; by eapply J7|right].
           destruct (Hbegin_here _ _ Hpair' ltac:(lia)) as [_ ->].
           rewrite (pairs_same_begin doc p q' q Hdistinct Hpaired Hpair' Hpair).
           apply covered_singleton. lia.
        -- intros y [Hc|Hc%covered_singleton]%covered_app; [by apply J8|].
           right. assert (y = q) as -> by lia. split; [done|].
           exists p. split; [done|lia].
    + (* an end tag *)
      pose proof (kind_endTags_marker _ Hkind) as Hx1.
      destruct (end_tag_pair doc prefix x rest Hdistinct Hpaired Hdoc Hkind)
        as (b & pb & Hst & Hpb & Hpair & Hlt). fold p in Hpair, Hlt.
      assert (∀ pb' q, (pb', q) ∈ pairs doc → start <= pb' < end_ →
                       p <= pb' < p + cachedLength x → end_ <= q → covered q ops)
        as Hnobegin.
      { intros pb' q Hpair' _ Hrange _.
        destruct (Hbegin_here _ _ Hpair' Hrange) as [? _]. done. }
      assert (removeLeaf doc end_ p x (Z.max 0 (start - p))
                (Z.min (cachedLength x) (end_ - p)) (s, ops)
              = Ok (true, if s <=? pb then (s, ops)
                          else (p + 1, ops ++ [RemoveRangeOp s p]))) as ->.
      { unfold removeLeaf. rewrite Hkind. cbn [mbind result_bind].
        rewrite Hst. cbn [mbind result_bind]. rewrite Hpb. cbn [mbind result_bind].
        by destruct (s <=? pb). }
      cbn [mbind result_bind].
      destruct (Z.leb_spec s pb) as [Hinside|Hflush].
      * (* its begin tag is in what is being removed *)
        exists s, ops. split; [|by rewrite Hx1].
        apply (scanState_skip prefix x rest); [done|done| |done].
        intros y (_ & pb' & Hy & Hpb') Hrange.
        destruct (Hend_here _ _ Hy Hrange) as [_ ->].
        rewrite (pairs_same_end doc pb' pb p Hdistinct Hpaired Hy Hpair) in Hpb'. lia.
      * (* its begin tag lies before the range *)
        assert (pb < start) as Hbefore.
        { destruct (decide (pb < start)) as [|Hge]; [done|exfalso].
          destruct J2 as [->|(pb0 & Hpair0 & Hpb0)]; [lia|].
          assert (pb ≠ s - 1).
          { intros ->. by apply (pairs_begin_not_end doc (s - 1) p pb0). }
          apply (not_crossing (pb0, s - 1) (pb, p) Hpair0 Hpair).
          unfold crossing. cbn [fst snd]. lia. }
        assert (kept doc start end_ p) as Hkeptp.
        { split; [lia|]. by exists pb. }
        exists (p + 1), (ops ++ [RemoveRangeOp s p]). split; [|by rewrite Hx1].
        unfold scanState. rewrite getLength_snoc. fold p. rewrite Hx1.
        split_and!; [lia|lia|lia| | | | | |].
        -- right. exists pb. by replace (p + 1 - 1) with p by lia.
        -- intros y Hy. destruct (decide (y < s)) as [Hys|Hys].
           ++ destruct (J4 y) as [?|?]; [lia|left|by right]. apply covered_app. by left.
           ++ destruct (decide (y = p)) as [->|?]; [by right|left].
              apply covered_app. right. apply covered_singleton. lia.
        -- intros y Hy [Hc|Hc%covered_singleton]%covered_app; [by eapply J5|].
           assert (y < s) by (apply J6; [done|lia]). lia.
        -- intros y _ ?. lia.
        -- intros pb' q Hpair' Hpb' Hlt' Hq. apply covered_app. left.
           destruct (decide (pb' < p)); [by eapply J7|].
           by eapply Hnobegin; [done|done|lia|done].
        -- intros y [Hc|Hc%covered_singleton]%covered_app; [|left; lia].
           destruct (J8 y Hc) as [?|?]; [left; lia|by right].
    + (* neither *)
      assert (removeLeaf doc end_ p x (Z.max 0 (start - p))
                (Z.min (cachedLength x) (end_ - p)) (s, ops) = Ok (true, (s, ops))) as ->.
      { unfold removeLeaf. rewrite Hkind. by destruct kind. }
      cbn [mbind result_bind]. exists s, ops. split; [|done].
      apply (scanState_skip prefix x rest); [done|done| |].
      * intros y (_ & pb & Hy & _) Hrange. by destruct (Hend_here _ _ Hy Hrange).
      * intros pb q Hpair _ Hrange _. by destruct (Hbegin_here _ _ Hpair Hrange).
  - (* [x] lies outside the range *)
    exists s, ops. split; [|done].
    apply (scanState_skip prefix x rest); [done|done| |].
    + intros y (Hy & pb & Hpair & _) Hrange.
      destruct (Hend_here _ _ Hpair Hrange) as [-> ->].
      apply kind_endTags_marker in Hkind. lia.
    + intros pb q Hpair Hpb Hrange _.
      destruct (Hbegin_here _ _ Hpair Hrange) as [-> ->].
      apply kind_beginTags_marker in Hkind. lia.
Qed.

(** The scan goes through, and arrives in a state as described. *)
Lemma scan_paired rest :
  ∀ prefix s ops,
    doc = prefix ++ rest →
    scanState doc start end_ prefix s ops →
    ∃ s' ops',
      mapRange (removeLeaf doc end_) (s, ops) (getLength prefix) start end_ rest
      = Ok (s', ops')
      ∧ scanState doc start end_ doc s' ops'.
Proof.
  induction rest as [|x rest IH]; intros prefix s ops Hdoc Hstate.
  - exists s, ops. split; [done|]. rewrite app_nil_r in Hdoc. by rewrite <- Hdoc in Hstate.
  - destruct (scan_paired_step prefix x rest s ops Hdoc Hstate)
      as (s1 & ops1 & Hstate1 & ->).
    apply IH; [by rewrite <- app_assoc|done].
Qed.

Lemma scanState_initial : start <= end_ → scanState doc start end_ [] start [].
Proof.
  intros Hle. unfold scanState. change (getLength []) with 0.
  split_and!; [lia|lia|lia|by left| | | | |].
  - intros p ?. lia.
  - intros p _ (op & Hop & _). by apply elem_of_nil in Hop.
  - intros p (_ & pb & Hpair & _) ?.
    destruct (pairs_inside doc pb p Hdistinct Hpaired Hpair). lia.
  - intros pb q Hpair _ ?.
    destruct (pairs_inside doc pb q Hdistinct Hpaired Hpair). lia.
  - intros p (op & Hop & _). by apply elem_of_nil in Hop.
Qed.

(** X20 (FlowDocument.remove, nested pairs): in a document with distinct
    segments whose tags all have their partners and whose pairs nest,
    [remove] of a non-empty range goes through, and what it submits takes
    the begin tag of a pair away exactly when it takes its end tag away:
    no pair is left with one tag only. *)
Theorem remove_keeps_pairs :
  start < end_ →
  ∃ ops,
    remove start end_ doc = Ok [GroupOperation ops]
    ∧ ∀ pb pe, (pb, pe) ∈ pairs doc → (covered pb ops ↔ covered pe ops).
Proof.
  intros Hlt.
  destruct (scan_paired doc [] start [] eq_refl (scanState_initial ltac:(lia)))
    as (s' & scanned & Hscan & (J1a & J1b & J1c) & J2 & J4 & J5 & J6 & J7 & J8).
  change (getLength []) with 0 in Hscan.
  set (all := scanned ++ if decide (s' ≠ end_) then [RemoveRangeOp s' end_] else []).
  exists (sortOps all). split.
  { unfold remove, removeScan, visitRange.
    destruct (Z.ltb_spec start end_); [|lia]. cbn [negb].
    rewrite Hscan. cbn [mbind result_bind]. unfold all.
    case_decide; [done|by rewrite app_nil_r]. }
  assert (∀ p, covered p (sortOps all)
               ↔ covered p scanned ∨ (s' <= p < end_)) as Hcovered.
  { intros p. unfold covered, sortOps.
    setoid_rewrite merge_sort_Permutation. fold (covered p all).
    unfold all. rewrite covered_app. apply or_iff_compat_l.
    case_decide.
    - rewrite covered_singleton. done.
    - split; [intros (op & Hop & _); by apply elem_of_nil in Hop|lia]. }
  assert (∀ p, start <= p < end_ →
               (covered p (sortOps all) ↔ ¬ kept doc start end_ p)) as Hinside.
  { intros p Hp. rewrite Hcovered. split.
    - intros [Hc|Hc] Hkept; [by eapply J5|].
      assert (p < s'); [|lia]. apply J6; [done|].
      destruct Hkept as (_ & pb & Hpair & _).
      destruct (pairs_inside doc pb p Hdistinct Hpaired Hpair). lia.
    - intros Hnot. destruct (decide (p < s')); [|right; lia].
      destruct (J4 p) as [?|?]; [lia|by left|done]. }
  assert (∀ p, end_ <= p →
               (covered p (sortOps all)
                ↔ ∃ pb, (pb, p) ∈ pairs doc ∧ start <= pb < end_)) as Hafter.
  { intros p Hp. rewrite Hcovered. split.
    - intros [Hc|Hc]; [|lia]. destruct (J8 p Hc) as [?|[_ ?]]; [lia|done].
    - intros (pb & Hpair & Hpb). left. eapply J7; [done|done| |done].
      destruct (pairs_inside doc pb p Hdistinct Hpaired Hpair). lia. }
  assert (∀ p, p < start → ¬ covered p (sortOps all)) as Hbefore.
  { intros p Hp. rewrite Hcovered. intros [Hc|Hc]; [|lia].
    destruct (J8 p Hc) as [?|[? _]]; lia. }
  intros pb pe Hpair.
  destruct (pairs_inside doc pb pe Hdistinct Hpaired Hpair) as (_ & Hbe & _).
  destruct (decide (pb < start)) as [Hb1|Hb1]; [|destruct (decide (pb < end_)) as [Hb2|Hb2]].
  - (* the begin tag lies before the range *)
    split; [intros Hc; by destruct (Hbefore pb Hb1)|]. intros Hc. exfalso.
    destruct (decide (pe < start)); [by apply (Hbefore pe)|].
    destruct (decide (pe < end_)).
    + apply (Hinside pe) in Hc; [|lia]. apply Hc. split; [lia|]. by exists pb.
    + apply (Hafter pe) in Hc as (pb' & Hpair' & Hpb'); [|lia].
      rewrite (pairs_same_end doc pb' pb pe Hdistinct Hpaired Hpair' Hpair) in Hpb'. lia.
  - (* the begin tag lies in the range *)
    assert (covered pb (sortOps all)) as Hcb.
    { apply Hinside; [lia|]. intros (_ & pb0 & Hpair0 & _).
      by apply (pairs_begin_not_end doc pb pe pb0). }
    assert (covered pe (sortOps all)) as Hce.
    { destruct (decide (pe < end_)).
      - apply Hinside; [lia|]. intros (_ & pb' & Hpair' & Hpb').
        rewrite (pairs_same_end doc pb' pb pe Hdistinct Hpaired Hpair' Hpair) in Hpb'. lia.
      - apply Hafter; [lia|]. exists pb. split; [done|lia]. }
    done.
  - (* the pair lies after the range *)
    split; intros Hc; exfalso.
    + apply (Hafter pb) in Hc as (pb' & Hpair' & _); [|lia].
      by apply (pairs_begin_not_end doc pb pe pb').
    + apply (Hafter pe) in Hc as (pb' & Hpair' & Hpb'); [|lia].
      rewrite (pairs_same_end doc pb' pb pe Hdistinct Hpaired Hpair' Hpair) in Hpb'. lia.
Qed.
End nested_pairs.

Lemma nestedTags_distinct : distinctSegments nestedTags.
Proof. unfold distinctSegments. by_computation. Defined.

Lemma nestedTags_wellPaired : wellPaired nestedTags.
Proof. unfold wellPaired. by_computation. Defined.

Lemma nestedTags_nested : nested nestedTags.
Proof. unfold nested. by_computation. Defined.

Lemma remove_keeps_pairs_witness :
  distinctSegments nestedTags ∧ wellPaired nestedTags ∧ nested nestedTags ∧ 3 < 7
  ∧ pairs nestedTags = [(0, 5); (2, 4)]
  ∧ ∃ ops,
      remove 3 7 nestedTags = Ok [GroupOperation ops]
      ∧ ∀ pb pe, (pb, pe) ∈ pairs nestedTags → (covered pb ops ↔ covered pe ops).
Proof.
  split_and!; [exact nestedTags_distinct|exact nestedTags_wellPaired
              |exact nestedTags_nested|lia|reflexivity|].
  exact (remove_keeps_pairs nestedTags 3 7 nestedTags_distinct nestedTags_wellPaired
           nestedTags_nested ltac:(lia)).
Defined.

(** The pairs of the overlapping document cross, and there [remove] splits
    a pair. *)
Example overlappingTags_not_nested :
  distinctSegments overlappingTags ∧ wellPaired overlappingTags
  ∧ ¬ nested overlappingTags.
Proof.
  split_and!.
  - unfold distinctSegments. by_computation.
  - unfold wellPaired. by_computation.
  - unfold nested. by_computation.
Qed.
